(** * Projector light show: preset engine, beat detector, motion blender

    A shallow embedding of [presets.js] (the preset switchboard [drawPreset])
    and of the application script that follows it in the same source file
    (utilities, [Kreis], [BeatDetector], [motionPos], [setMotionMode],
    [computeMotionOffset], [selectPreset], the tail of [loop]).

    Conventions of the embedding.

    - A JavaScript number is read as the rational it denotes ([Q]); [+ - * /]
      are exact, so IEEE rounding, NaN and infinities are outside the model.
      [Math.PI] is the rational value of the double constant.
    - Preset ids are integers ([Z]), as the preset grid, the beat callback
      and the [switch] of [drawPreset] have them.
    - Module-level [let] variables that the modelled functions only read
      (dimensions, sliders, colours, [onoff]) are the record [Globals];
      the ones they write are the record [State].
    - What the host supplies during one call is the record [Host]: the k-th
      reading of [performance.now()], the k-th value of [Math.random()], and
      [Math.cos] / [Math.sin].
    - The canvas is a log of the painting calls ([fill], [stroke],
      [fillRect], [strokeRect]) in the order issued.  Path construction,
      style assignments and the coordinates passed to the calls are not
      recorded. *)

From Stdlib Require Import QArith ZArith List String Bool Lia Lqa.
From Stdlib Require Import Qround Qabs Qminmax Qpower.
Import ListNotations.

Open Scope Q_scope.

(* ------------------------------------------------------------------ *)
(** ** Numbers *)

Definition Qltb (x y : Q) : bool := negb (Qle_bool y x).
Definition Qgeb (x y : Q) : bool := Qle_bool y x.
Definition Qgtb (x y : Q) : bool := negb (Qle_bool x y).

(** [Math.PI], the double nearest to pi: 884279719003555 / 2^48. *)
Definition Math_PI : Q := 884279719003555 # 281474976710656.

(** [Math.floor], kept as a number. *)
Definition Math_floor (x : Q) : Q := inject_Z (Qfloor x).

(** [const clamp = (v, lo, hi) => Math.max(lo, Math.min(hi, v))] *)
Definition clamp (v lo hi : Q) : Q := Qmax lo (Qmin hi v).

(** The same function at integer arguments. *)
Definition clampZ (v lo hi : Z) : Z := Z.max lo (Z.min hi v).

(** [const lerp = (a,b,t) => a + (b-a)*t] *)
Definition lerp (a b t : Q) : Q := a + (b - a) * t.

(** [easeInOutCubic = (t) => (t < 0.5) ? 4*t*t*t : 1 - Math.pow(-2*t+2, 3)/2] *)
Definition easeInOutCubic (t : Q) : Q :=
  if Qltb t 0.5 then 4 * t * t * t else 1 - ((-2 * t + 2) ^ 3) / 2.

(** Truncation toward zero and the remainder operator [%] of JavaScript. *)
Definition Qtrunc (x : Q) : Z := if Qle_bool 0 x then Qfloor x else Qceiling x.
Definition js_rem (x y : Q) : Q := x - y * inject_Z (Qtrunc (x / y)).

(** Number of iterations of [for (let f=0; f<bound; f++)]: the naturals
    below [bound]. *)
Definition loop_count (bound : Q) : nat := Z.to_nat (Qceiling bound).

(** Storing a number into an [Int32Array] slot wraps it to 32 bits. *)
Definition toInt32 (z : Z) : Z := ((z + 2 ^ 31) mod 2 ^ 32 - 2 ^ 31)%Z.

(** [arr[i] = x] on a typed array: a write past the end is ignored. *)
Fixpoint array_set (l : list Z) (i : nat) (x : Z) : list Z :=
  match l, i with
  | [], _ => []
  | _ :: t, O => x :: t
  | h :: t, S j => h :: array_set t j x
  end.

(* ------------------------------------------------------------------ *)
(** ** Colours and the preset list *)

Record Color := rgbRaw { r : Q; g : Q; b : Q }.

Definition Math_round (x : Q) : Q := inject_Z (Qfloor (x + 0.5)).

(** [function rgb(r,g,b)] *)
Definition rgb (r0 g0 b0 : Q) : Color :=
  rgbRaw (clamp (Math_round r0) 0 255) (clamp (Math_round g0) 0 255)
         (clamp (Math_round b0) 0 255).

Open Scope string_scope.

Definition presetNames : list string :=
  [ "Ring (sin)"; "Ring (rot)"; "3 Rings"; "Rand Lines"; "Rand Ring"; "Sinus";
    "Sin Blocks"; "Cross"; "Discoball"; "Rand Circles"; "Rand Rings";
    "Scan |"; "Scan —"; "2 Scan"; "PingPong"; "Mouse Spot"; "Multi |";
    "Multi —"; "Sin Multi |"; "Sin Multi —"; "Half Arc"; "Sin + Rays";
    "Rot Lines"; "Solid"; "4 Scan"; "4 Rot"; "4 Rings"; "Crazy Rings";
    "Ring Scan"; "Tunnel Rect"; "Dot Grid"; "Quad LED"; "Circle Spin";
    "Square Spin"; "Triangle Spin" ].

Close Scope string_scope.

(** [presetCount()]: the length of the name list, 32 when it is empty. *)
Definition presetCountOf (names : list string) : Z :=
  let n := Z.of_nat (List.length names) in
  if (0 <? n)%Z then n else 32%Z.

Definition presetCount : Z := presetCountOf presetNames.

(* ------------------------------------------------------------------ *)
(** ** Host, globals and state *)

Record Host := mkHost {
  performance_now : nat -> Q;
  Math_random : nat -> Q;
  Math_cos : Q -> Q;
  Math_sin : Q -> Q
}.

Definition nowMs (io : Host) (k : nat) : Q := performance_now io k.

(** The host functions are applied to the reduced fraction: a number has
    one cosine however it is written. *)
Definition cosJ (io : Host) (x : Q) : Q := Math_cos io (Qred x).
Definition sinJ (io : Host) (x : Q) : Q := Math_sin io (Qred x).

(** The same host with its first [n] random values already consumed. *)
Definition skip_random (n : nat) (io : Host) : Host :=
  mkHost (performance_now io) (fun k => Math_random io (n + k))
         (Math_cos io) (Math_sin io).

Record Globals := mkGlobals {
  visualW : Q;
  H : Q;
  DPR : Q;
  presetSpeed : Q;
  presetSize : Q;
  presetBrightness : Q;
  multiColor : bool;
  presetColor : Color;
  multiColorClr : Color;
  onoff : bool;
  transitionSpeed : Q
}.

(** [class Kreis]: one bouncing spotlight. *)
Record Kreis := mkKreis { posX : Q; posY : Q; spdX : Q; spdY : Q }.

Inductive PaintOp := Fill | Stroke | FillRect | StrokeRect.

Record State := mkState {
  presetNumber : Z;
  a : Q;
  b_ : Q;
  c : Q;
  d : Q;
  v : Q;
  m : Q;
  timeRand : Q;
  ranX : list Z;
  ranY : list Z;
  _sqSpin : Q;
  _triSpin : Q;
  spotlight : list Kreis;
  canvas : list PaintOp
}.

Definition set_presetNumber (x : Z) (s : State) : State :=
  mkState x (a s) (b_ s) (c s) (d s) (v s) (m s) (timeRand s) (ranX s) (ranY s)
          (_sqSpin s) (_triSpin s) (spotlight s) (canvas s).
Definition set_a (x : Q) (s : State) : State :=
  mkState (presetNumber s) x (b_ s) (c s) (d s) (v s) (m s) (timeRand s) (ranX s)
          (ranY s) (_sqSpin s) (_triSpin s) (spotlight s) (canvas s).
Definition set_b_ (x : Q) (s : State) : State :=
  mkState (presetNumber s) (a s) x (c s) (d s) (v s) (m s) (timeRand s) (ranX s)
          (ranY s) (_sqSpin s) (_triSpin s) (spotlight s) (canvas s).
Definition set_c (x : Q) (s : State) : State :=
  mkState (presetNumber s) (a s) (b_ s) x (d s) (v s) (m s) (timeRand s) (ranX s)
          (ranY s) (_sqSpin s) (_triSpin s) (spotlight s) (canvas s).
Definition set_d (x : Q) (s : State) : State :=
  mkState (presetNumber s) (a s) (b_ s) (c s) x (v s) (m s) (timeRand s) (ranX s)
          (ranY s) (_sqSpin s) (_triSpin s) (spotlight s) (canvas s).
Definition set_v (x : Q) (s : State) : State :=
  mkState (presetNumber s) (a s) (b_ s) (c s) (d s) x (m s) (timeRand s) (ranX s)
          (ranY s) (_sqSpin s) (_triSpin s) (spotlight s) (canvas s).
Definition set_m (x : Q) (s : State) : State :=
  mkState (presetNumber s) (a s) (b_ s) (c s) (d s) (v s) x (timeRand s) (ranX s)
          (ranY s) (_sqSpin s) (_triSpin s) (spotlight s) (canvas s).
Definition set_timeRand (x : Q) (s : State) : State :=
  mkState (presetNumber s) (a s) (b_ s) (c s) (d s) (v s) (m s) x (ranX s)
          (ranY s) (_sqSpin s) (_triSpin s) (spotlight s) (canvas s).
Definition set_ranX (x : list Z) (s : State) : State :=
  mkState (presetNumber s) (a s) (b_ s) (c s) (d s) (v s) (m s) (timeRand s) x
          (ranY s) (_sqSpin s) (_triSpin s) (spotlight s) (canvas s).
Definition set_ranY (x : list Z) (s : State) : State :=
  mkState (presetNumber s) (a s) (b_ s) (c s) (d s) (v s) (m s) (timeRand s)
          (ranX s) x (_sqSpin s) (_triSpin s) (spotlight s) (canvas s).
Definition set_sqSpin (x : Q) (s : State) : State :=
  mkState (presetNumber s) (a s) (b_ s) (c s) (d s) (v s) (m s) (timeRand s)
          (ranX s) (ranY s) x (_triSpin s) (spotlight s) (canvas s).
Definition set_triSpin (x : Q) (s : State) : State :=
  mkState (presetNumber s) (a s) (b_ s) (c s) (d s) (v s) (m s) (timeRand s)
          (ranX s) (ranY s) (_sqSpin s) x (spotlight s) (canvas s).
Definition set_spotlight (x : list Kreis) (s : State) : State :=
  mkState (presetNumber s) (a s) (b_ s) (c s) (d s) (v s) (m s) (timeRand s)
          (ranX s) (ranY s) (_sqSpin s) (_triSpin s) x (canvas s).
Definition set_canvas (x : list PaintOp) (s : State) : State :=
  mkState (presetNumber s) (a s) (b_ s) (c s) (d s) (v s) (m s) (timeRand s)
          (ranX s) (ranY s) (_sqSpin s) (_triSpin s) (spotlight s) x.

(* ------------------------------------------------------------------ *)
(** ** Rendering helpers *)

Definition paint (op : PaintOp) (s : State) : State :=
  set_canvas (canvas s ++ [op]) s.

(** [fillCircleWorld]: beginPath, arc, fill. *)
Definition fillCircleWorld (s : State) : State := paint Fill s.
(** [strokeLineWorld]: beginPath, moveTo, lineTo, stroke. *)
Definition strokeLineWorld (s : State) : State := paint Stroke s.
(** [arcWorld]: beginPath, arc, stroke. *)
Definition arcWorld (s : State) : State := paint Stroke s.
(** [strokeRectCenteredWorld]: one strokeRect. *)
Definition strokeRectCenteredWorld (s : State) : State := paint StrokeRect s.

(** [fillCirclesBatch(circles)]: nothing for an empty batch, else one path
    holding every circle and a single fill. *)
Definition fillCirclesBatch (ncircles : nat) (s : State) : State :=
  match ncircles with O => s | S _ => paint Fill s end.

(** [fillTinyDotsBatch(points, r)]: one fillRect per point. *)
Definition fillTinyDotsBatch (npoints : nat) (s : State) : State :=
  Nat.iter npoints (paint FillRect) s.

(** [for (let i=from; i<from+count; i++) body] *)
Fixpoint for_loop (from count : nat) (body : nat -> State -> State)
         (s : State) : State :=
  match count with
  | O => s
  | S k => for_loop (S from) k body (body from s)
  end.

Definition for_n (count : nat) (body : nat -> State -> State) : State -> State :=
  for_loop 0 count body.

Definition add_v (dv : Q) (s : State) : State := set_v (v s + dv) s.
Definition add_m (dm : Q) (s : State) : State := set_m (m s + dm) s.

(** [if (m >= limit) m = start] *)
Definition wrap_m (limit start : Q) (s : State) : State :=
  if Qgeb (m s) limit then set_m start s else s.

(* ------------------------------------------------------------------ *)
(** ** Spotlights *)

Definition ballR (G : Globals) : Q :=
  Math_floor (lerp 300 40 (clamp ((presetSize G + 1) / 100) 0 1)) / 2.

(** [Kreis.step()]: reflect off the bounds, then move; the returned
    circle [{x, y, r}] is only drawn. *)
Definition step (G : Globals) (k : Kreis) : Kreis :=
  let w := visualW G / DPR G in
  let h := H G / DPR G in
  let x := posX k in
  let y := posY k in
  let sx := spdX k in
  let sy := spdY k in
  let '(x, sx) :=
    if Qle_bool x (ballR G) then (ballR G, - sx)
    else if Qgeb x (w - ballR G) then (w - ballR G, - sx)
    else (x, sx) in
  let '(y, sy) :=
    if Qle_bool y (ballR G) then (ballR G, - sy)
    else if Qgeb y (h - ballR G) then (h - ballR G, - sy)
    else (y, sy) in
  let moveScale := lerp 0 1 (clamp ((presetSpeed G + 1) / 100) 0 1) in
  mkKreis (x + moveScale * sx) (y + moveScale * sy) sx sy.

Fixpoint step_at (G : Globals) (l : list Kreis) (i : nat) : list Kreis :=
  match l, i with
  | [], _ => []
  | k :: t, O => step G k :: t
  | k :: t, S j => k :: step_at G t j
  end.

(** [spotlight[i % spotlight.length].step()]; the pool is built once with
    21 entries and never resized. *)
Definition step_spotlight (G : Globals) (i : nat) (s : State) : State :=
  set_spotlight
    (step_at G (spotlight s) (i mod List.length (spotlight s))) s.

(* ------------------------------------------------------------------ *)
(** ** Random layout cache *)

(** [initDiscoball(rng)]: 1000 points, x then y drawn for each. *)
Definition initDiscoball (G : Globals) (io : Host) : State -> State :=
  for_n 1000 (fun i s =>
    let span := 0.71 * visualW G / DPR G in
    let s := set_ranX (array_set (ranX s) i
               (toInt32 (Qfloor ((Math_random io (2 * i) * 2 - 1) * span)))) s in
    set_ranY (array_set (ranY s) i
               (toInt32 (Qfloor ((Math_random io (2 * i + 1) * 2 - 1) * span)))) s).

(** The refresh loop shared by presets 9 and 10. *)
Definition reseed_circles (G : Globals) (io : Host) (count : nat)
  : State -> State :=
  let w := visualW G / DPR G in
  let h := H G / DPR G in
  for_n count (fun i s =>
    let rad := (300 - 2.7 * presetSize G) / 2 in
    let s := set_ranX (array_set (ranX s) i
               (toInt32 (Qfloor (rad + Math_random io (2 * i) * (w - 2 * rad))))) s in
    set_ranY (array_set (ranY s) i
               (toInt32 (Qfloor (rad + Math_random io (2 * i + 1) * (h - 2 * rad))))) s).

(** [(presetSpeed===0) ? 1e9 : (1000 - k*presetSpeed)] *)
Definition rand_interval (k : Q) (G : Globals) : Q :=
  if Qeq_bool (presetSpeed G) 0 then 1e9 else 1000 - k * presetSpeed G.

(** [nowMs() - timeRand >= interval]: the first clock reading of the call. *)
Definition refresh_due (k : Q) (G : Globals) (io : Host) (s : State) : bool :=
  Qgeb (nowMs io 0 - timeRand s) (rand_interval k G).

(* ------------------------------------------------------------------ *)
(** ** drawPreset *)

(** The audio feature snapshot; no preset reads it. *)
Record Feats := mkFeats { amp : Q; bass : Q; mid : Q; tre : Q; centroid : Q }.

(** [drawQuadLED] of preset 31: one square per active channel. *)
Definition drawQuadLED (G : Globals) (s : State) : State :=
  let base := presetColor G in
  let alt := if multiColor G then multiColorClr G else presetColor G in
  let redOn := Qgtb (r base) 0 || Qgtb (r alt) 0 in
  let greenOn := Qgtb (g base) 0 || Qgtb (g alt) 0 in
  let blueOn := Qgtb (b base) 0 || Qgtb (b alt) 0 in
  let s := if redOn then paint FillRect s else s in
  let s := if greenOn then paint FillRect s else s in
  let s := if blueOn then paint FillRect s else s in
  if Qgtb (r base) 0 && Qgtb (g base) 0 && Qgtb (b base) 0
  then paint FillRect s else s.

(** Preset 8 sorts the 1000 rotated points into two flat arrays; the pair
    counts the points of each. *)
Definition discoball_split (G : Globals) : nat * nat :=
  fold_left (fun '(na, nb) i =>
               if multiColor G && (500 <? i)%nat then (na, S nb) else (S na, nb))
            (seq 0 1000) (O, O).

(** Preset 14 sorts the stepped circles by index parity. *)
Definition pingpong_split (G : Globals) (count : nat) : nat * nat :=
  fold_left (fun '(na, nb) i =>
               if multiColor G && Nat.odd i then (na, S nb) else (S na, nb))
            (seq 0 count) (O, O).

(** The batch of preset 8: tiny dots as rectangles, larger ones as circles. *)
Definition discoball_batch (G : Globals) (npoints : nat) (s : State) : State :=
  let rad := Qmax 1 (presetSize G / 8) in
  if Qle_bool rad 2.2 then fillTinyDotsBatch npoints s
  else fillCirclesBatch npoints s.

Definition drawPreset (G : Globals) (io : Host) (idx : Z) (feats : Feats)
           (motion : Q * Q) (s : State) : State :=
  let w := visualW G / DPR G in
  let h := H G / DPR G in
  let speed := presetSpeed G in
  let size := presetSize G in
  let multi := multiColor G in
  if negb (onoff G) then s else
  match idx with
  | 0%Z =>
      for_n 18 (fun _ s => add_v (speed / 360000) (fillCircleWorld s)) s
  | 1%Z =>
      let s := add_v (speed / 2000) s in
      for_n 18 (fun _ s => fillCircleWorld s) s
  | 2%Z =>
      let s := add_v (speed / 3000) s in
      for_n 3 (fun _ s => for_n 18 (fun _ s => fillCircleWorld s) s) s
  | 3%Z =>
      let s := if multi
               then strokeLineWorld (strokeLineWorld (strokeLineWorld s))
               else strokeLineWorld s in
      if refresh_due 10 G io s then
        let s := set_timeRand (nowMs io 1) s in
        let s := set_a (Math_floor (50 + Math_random io 0 * (w - 100))) s in
        let s := set_b_ (Math_floor (50 + Math_random io 1 * (h - 100))) s in
        let s := set_c (Math_floor (50 + Math_random io 2 * (w - 100))) s in
        set_d (Math_floor (50 + Math_random io 3 * (h - 100))) s
      else s
  | 4%Z =>
      let s := if multi then for_n 8 (fun _ s => arcWorld s) s
               else paint Stroke s in
      if refresh_due 10 G io s then
        let s := set_timeRand (nowMs io 1) s in
        let s := set_a (Math_floor (150 + Math_random io 0 * (w - 300))) s in
        let s := set_b_ (Math_floor (150 + Math_random io 1 * (h - 300))) s in
        set_c (Math_random io 2 * Math_PI * 2) s
      else s
  | 5%Z =>
      for_n (loop_count (w / 16))
            (fun _ s => add_v (speed / 90000) (fillCircleWorld s)) s
  | 6%Z =>
      for_n (loop_count (w / 90))
            (fun _ s => add_v (speed / 15000)
                          (paint FillRect (paint FillRect s))) s
  | 7%Z =>
      let s := add_v (speed / 1000) s in
      if multi
      then for_n 10 (fun _ s => strokeLineWorld (strokeLineWorld s)) s
      else strokeLineWorld (strokeLineWorld s)
  | 8%Z =>
      let s := add_v (speed / 5000) s in
      let '(nA, nB) := discoball_split G in
      let s := discoball_batch G nA s in
      if multi then discoball_batch G nB s else s
  | 9%Z =>
      let count := Z.to_nat (Qfloor ((size + 10) / 10)) in
      let s := for_n count (fun _ s => paint Fill s) s in
      if refresh_due 9.5 G io s
      then reseed_circles G io count (set_timeRand (nowMs io 1) s)
      else s
  | 10%Z =>
      let count := Z.to_nat (Qfloor ((size + 10) / 10)) in
      let s := for_n count (fun _ s => paint Stroke s) s in
      if refresh_due 9.5 G io s
      then reseed_circles G io count (set_timeRand (nowMs io 1) s)
      else s
  | 11%Z | 12%Z =>
      let s := add_v (speed / 1000) s in
      if multi
      then strokeLineWorld (strokeLineWorld (strokeLineWorld s))
      else strokeLineWorld s
  | 13%Z =>
      let s := add_v (speed / 1000) s in
      if multi
      then for_n 10 (fun _ s => strokeLineWorld (strokeLineWorld s)) s
      else strokeLineWorld (strokeLineWorld s)
  | 14%Z =>
      let maxBalls := 12 in
      let count :=
        Z.to_nat (Qfloor (clamp (Math_floor (lerp 4 maxBalls
                                              (clamp (size / 100) 0 1)))
                                4 maxBalls)) in
      let s := for_n count (fun i s => step_spotlight G i s) s in
      let '(nA, nB) := pingpong_split G count in
      let s := fillCirclesBatch nA s in
      if multi then fillCirclesBatch nB s else s
  | 15%Z =>
      let s := fillCircleWorld s in
      if multi then fillCircleWorld s else s
  | 16%Z =>
      let s := for_n 9 (fun _ s => strokeLineWorld s) s in
      wrap_m (w - 50) (-50) (add_m (speed / 3) s)
  | 17%Z =>
      let s := for_n 9 (fun _ s => strokeLineWorld s) s in
      wrap_m (h - 50) (-50) (add_m (speed / 3) s)
  | 18%Z =>
      let s := add_v (speed / 5000) s in
      let s := for_n 9 (fun _ s => strokeLineWorld s) s in
      wrap_m (w - 50) (-50) (add_m (speed / 4) s)
  | 19%Z =>
      let s := add_v (speed / 5000) s in
      let s := for_n 9 (fun _ s => strokeLineWorld s) s in
      wrap_m (h - 50) (-50) (add_m (speed / 4) s)
  | 20%Z =>
      let s := add_v (speed / 20) s in
      let s :=
        if Qgeb (v s) 100 then
          let s := set_v 0 s in
          let s := set_a (Math_floor (Math_random io 0 * 21)) s in
          let s := set_b_ (Math_floor (Math_random io 1 * 21)) s in
          set_c (Math_floor (350 + Math_random io 2 * Qmax 1 (h - 400))) s
        else s in
      arcWorld s
  | 21%Z =>
      for_n (loop_count (w / 16))
            (fun _ s => add_v (speed / 90000) (fillCircleWorld s)) s
  | 22%Z =>
      let s := add_v (speed / 3000) s in
      let s := for_n 17 (fun _ s => strokeLineWorld s) s in
      let s := for_n 17 (fun _ s => strokeLineWorld s) s in
      wrap_m (w - 50) (-50) (add_m 1 s)
  | 23%Z => paint FillRect s
  | 24%Z | 25%Z =>
      let s := strokeLineWorld (strokeLineWorld
                 (strokeLineWorld (strokeLineWorld s))) in
      add_v (speed / 360000) s
  | 26%Z =>
      let s := add_v (speed / 4000) s in
      for_n 4 (fun _ s => for_n 18 (fun _ s => fillCircleWorld s) s) s
  | 27%Z =>
      let s := add_v (speed / 20000) s in
      for_n 2 (fun _ s =>
        for_n 2 (fun _ s => for_n 18 (fun _ s => fillCircleWorld s) s) s) s
  | 28%Z =>
      let s := add_v (speed / 800) s in
      fillCircleWorld (fillCircleWorld s)
  | 29%Z =>
      let s := strokeRectCenteredWorld s in
      wrap_m 220 0 (add_m (speed / 40) s)
  | 30%Z =>
      let s := add_v (speed / 1200) s in
      for_n 10 (fun _ s => for_n 10 (fun _ s => fillCircleWorld s) s) s
  | 31%Z =>
      let s := add_v (lerp (-0.06) 0.06 (speed / 100)) s in
      for_n 3 (fun _ s =>
        for_n 5 (fun e s =>
          for_n 5 (fun f s =>
            if negb ((e =? 0) && (f =? 0) || (e =? 4) && (f =? 0)
                     || (e =? 0) && (f =? 4) || (e =? 4) && (f =? 4)
                     || (e =? 2) && (f =? 2))%nat
            then drawQuadLED G s else s) s) s) s
  | 32%Z =>
      let s := add_v (speed / 2000) s in
      if multi then for_n 8 (fun _ s => arcWorld s) s else arcWorld s
  | 33%Z =>
      let s := add_v (speed / 2000) s in
      let shapeSpinMul := 20.0 in
      let s := set_sqSpin (_sqSpin s + (speed / 60000) * shapeSpinMul) s in
      if multi then paint Stroke (paint Stroke s) else paint Stroke s
  | 34%Z =>
      let s := add_v (speed / 2000) s in
      let shapeSpinMul := 20.0 in
      let s := set_triSpin (_triSpin s + (speed / 60000) * shapeSpinMul) s in
      if multi then paint Stroke (paint Stroke s) else paint Stroke s
  | _ => s
  end.

(* ------------------------------------------------------------------ *)
(** ** selectPreset and the tail of loop *)

(** [selectPreset(idx)].  The grid redraw and the pop-out sync that follow
    the switch touch only the DOM and are left out. *)
Definition selectPreset (G : Globals) (io : Host) (idx : Z) (s : State)
  : State :=
  let idx := clampZ idx 0 (presetCount - 1) in
  if (idx =? presetNumber s)%Z then s else
  let s := set_presetNumber idx s in
  let s := set_v (0.2 + Math_random io 0 * 0.8) s in
  let s := set_m 0 s in
  if (presetNumber s =? 8)%Z then initDiscoball G (skip_random 1 io) s else s.

(** The end of [loop]: [if (!onoff) return; drawPreset(presetNumber, ...)]. *)
Definition loop_render (G : Globals) (io : Host) (feats : Feats)
           (motion : Q * Q) (s : State) : State :=
  if negb (onoff G) then s
  else drawPreset G io (presetNumber s) feats motion s.

(** One frame as the loop sees it: the globals and host readings current at
    that frame, and the motion offset handed to the preset. *)
Record Frame := mkFrame {
  fG : Globals;
  fio : Host;
  ffeats : Feats;
  fmotion : Q * Q
}.

Definition draw_frame (idx : Z) (s : State) (f : Frame) : State :=
  drawPreset (fG f) (fio f) idx (ffeats f) (fmotion f) s.

(** Consecutive frames of one preset. *)
Definition run_preset (idx : Z) (frames : list Frame) (s : State) : State :=
  fold_left (draw_frame idx) frames s.

(* ------------------------------------------------------------------ *)
(** ** Beat detection *)

Module BeatDetector.

Record t := mk {
  ema : Q;
  dev : Q;
  prev : Q;
  lastBeat : Q;
  lastThr : Q
}.

(** [reset()] *)
Definition reset : t := mk 0 0 0 (-1e9) 0.

(** [update(energy, tMs, sens01, minIntervalMs)]: the returned flag and
    the detector afterwards. *)
Definition update (energy tMs sens01 minIntervalMs : Q) (bd : t)
  : bool * t :=
  let a := 0.06 in
  let ema' := ema bd + a * (energy - ema bd) in
  let dev' := dev bd + a * (Qabs (energy - ema') - dev bd) in
  let k := lerp 2.2 0.6 (clamp sens01 0 1) in
  let base := lerp 0.030 0.008 (clamp sens01 0 1) in
  let thr := ema' + k * (dev' * 1.10 + base) in
  let rising := Qgtb energy (prev bd) in
  let okTime := Qgeb (tMs - lastBeat bd) minIntervalMs in
  let gate := lerp 0.12 0.03 (clamp sens01 0 1) in
  let hit := okTime && rising && Qgtb energy thr && Qgtb energy gate in
  (hit, mk ema' dev' energy (if hit then tMs else lastBeat bd) thr).

(** One sample of a stream: energy, timestamp, sensitivity, cooldown. *)
Definition sample : Type := Q * Q * Q * Q.

(** Feed a stream; the flags come out in stream order. *)
Fixpoint feed (xs : list sample) (bd : t) : list bool * t :=
  match xs with
  | [] => ([], bd)
  | (energy, tMs, sens01, minIntervalMs) :: rest =>
      let '(hit, bd1) := update energy tMs sens01 minIntervalMs bd in
      let '(hits, bd2) := feed rest bd1 in
      (hit :: hits, bd2)
  end.

End BeatDetector.

(* ------------------------------------------------------------------ *)
(** ** Motion path blending *)

Record MotionState := mkMotion {
  motionPhase : Q;
  motionFromMode : string;
  motionToMode : string;
  motionBlendStart : Q;
  motionBlending : bool
}.

(** [motionBlendDurationSec()] *)
Definition motionBlendDurationSec (G : Globals) : Q :=
  lerp 1.8 0.10 (clamp (transitionSpeed G / 100) 0 1).

(** Vertex [P[seg]] of a path; [seg] stays inside the table because the
    phase is reduced to [0,1) first. *)
Definition vertex (P : list (Q * Q)) (seg : Z) : Q * Q :=
  nth (Z.to_nat seg) P (0, 0).

(** [motionPos(mode, phase, r)] *)
Definition motionPos (io : Host) (mode : string) (phase rad : Q) : Q * Q :=
  let t := js_rem (js_rem phase 1 + 1) 1 in
  if String.eqb mode "off" then (0, 0)
  else if String.eqb mode "circle" then
    let ang := t * Math_PI * 2 in
    (rad * cosJ io ang, rad * sinJ io ang)
  else if String.eqb mode "square" then
    let s := t * 4 in
    let seg := Qfloor s in
    let u := s - inject_Z seg in
    let P := [ (rad, - rad); (rad, rad); (- rad, rad); (- rad, - rad);
               (rad, - rad) ] in
    let p0 := vertex P seg in
    let p1 := vertex P (seg + 1) in
    (lerp (fst p0) (fst p1) u, lerp (snd p0) (snd p1) u)
  else
    let s := t * 3 in
    let seg := Qfloor s in
    let u := s - inject_Z seg in
    let P := [ (0, - rad); (rad, rad); (- rad, rad); (0, - rad) ] in
    let p0 := vertex P seg in
    let p1 := vertex P (seg + 1) in
    (lerp (fst p0) (fst p1) u, lerp (snd p0) (snd p1) u).

(** [setMotionMode(next)]; [tNow] is the clock reading it takes. *)
Definition setMotionMode (tNow : Q) (next : string) (ms : MotionState)
  : MotionState :=
  if String.eqb next (motionToMode ms) then ms
  else mkMotion (motionPhase ms) (motionToMode ms) next tNow true.

(** [computeMotionOffset(tNow, dt)]: the offset and the state afterwards. *)
Definition computeMotionOffset (G : Globals) (io : Host) (tNow dt : Q)
           (ms : MotionState) : (Q * Q) * MotionState :=
  let cps := lerp 0 0.22 (clamp (presetSpeed G / 100) 0 1) in
  let phase := js_rem (motionPhase ms + dt * cps) 1 in
  let rad := 0.18 * Qmin (visualW G / DPR G) (H G / DPR G) in
  let from := motionPos io (motionFromMode ms) phase rad in
  let to := motionPos io (motionToMode ms) phase rad in
  let '(blend, fromMode, blending) :=
    if motionBlending ms then
      let dur := motionBlendDurationSec G * 1000 in
      let blend :=
        easeInOutCubic (clamp ((tNow - motionBlendStart ms) / dur) 0 1) in
      if Qgeb blend 1 then (blend, motionToMode ms, false)
      else (blend, motionFromMode ms, true)
    else (1, motionFromMode ms, false) in
  ((lerp (fst from) (fst to) blend, lerp (snd from) (snd to) blend),
   mkMotion phase fromMode (motionToMode ms) (motionBlendStart ms) blending).

(* ------------------------------------------------------------------ *)
(** ** Sample inputs *)

(** A host whose clock stands at [t], whose random source always yields
    [rnd], and whose trigonometry is a short Taylor polynomial. *)
Definition sample_host (t rnd : Q) : Host :=
  mkHost (fun _ => t) (fun _ => rnd)
         (fun x => 1 - x * x / 2 + x * x * x * x / 24)
         (fun x => x - x * x * x / 6 + x * x * x * x * x / 120).

(** The globals as the application declares them, on a 1920 x 1080 canvas. *)
Definition sample_globals (speed : Q) (on : bool) : Globals :=
  mkGlobals 1920 1080 1 speed 50 100 true (rgb 0 0 255) (rgb 255 255 255)
            on 55.

(** The state as the application declares it ([v=0.2, m=0], zeroed timers),
    with a still layout cache and 21 identical spotlights. *)
Definition sample_state (preset : Z) : State :=
  mkState preset 0 0 0 0 0.2 0 0 (repeat 0%Z 1000) (repeat 0%Z 1000) 0 0
          (repeat (mkKreis 300 300 15 15) 21) [].

Definition no_feats : Feats := mkFeats 0 0 0 0 0.

Definition sample_frame (speed : Q) (on : bool) (t rnd : Q) : Frame :=
  mkFrame (sample_globals speed on) (sample_host t rnd) no_feats (0, 0).

(* ------------------------------------------------------------------ *)
(** ** Quantities the statements speak of *)

(** What one frame of preset 33 or 34 adds to its spin angle. *)
Definition spin_increment (G : Globals) : Q := (presetSpeed G / 60000) * 20.0.

(** "The spin angles free-run": a frame of a preset other than their own
    still advances them by the increment. *)
Definition free_running_spin (G : Globals) (io : Host) (idx : Z)
           (feats : Feats) (motion : Q * Q) (s : State) : Prop :=
  _sqSpin (drawPreset G io idx feats motion s) == _sqSpin s + spin_increment G
  /\ _triSpin (drawPreset G io idx feats motion s)
     == _triSpin s + spin_increment G.

(** The beat detector's sensitivity mapping, as the contract words it. *)
Definition beat_k (sens01 : Q) : Q := lerp 2.2 0.6 (clamp sens01 0 1).
Definition beat_base (sens01 : Q) : Q := lerp 0.030 0.008 (clamp sens01 0 1).
Definition beat_gate (sens01 : Q) : Q := lerp 0.12 0.03 (clamp sens01 0 1).
Definition beat_threshold (sens01 ema dev : Q) : Q :=
  ema + beat_k sens01 * (dev * 1.10 + beat_base sens01).

(** A history of (energy, timestamp) pairs played at one sensitivity and
    one cooldown. *)
Definition at_sensitivity (sens01 minIntervalMs : Q) (hist : list (Q * Q))
  : list BeatDetector.sample :=
  map (fun et => (fst et, snd et, sens01, minIntervalMs)) hist.

(** A silent stream: zero energy at the given timestamps. *)
Definition silence (sens01 minIntervalMs : Q) (ts : list Q)
  : list BeatDetector.sample :=
  map (fun tMs => (0, tMs, sens01, minIntervalMs)) ts.

(** Timestamps of [n] frames, 16 ms apart. *)
Definition ticks (n : nat) : list Q :=
  map (fun i => 16 * inject_Z (Z.of_nat i)) (seq 0 n).

(** The drawable extent a scrolling preset wraps at: the width in world
    units for preset 16, the height for preset 17. *)
Definition scroll_extent (idx : Z) (G : Globals) : Q :=
  match idx with
  | 16%Z => visualW G / DPR G
  | _ => H G / DPR G
  end.

Definition in_scroll_range (extent x : Q) : Prop :=
  -50 <= x /\ x < extent - 50.

(** The randomized endpoints and centers: the four scalars of presets 3
    and 4 and the layout arrays of presets 9 and 10. *)
Definition endpoints (s : State) : Q * Q * Q * Q * list Z * list Z :=
  (a s, b_ s, c s, d s, ranX s, ranY s).

(** "Speed 0 freezes the endpoints for good": frames drawn at speed 0
    never change them. *)
Definition frozen_at_speed_zero (idx : Z) (frames : list Frame) (s : State)
  : Prop :=
  Forall (fun f => presetSpeed (fG f) == 0) frames ->
  forall n, endpoints (run_preset idx (firstn n frames) s) = endpoints s.

(** Angle [a2 = i*Math.PI/9 + v] of dot [i] of the 18-dot ring of preset 1,
    as the frame that produced state [s] drew it. *)
Definition ring_angle (i : Z) (s : State) : Q :=
  inject_Z i * Math_PI / 9 + v s.

(** A frame of preset 1, a switch to preset [q] with one frame of it, the
    switch back and the next frame of preset 1; [ios k] is the host during
    the k-th of these five calls.  The result is the state after the first
    and after the last frame. *)
Definition switch_away_and_back (G : Globals) (ios : nat -> Host) (q : Z)
           (feats : Feats) (motion : Q * Q) (s : State) : State * State :=
  let s1 := drawPreset G (ios 0%nat) 1 feats motion s in
  let s2 := drawPreset G (ios 2%nat) q feats motion
                       (selectPreset G (ios 1%nat) q s1) in
  let s3 := drawPreset G (ios 4%nat) 1 feats motion
                       (selectPreset G (ios 3%nat) 1 s2) in
  (s1, s3).

(** "Continuity across switches": the dot has advanced by one frame's
    increment, as if preset [q] had never run. *)
Definition ring_continuity (G : Globals) (ios : nat -> Host) (q i : Z)
           (feats : Feats) (motion : Q * Q) (s : State) : Prop :=
  ring_angle i (snd (switch_away_and_back G ios q feats motion s))
  - ring_angle i (fst (switch_away_and_back G ios q feats motion s))
  == presetSpeed G / 2000.

(** Offsets are compared as numbers, coordinate by coordinate. *)
Definition Qeq2 (p q : Q * Q) : Prop := fst p == fst q /\ snd p == snd q.

(** [r] of [computeMotionOffset]. *)
Definition motion_radius (G : Globals) : Q :=
  0.18 * Qmin (visualW G / DPR G) (H G / DPR G).

(** A frame at time [tNow], then [setMotionMode(next)] and a second frame
    [gap] ms (and [gap/1000] s of [dt]) later: the offset of the first
    frame, the blender after it, and the offset of the second frame. *)
Definition offset_before (G : Globals) (io : Host) (tNow dt : Q)
           (ms : MotionState) : Q * Q :=
  fst (computeMotionOffset G io tNow dt ms).

Definition state_before (G : Globals) (io : Host) (tNow dt : Q)
           (ms : MotionState) : MotionState :=
  snd (computeMotionOffset G io tNow dt ms).

Definition offset_after (G : Globals) (io : Host) (tNow dt gap : Q)
           (next : string) (ms : MotionState) : Q * Q :=
  fst (computeMotionOffset G io (tNow + gap) (gap / 1000)
         (setMotionMode tNow next (state_before G io tNow dt ms))).

(** The same second frame when no switch is requested. *)
Definition offset_undisturbed (G : Globals) (io : Host) (tNow dt gap : Q)
           (ms : MotionState) : Q * Q :=
  fst (computeMotionOffset G io (tNow + gap) (gap / 1000)
         (state_before G io tNow dt ms)).

(** "No discontinuity across the switch": with no time elapsed between the
    two frames the offset has not moved. *)
Definition no_jump (G : Globals) (io : Host) (tNow dt : Q) (next : string)
           (ms : MotionState) : Prop :=
  Qeq2 (offset_after G io tNow dt 0 next ms) (offset_before G io tNow dt ms).

(** The blender as declared, and halfway through a blend from "off" to
    "square" requested at time 0. *)
Definition motion_initial : MotionState := mkMotion 0 "off" "off" 0 false.
Definition motion_to_square : MotionState :=
  setMotionMode 0 "square" motion_initial.

(** Two detectors that agree on [ema] and [dev]. *)
Definition same_level (b1 b2 : BeatDetector.t) : Prop :=
  BeatDetector.ema b1 = BeatDetector.ema b2
  /\ BeatDetector.dev b1 = BeatDetector.dev b2
  /\ 0 <= BeatDetector.dev b1.

(** The presets with randomized endpoints or centers. *)
Definition random_preset (idx : Z) : Prop :=
  idx = 3%Z \/ idx = 4%Z \/ idx = 9%Z \/ idx = 10%Z.

(** The constant [k] of each one's refresh interval. *)
Definition random_k (idx : Z) : Q :=
  match idx with
  | 3%Z | 4%Z => 10
  | _ => 9.5
  end.

(** A thousand frames of preset 3 at speed 0, 16 ms apart. *)
Definition still_frames : list Frame :=
  map (fun t => sample_frame 0 true t 0.5) (ticks 1000).

(* ------------------------------------------------------------------ *)
(** ** Colour model *)

(** [function brightness(c)] *)
Definition brightness (col : Color) : Q :=
  0.2126 * r col + 0.7152 * g col + 0.0722 * b col.

(** [function distSq(a,b)] *)
Definition distSq (p q : Color) : Q :=
  let dx := r p - r q in
  let dy := g p - g q in
  let dz := b p - b q in
  dx * dx + dy * dy + dz * dz.

(** [COLORS] and [PALETTE = Object.values(COLORS)], in declaration order. *)
Definition COLORS_red : Color := rgb 255 0 0.
Definition COLORS_yellow : Color := rgb 255 255 0.
Definition COLORS_green : Color := rgb 0 255 0.
Definition COLORS_cyan : Color := rgb 0 255 255.
Definition COLORS_blue : Color := rgb 0 0 255.
Definition COLORS_magenta : Color := rgb 255 0 255.
Definition COLORS_white : Color := rgb 255 255 255.

Definition PALETTE : list Color :=
  [ COLORS_red; COLORS_yellow; COLORS_green; COLORS_cyan; COLORS_blue;
    COLORS_magenta; COLORS_white ].

(** [Math.floor(Math.random() * n)] on the k-th random value.  The host
    contract puts [Math.random()] in [0,1), which keeps the index below
    [n]. *)
Definition random_index (io : Host) (k n : nat) : nat :=
  Z.to_nat (Qfloor (Math_random io k * inject_Z (Z.of_nat n))).

(** [randomBrightColor()]: a fresh copy of a palette entry. *)
Definition randomBrightColor (io : Host) (k : nat) : Color :=
  let col := nth (random_index io k (List.length PALETTE)) PALETTE
                 COLORS_red in
  rgb (r col) (g col) (b col).

(** One pass of the loop of [contrastingColor]: keep the farther colour. *)
Definition farther (col : Color) (acc : Color * Q) (p : Color) : Color * Q :=
  let dist := distSq p col in
  if Qgtb dist (snd acc) then (p, dist) else acc.

(** [contrastingColor(c)]: the palette colour farthest from [c]. *)
Definition contrastingColor (col : Color) : Color :=
  let best := fst (fold_left (farther col) PALETTE (COLORS_red, -1)) in
  rgb (r best) (g best) (b best).

(** [altColor(i)] at an integer index. *)
Definition altColor (G : Globals) (i : Z) : Color :=
  if negb (multiColor G) then presetColor G
  else if (Z.rem i 2 =? 0)%Z then presetColor G else multiColorClr G.

Definition set_presetColor (x : Color) (G : Globals) : Globals :=
  mkGlobals (visualW G) (H G) (DPR G) (presetSpeed G) (presetSize G)
            (presetBrightness G) (multiColor G) x (multiColorClr G)
            (onoff G) (transitionSpeed G).
Definition set_multiColorClr (x : Color) (G : Globals) : Globals :=
  mkGlobals (visualW G) (H G) (DPR G) (presetSpeed G) (presetSize G)
            (presetBrightness G) (multiColor G) (presetColor G) x
            (onoff G) (transitionSpeed G).

(** [if (multiColor && distSq(multiColorClr, presetColor) < 80*80)
       multiColorClr = contrastingColor(presetColor);]
    as the colour grid, the BPM branch of [loop] and [onBeat] run it after
    a colour change. *)
Definition keep_distinct (G : Globals) : Globals :=
  if multiColor G
     && Qltb (distSq (multiColorClr G) (presetColor G)) (80 * 80)
  then set_multiColorClr (contrastingColor (presetColor G)) G
  else G.

(** The click handler of a colour button: the chosen colour goes to the
    picked target, then the two colours are kept apart. *)
Definition pick_color (colorTarget : string) (chosen : Color) (G : Globals)
  : Globals :=
  let G := if String.eqb colorTarget "A" then set_presetColor chosen G
           else set_multiColorClr chosen G in
  keep_distinct G.

(* ------------------------------------------------------------------ *)
(** ** Pieces of the frame loop *)

(** [micGainFromUI(v)] *)
Definition micGainFromUI (x : Q) : Q := lerp 0.5 5.0 (clamp (x / 200) 0 1).

(** [const dt = Math.min(0.05, (tNow - lastFrame)/1000)] *)
Definition frame_dt (tNow lastFrame : Q) : Q :=
  Qmin 0.05 ((tNow - lastFrame) / 1000).

(** [if (!blackout) presetBrightness += 0.2 * (presetBrightnessDest - presetBrightness)] *)
Definition smooth_brightness (blackout : bool) (dest cur : Q) : Q :=
  if negb blackout then cur + 0.2 * (dest - cur) else cur.

(** [presetSize += 0.14 * (presetSizeDest - presetSize)] *)
Definition smooth_size (dest cur : Q) : Q := cur + 0.14 * (dest - cur).

(** The strobe gate of [loop] on [(onoff, strobeTime)]. *)
Definition strobe_step (presetStrobing tNow : Q) (st : bool * Q) : bool * Q :=
  if Qgtb presetStrobing 0 then
    let interval := 200 - 1.8 * presetStrobing in
    if Qgeb (tNow - snd st) interval then (negb (fst st), tNow) else st
  else (true, snd st).

(** The energy handed to the beat detector:
    [clamp(clamp(0.75*bass + 0.25*amp, 0, 1) * micGain, 0, 1)]. *)
Definition beat_energy (feats : Feats) (micGain : Q) : Q :=
  let rawEnergy := clamp (0.75 * bass feats + 0.25 * amp feats) 0 1 in
  clamp (rawEnergy * micGain) 0 1.

(* ------------------------------------------------------------------ *)
(** ** Spotlight pool *)

(** [new Kreis()], drawing its four random values from position [k] on. *)
Definition Kreis_new (G : Globals) (io : Host) (k : nat) : Kreis :=
  mkKreis (200 + Math_random io k * Qmax 1 (visualW G / DPR G - 400))
          (200 + Math_random io (k + 1) * Qmax 1 (H G / DPR G - 400))
          (10 + Math_random io (k + 2) * 20)
          (10 + Math_random io (k + 3) * 20).

(** [Array.from({length: 21}, () => new Kreis())] *)
Definition spotlight_pool (G : Globals) (io : Host) : list Kreis :=
  map (fun i => Kreis_new G io (4 * i)) (seq 0 21).

(* ------------------------------------------------------------------ *)
(** ** Resize *)

(** What [resize] reads from the window and the panel. *)
Record Window := mkWindow {
  devicePixelRatio : Q;
  innerWidth : Q;
  innerHeight : Q;
  hiddenPanel : bool;
  panelRectWidth : Q
}.

(** [x || 1] on a number: 0 is the falsy one. *)
Definition or_else (x dflt : Q) : Q := if Qeq_bool x 0 then dflt else x.

(** [measurePanelWidth()] *)
Definition measurePanelWidth (win : Window) : Q :=
  if hiddenPanel win then 0 else or_else (panelRectWidth win) 0.

(** [resize()]: the canvas width [W], and the globals, blender and state
    it leaves (the canvas is cleared with one [fillRect]). *)
Definition resize (win : Window) (G : Globals) (ms : MotionState) (s : State)
  : Q * Globals * MotionState * State :=
  let dpr := Qmax 1 (Qmin 2 (or_else (devicePixelRatio win) 1)) in
  let W := Math_floor (innerWidth win * dpr) in
  let Hpx := Math_floor (innerHeight win * dpr) in
  let panelW := measurePanelWidth win in
  let gap := Math_floor
               ((if Qeq_bool panelW 0 then 0 else panelW + 24) * dpr) in
  let vW := Qmax (320 * dpr) (W - gap) in
  (W,
   mkGlobals vW Hpx dpr (presetSpeed G) (presetSize G) (presetBrightness G)
             (multiColor G) (presetColor G) (multiColorClr G) (onoff G)
             (transitionSpeed G),
   mkMotion (motionPhase ms) (motionFromMode ms) (motionToMode ms)
            (motionBlendStart ms) false,
   paint FillRect s).

(* ------------------------------------------------------------------ *)
(** ** Beat-driven changes *)

(** The counters [onBeat] works on. *)
Record BeatDJ := mkBeatDJ {
  beatCount : Z;
  lastBeatFlash : Q;
  beatAutoColor : bool;
  beatAutoPreset : bool;
  beatEveryN : Z
}.

(** [autoDJPresetPool]: every preset id but 15 and 23. *)
Definition autoDJPresetPool : list Z :=
  filter (fun i => negb ((i =? 15) || (i =? 23))%Z)
         (map Z.of_nat (seq 0 (Z.to_nat presetCount))).

(** [pickRandomPresetFromPool()] on the k-th random value. *)
Definition pickRandomPresetFromPool (io : Host) (k : nat) : Z :=
  nth (random_index io k (List.length autoDJPresetPool)) autoDJPresetPool 0%Z.

(** [do { p = pick(); tries++; } while (p === presetNumber && tries < 8)]:
    the pick kept and the number of random values used; [more] is the
    number of further tries still allowed. *)
Fixpoint pick_other (io : Host) (current : Z) (k more : nat) : Z * nat :=
  let p := pickRandomPresetFromPool io k in
  match more with
  | O => (p, S k)
  | S more' =>
      if (p =? current)%Z then pick_other io current (S k) more'
      else (p, S k)
  end.

(** [onBeat(tNow)] *)
Definition onBeat (io : Host) (tNow : Q) (G : Globals) (dj : BeatDJ)
           (s : State) : Globals * BeatDJ * State :=
  let count := (beatCount dj + 1)%Z in
  let dj := mkBeatDJ count tNow (beatAutoColor dj) (beatAutoPreset dj)
                     (beatEveryN dj) in
  let '(G, used) :=
    if beatAutoColor dj
    then (keep_distinct (set_presetColor (randomBrightColor io 0) G), 1%nat)
    else (G, 0%nat) in
  if beatAutoPreset dj && (Z.rem count (Z.max 1 (beatEveryN dj)) =? 0)%Z
  then
    let '(p, used) := pick_other io (presetNumber s) used 7 in
    (G, dj, selectPreset G (skip_random used io) p s)
  else (G, dj, s).

(* ------------------------------------------------------------------ *)
(** ** The other accumulator presets *)

(** The extent the sine-bar and line presets wrap [m] at (width for 18 and
    22, height for 19) and what one frame adds to [m]. *)
Definition bar_extent (idx : Z) (G : Globals) : Q :=
  match idx with
  | 19%Z => H G / DPR G
  | _ => visualW G / DPR G
  end.

Definition bar_step (idx : Z) (G : Globals) : Q :=
  match idx with
  | 22%Z => 1
  | _ => presetSpeed G / 4
  end.

Definition bar_preset (idx : Z) : Prop :=
  idx = 18%Z \/ idx = 19%Z \/ idx = 22%Z.

(* ------------------------------------------------------------------ *)
(** ** Path tables read as JavaScript reads them *)

(** [P[seg]]: an index outside the table yields [undefined] ([None]). *)
Definition vertex_read (P : list (Q * Q)) (seg : Z) : option (Q * Q) :=
  if (seg <? 0)%Z then None else nth_error P (Z.to_nat seg).

(** [p0 = P[seg]; p1 = P[seg+1]; {x: lerp(p0.x, p1.x, u), y: ...}]:
    reading [.x] of [undefined] throws, so the result exists only when
    both reads are inside the table. *)
Definition polygon_read (P : list (Q * Q)) (seg : Z) (u : Q)
  : option (Q * Q) :=
  match vertex_read P seg, vertex_read P (seg + 1) with
  | Some p0, Some p1 =>
      Some (lerp (fst p0) (fst p1) u, lerp (snd p0) (snd p1) u)
  | _, _ => None
  end.

(** [motionPos(mode, phase, r)] with the table reads checked: [None]
    stands for the [TypeError] of a read outside a table. *)
Definition motionPos_checked (io : Host) (mode : string) (phase rad : Q)
  : option (Q * Q) :=
  let t := js_rem (js_rem phase 1 + 1) 1 in
  if String.eqb mode "off" then Some (0, 0)
  else if String.eqb mode "circle" then
    let ang := t * Math_PI * 2 in
    Some (rad * cosJ io ang, rad * sinJ io ang)
  else if String.eqb mode "square" then
    let s := t * 4 in
    let seg := Qfloor s in
    let u := s - inject_Z seg in
    polygon_read [ (rad, - rad); (rad, rad); (- rad, rad); (- rad, - rad);
                   (rad, - rad) ] seg u
  else
    let s := t * 3 in
    let seg := Qfloor s in
    let u := s - inject_Z seg in
    polygon_read [ (0, - rad); (rad, rad); (- rad, rad); (0, - rad) ] seg u.

(* ------------------------------------------------------------------ *)
(** ** Reading a beat stream *)

Definition sample_energy (x : BeatDetector.sample) : Q := fst (fst (fst x)).
Definition sample_time (x : BeatDetector.sample) : Q := snd (fst (fst x)).
Definition sample_cooldown (x : BeatDetector.sample) : Q := snd x.

(** The timestamps of the samples that were answered with a beat. *)
Fixpoint hit_times (xs : list BeatDetector.sample) (hits : list bool)
  : list Q :=
  match xs, hits with
  | x :: xs', hit :: hits' =>
      if hit then sample_time x :: hit_times xs' hits'
      else hit_times xs' hits'
  | _, _ => []
  end.

(** Each time is at least [gap] after the one before it, the first after
    [previous]. *)
Fixpoint spaced (gap previous : Q) (ts : list Q) : Prop :=
  match ts with
  | [] => True
  | t :: rest => gap <= t - previous /\ spaced gap t rest
  end.

(** No sample is above the one before it, the first not above [previous]. *)
Fixpoint falling (previous : Q) (xs : list BeatDetector.sample) : Prop :=
  match xs with
  | [] => True
  | x :: rest => sample_energy x <= previous /\ falling (sample_energy x) rest
  end.

(* ------------------------------------------------------------------ *)
(** ** Footprints: which fields a transformer leaves alone *)

Section Keeps.
Context {A : Type} (proj : State -> A).

Lemma for_loop_keeps (body : nat -> State -> State) :
  (forall i s, proj (body i s) = proj s) ->
  forall count from s, proj (for_loop from count body s) = proj s.
Proof.
  intros Hbody count.
  induction count as [|k IH]; intros from s; simpl.
  - reflexivity.
  - rewrite IH. apply Hbody.
Qed.

Lemma for_n_keeps (body : nat -> State -> State) (count : nat) (s : State) :
  (forall i s, proj (body i s) = proj s) ->
  proj (for_n count body s) = proj s.
Proof. intros Hbody. unfold for_n. now apply for_loop_keeps. Qed.

Lemma iter_keeps (f : State -> State) (count : nat) (s : State) :
  (forall s, proj (f s) = proj s) ->
  proj (Nat.iter count f s) = proj s.
Proof.
  intros Hf. induction count as [|k IH]; simpl.
  - reflexivity.
  - rewrite Hf. exact IH.
Qed.
End Keeps.

(* ------------------------------------------------------------------ *)
(** ** The numeric helpers against the source's idioms *)

(** [loop_count bound] is the number of passes of
    [for (let f=0; f<bound; f++)]: index [f] runs iff [f < bound]. *)
Lemma loop_count_spec (bound : Q) (f : nat) :
  (f < loop_count bound)%nat <-> inject_Z (Z.of_nat f) < bound.
Proof.
  unfold loop_count.
  pose proof (Qle_ceiling bound) as Hup.
  pose proof (Qceiling_lt bound) as Hlow.
  split.
  - intros Hlt.
    assert (Hz : (Z.of_nat f <= Qceiling bound - 1)%Z) by lia.
    apply Qle_lt_trans with (inject_Z (Qceiling bound - 1)); [|exact Hlow].
    now rewrite <- Zle_Qle.
  - intros Hlt.
    assert (Hz : (Z.of_nat f < Qceiling bound)%Z).
    { rewrite Zlt_Qlt. apply Qlt_le_trans with bound; assumption. }
    lia.
Qed.

(** [clampZ] is [clamp] at integers. *)
Lemma clampZ_is_clamp (x lo hi : Z) :
  inject_Z (clampZ x lo hi) == clamp (inject_Z x) (inject_Z lo) (inject_Z hi).
Proof.
  unfold clampZ, clamp.
  assert (Hmin : inject_Z (Z.min hi x) == Qmin (inject_Z hi) (inject_Z x)).
  { destruct (Z.min_spec hi x) as [[Hlt ->] | [Hle ->]].
    - symmetry. apply Q.min_l. rewrite <- Zle_Qle. lia.
    - symmetry. apply Q.min_r. now rewrite <- Zle_Qle. }
  destruct (Z.max_spec lo (Z.min hi x)) as [[Hlt ->] | [Hle ->]].
  - rewrite Hmin. symmetry. apply Q.max_r. rewrite <- Hmin, <- Zle_Qle. lia.
  - symmetry. apply Q.max_l. rewrite <- Hmin. now rewrite <- Zle_Qle.
Qed.

Example toInt32_wraps :
  toInt32 960 = 960%Z /\ toInt32 (2 ^ 31) = (- 2 ^ 31)%Z
  /\ toInt32 (-1) = (-1)%Z.
Proof. repeat split. Qed.

Example array_set_in_and_out :
  array_set [1; 2; 3]%Z 1 9%Z = [1; 9; 3]%Z
  /\ array_set [1; 2; 3]%Z 3 9%Z = [1; 2; 3]%Z.
Proof. split; reflexivity. Qed.

(** Discharge [proj (f s) = proj s] for a transformer built from setters of
    other fields, conditionals and loops. *)
Ltac keeps proj :=
  repeat first
    [ reflexivity
    | rewrite (for_n_keeps proj) by (intros; keeps proj)
    | rewrite (iter_keeps proj) by (intros; keeps proj)
    | match goal with
      | |- context [match ?x with _ => _ end] => destruct x
      end
    | progress (unfold wrap_m, add_m, add_v, fillCirclesBatch,
                fillTinyDotsBatch, discoball_batch, drawQuadLED,
                reseed_circles, step_spotlight, initDiscoball,
                fillCircleWorld, strokeLineWorld, arcWorld,
                strokeRectCenteredWorld, paint)
    | progress cbn [presetNumber a b_ c d v m timeRand ranX ranY _sqSpin
                    _triSpin spotlight canvas set_presetNumber set_a set_b_
                    set_c set_d set_v set_m set_timeRand set_ranX set_ranY
                    set_sqSpin set_triSpin set_spotlight set_canvas] ].

Example drawPreset_ring_rot_runs :
  let s' := drawPreset (sample_globals 30 true) (sample_host 0 0.5) 1
                       no_feats (0, 0) (sample_state 1) in
  v s' == 0.215 /\ canvas s' = repeat Fill 18 /\ m s' = 0.
Proof. vm_compute. intuition congruence. Qed.

(* ------------------------------------------------------------------ *)
(** ** The master enable flag *)

Lemma drawPreset_off :
  forall G io idx feats motion s,
    onoff G = false -> drawPreset G io idx feats motion s = s.
Proof.
  intros G io idx feats motion s Hoff.
  unfold drawPreset. now rewrite Hoff.
Qed.

(** C2. With [onoff] false, [drawPreset] returns the state it was given for
    every preset id, host and motion offset: the paint log is the same (no
    drawing call was issued) and so are [v], [m], [a], [b_], [c], [d],
    [timeRand], [ranX], [ranY], [_sqSpin], [_triSpin] and every spotlight,
    all of them fields of the state; the tail of [loop] does the same. *)
Theorem drawPreset_off_is_noop :
  forall G io idx feats motion s,
    onoff G = false ->
    drawPreset G io idx feats motion s = s
    /\ loop_render G io feats motion s = s.
Proof.
  intros G io idx feats motion s Hoff. split.
  - now apply drawPreset_off.
  - unfold loop_render. now rewrite Hoff.
Qed.

Lemma drawPreset_off_is_noop_witness :
  onoff (sample_globals 30 false) = false
  /\ drawPreset (sample_globals 30 false) (sample_host 0 0.5) 1 no_feats
                (0, 0) (sample_state 1) = sample_state 1.
Proof.
  split; [reflexivity|].
  apply (drawPreset_off_is_noop (sample_globals 30 false) (sample_host 0 0.5)
           1%Z no_feats (0, 0) (sample_state 1)).
  reflexivity.
Defined.

(** A paused run resumes where it stopped: any number of disabled frames
    leaves the state as it was. *)
Lemma run_preset_off :
  forall idx frames s,
    Forall (fun f => onoff (fG f) = false) frames ->
    run_preset idx frames s = s.
Proof.
  intros idx frames s Hall. revert s.
  induction Hall as [|f frames Hf _ IH]; intros s; simpl.
  - reflexivity.
  - change (run_preset idx frames (draw_frame idx s f) = s).
    unfold draw_frame.
    rewrite (drawPreset_off _ (fio f) idx (ffeats f) (fmotion f) s Hf).
    apply IH.
Qed.

(* ------------------------------------------------------------------ *)
(** ** The spin angles of presets 33 and 34 *)

Lemma drawPreset_keeps_sqSpin :
  forall G io idx feats motion s,
    idx <> 33%Z ->
    _sqSpin (drawPreset G io idx feats motion s) = _sqSpin s.
Proof.
  intros G io idx feats motion s Hidx.
  unfold drawPreset.
  destruct (onoff G); [|reflexivity]. cbn [negb].
  keeps _sqSpin; congruence.
Qed.

Lemma drawPreset_keeps_triSpin :
  forall G io idx feats motion s,
    idx <> 34%Z ->
    _triSpin (drawPreset G io idx feats motion s) = _triSpin s.
Proof.
  intros G io idx feats motion s Hidx.
  unfold drawPreset.
  destruct (onoff G); [|reflexivity]. cbn [negb].
  keeps _triSpin; congruence.
Qed.

Lemma selectPreset_keeps_spin :
  forall G io q s,
    _sqSpin (selectPreset G io q s) = _sqSpin s
    /\ _triSpin (selectPreset G io q s) = _triSpin s.
Proof.
  intros G io q s. unfold selectPreset.
  split; [keeps _sqSpin | keeps _triSpin].
Qed.

(** C8, as the code has it.  The two spin angles are advanced only by the
    frames of their own preset: a frame of preset 33 adds
    [(presetSpeed/60000)*20] to [_sqSpin], a frame of preset 34 adds it to
    [_triSpin]; a frame of any other preset and every [selectPreset] leave
    both where they were, so the angles are kept, never reset, and resume
    when their preset is drawn again. *)
Theorem spin_angles_advance_only_in_own_preset :
  forall G io idx feats motion s,
    (idx <> 33%Z -> _sqSpin (drawPreset G io idx feats motion s) = _sqSpin s)
    /\ (idx <> 34%Z ->
        _triSpin (drawPreset G io idx feats motion s) = _triSpin s)
    /\ (onoff G = true ->
        _sqSpin (drawPreset G io 33 feats motion s)
          == _sqSpin s + spin_increment G
        /\ _triSpin (drawPreset G io 34 feats motion s)
          == _triSpin s + spin_increment G)
    /\ _sqSpin (selectPreset G io idx s) = _sqSpin s
    /\ _triSpin (selectPreset G io idx s) = _triSpin s.
Proof.
  intros G io idx feats motion s.
  split; [apply drawPreset_keeps_sqSpin|].
  split; [apply drawPreset_keeps_triSpin|].
  split; [|apply selectPreset_keeps_spin].
  intros Hon. unfold drawPreset, spin_increment. rewrite Hon. cbn [negb].
  split; destruct (multiColor G); cbn; reflexivity.
Qed.

Lemma spin_angles_advance_only_in_own_preset_witness :
  _sqSpin (drawPreset (sample_globals 30 true) (sample_host 0 0.5) 1 no_feats
                      (0, 0) (sample_state 1)) = _sqSpin (sample_state 1)
  /\ _sqSpin (drawPreset (sample_globals 30 true) (sample_host 0 0.5) 33
                         no_feats (0, 0) (sample_state 1))
     == _sqSpin (sample_state 1) + spin_increment (sample_globals 30 true).
Proof.
  pose proof (spin_angles_advance_only_in_own_preset
                (sample_globals 30 true) (sample_host 0 0.5) 1%Z no_feats
                (0, 0) (sample_state 1)) as [Hsq [_ [Hown _]]].
  split.
  - apply Hsq. discriminate.
  - apply Hown. reflexivity.
Defined.

(** C8 as worded fails: a frame of preset 1 at speed 30 leaves [_sqSpin]
    and [_triSpin] at 0, although the increment of that frame is 1/100. *)
Lemma spin_angles_do_not_free_run :
  _sqSpin (drawPreset (sample_globals 30 true) (sample_host 0 0.5) 1 no_feats
                      (0, 0) (sample_state 1)) = 0
  /\ _triSpin (drawPreset (sample_globals 30 true) (sample_host 0 0.5) 1
                          no_feats (0, 0) (sample_state 1)) = 0
  /\ _sqSpin (sample_state 1) + spin_increment (sample_globals 30 true)
     == 0.01
  /\ ~ free_running_spin (sample_globals 30 true) (sample_host 0 0.5) 1
         no_feats (0, 0) (sample_state 1).
Proof.
  split; [reflexivity|]. split; [reflexivity|]. split; [reflexivity|].
  unfold free_running_spin. intros [Hsq _]. vm_compute in Hsq. discriminate.
Qed.

(* ------------------------------------------------------------------ *)
(** ** selectPreset *)

Lemma presetCount_is_35 : presetCount = 35%Z.
Proof. reflexivity. Qed.

Lemma selectPreset_presetNumber :
  forall G io idx s,
    presetNumber (selectPreset G io idx s) = clampZ idx 0 (presetCount - 1).
Proof.
  intros G io idx s. unfold selectPreset.
  destruct (Z.eqb_spec (clampZ idx 0 (presetCount - 1)) (presetNumber s))
    as [Heq|Hne].
  - now rewrite Heq.
  - keeps presetNumber.
Qed.

(** C10. [selectPreset] clamps an integer argument into
    [0 .. presetCount()-1] and activates the clamped id: an id below 0
    activates preset 0, an id above the last activates the last preset, an
    id in range activates itself; afterwards [presetNumber] is in range
    whatever it was before; and a request for the active preset returns the
    state untouched.  The function is total, so no request raises. *)
Theorem selectPreset_clamps :
  forall G io idx s,
    presetNumber (selectPreset G io idx s) = clampZ idx 0 (presetCount - 1)
    /\ (0 <= presetNumber (selectPreset G io idx s) <= presetCount - 1)%Z
    /\ ((idx < 0)%Z -> presetNumber (selectPreset G io idx s) = 0%Z)
    /\ ((presetCount - 1 < idx)%Z ->
        presetNumber (selectPreset G io idx s) = (presetCount - 1)%Z)
    /\ ((0 <= idx <= presetCount - 1)%Z ->
        presetNumber (selectPreset G io idx s) = idx)
    /\ (clampZ idx 0 (presetCount - 1) = presetNumber s ->
        selectPreset G io idx s = s).
Proof.
  intros G io idx s.
  rewrite selectPreset_presetNumber, presetCount_is_35.
  unfold clampZ.
  repeat split; try lia.
  intros Hsame. unfold selectPreset, clampZ.
  rewrite presetCount_is_35, Hsame, Z.eqb_refl. reflexivity.
Qed.

Lemma selectPreset_clamps_witness :
  presetNumber (selectPreset (sample_globals 30 true) (sample_host 0 0.5) 999
                             (sample_state 8)) = 34%Z
  /\ presetNumber (selectPreset (sample_globals 30 true) (sample_host 0 0.5)
                                (-5) (sample_state 8)) = 0%Z
  /\ selectPreset (sample_globals 30 true) (sample_host 0 0.5) 8
                  (sample_state 8) = sample_state 8.
Proof.
  pose proof (selectPreset_clamps (sample_globals 30 true)
                (sample_host 0 0.5) 999%Z (sample_state 8))
    as [_ [_ [_ [Hhigh _]]]].
  pose proof (selectPreset_clamps (sample_globals 30 true)
                (sample_host 0 0.5) (-5)%Z (sample_state 8))
    as [_ [_ [Hlow _]]].
  pose proof (selectPreset_clamps (sample_globals 30 true)
                (sample_host 0 0.5) 8%Z (sample_state 8))
    as [_ [_ [_ [_ [_ Hsame]]]]].
  split; [apply Hhigh; reflexivity|].
  split; [apply Hlow; reflexivity|].
  apply Hsame. reflexivity.
Defined.

(* ------------------------------------------------------------------ *)
(** ** Beat detector *)

Lemma Qgtb_lt (x y : Q) : Qgtb x y = true <-> y < x.
Proof.
  unfold Qgtb. rewrite negb_true_iff. split.
  - intros Hb. apply Qnot_le_lt. intros Hle.
    apply Qle_bool_iff in Hle. congruence.
  - intros Hlt. destruct (Qle_bool x y) eqn:Hb; [|reflexivity].
    apply Qle_bool_iff in Hb. apply Qlt_not_le in Hlt. contradiction.
Qed.

Lemma Qgeb_le (x y : Q) : Qgeb x y = true <-> y <= x.
Proof. unfold Qgeb. apply Qle_bool_iff. Qed.

(** C3. [update] returns true exactly when (a) the cooldown has elapsed
    since the last accepted beat, (b) the energy is strictly above the
    previous sample, (c) it is strictly above the adaptive threshold
    [ema + k*(dev*1.10 + base)] taken at the freshly updated [ema] and
    [dev], and (d) it is strictly above the gate.  A true return stamps
    [lastBeat] with [tMs], a false one leaves it; every call moves [ema]
    and [dev] with smoothing factor 0.06, records the sample as [prev] and
    the threshold as [lastThr]. *)
Theorem update_fires_iff :
  forall energy tMs sens01 minIntervalMs bd,
    let hit := fst (BeatDetector.update energy tMs sens01 minIntervalMs bd) in
    let bd' := snd (BeatDetector.update energy tMs sens01 minIntervalMs bd) in
    (hit = true <->
       minIntervalMs <= tMs - BeatDetector.lastBeat bd
       /\ BeatDetector.prev bd < energy
       /\ beat_threshold sens01 (BeatDetector.ema bd') (BeatDetector.dev bd')
          < energy
       /\ beat_gate sens01 < energy)
    /\ BeatDetector.lastBeat bd'
       = (if hit then tMs else BeatDetector.lastBeat bd)
    /\ BeatDetector.ema bd'
       == (1 - 0.06) * BeatDetector.ema bd + 0.06 * energy
    /\ BeatDetector.dev bd'
       == (1 - 0.06) * BeatDetector.dev bd
          + 0.06 * Qabs (energy - BeatDetector.ema bd')
    /\ BeatDetector.prev bd' = energy
    /\ BeatDetector.lastThr bd'
       = beat_threshold sens01 (BeatDetector.ema bd') (BeatDetector.dev bd').
Proof.
  intros energy tMs sens01 minIntervalMs bd hit bd'.
  subst hit bd'. unfold BeatDetector.update.
  cbn [fst snd BeatDetector.ema BeatDetector.dev BeatDetector.prev
       BeatDetector.lastBeat BeatDetector.lastThr].
  split.
  { rewrite !andb_true_iff, Qgeb_le, !Qgtb_lt.
    unfold beat_threshold, beat_k, beat_base, beat_gate. tauto. }
  split; [reflexivity|].
  split; [ring|].
  split; [ring|].
  split; reflexivity.
Qed.

Lemma update_lastThr :
  forall energy tMs sens01 minIntervalMs bd,
    BeatDetector.lastThr
      (snd (BeatDetector.update energy tMs sens01 minIntervalMs bd))
    = beat_threshold sens01
        (BeatDetector.ema
           (snd (BeatDetector.update energy tMs sens01 minIntervalMs bd)))
        (BeatDetector.dev
           (snd (BeatDetector.update energy tMs sens01 minIntervalMs bd))).
Proof. reflexivity. Qed.

Lemma update_dev_nonneg :
  forall energy tMs sens01 minIntervalMs bd,
    0 <= BeatDetector.dev bd ->
    0 <= BeatDetector.dev
           (snd (BeatDetector.update energy tMs sens01 minIntervalMs bd)).
Proof.
  intros energy tMs sens01 minIntervalMs bd Hdev.
  unfold BeatDetector.update. cbn [snd BeatDetector.dev].
  set (x := Qabs (energy - _)).
  assert (Hx : 0 <= x) by apply Qabs_nonneg.
  lra.
Qed.

Lemma update_same_level :
  forall energy tMs s1 s2 mi1 mi2 b1 b2,
    same_level b1 b2 ->
    same_level (snd (BeatDetector.update energy tMs s1 mi1 b1))
               (snd (BeatDetector.update energy tMs s2 mi2 b2)).
Proof.
  intros energy tMs s1 s2 mi1 mi2 b1 b2 (Hema & Hdev & Hpos).
  split; [|split].
  - unfold BeatDetector.update. cbn [snd BeatDetector.ema]. now rewrite Hema.
  - unfold BeatDetector.update. cbn [snd BeatDetector.dev].
    now rewrite Hema, Hdev.
  - now apply update_dev_nonneg.
Qed.

Lemma threshold_lower_at_full_sensitivity :
  forall ema dev, 0 <= dev ->
    beat_threshold 1.0 ema dev < beat_threshold 0.0 ema dev.
Proof.
  intros ema dev Hdev. unfold beat_threshold.
  assert (Hk1 : beat_k 1.0 == 0.6) by reflexivity.
  assert (Hb1 : beat_base 1.0 == 0.008) by reflexivity.
  assert (Hk0 : beat_k 0.0 == 2.2) by reflexivity.
  assert (Hb0 : beat_base 0.0 == 0.030) by reflexivity.
  rewrite Hk1, Hb1, Hk0, Hb0. lra.
Qed.

Lemma feed_threshold_order :
  forall hist miHi miLo bHi bLo,
    hist <> [] ->
    same_level bHi bLo ->
    BeatDetector.lastThr
      (snd (BeatDetector.feed (at_sensitivity 1.0 miHi hist) bHi))
    < BeatDetector.lastThr
        (snd (BeatDetector.feed (at_sensitivity 0.0 miLo hist) bLo)).
Proof.
  induction hist as [|[energy tMs] rest IH];
    intros miHi miLo bHi bLo Hne Hlevel; [congruence|].
  pose proof (update_same_level energy tMs 1.0 0.0 miHi miLo bHi bLo Hlevel)
    as Hnext.
  cbn [at_sensitivity map fst snd BeatDetector.feed].
  destruct (BeatDetector.update energy tMs 1.0 miHi bHi) as [hitHi bHi1] eqn:EHi.
  destruct (BeatDetector.update energy tMs 0.0 miLo bLo) as [hitLo bLo1] eqn:ELo.
  cbn [snd] in Hnext.
  destruct rest as [|next rest'].
  - cbn [map BeatDetector.feed snd].
    pose proof (update_lastThr energy tMs 1.0 miHi bHi) as HHi.
    pose proof (update_lastThr energy tMs 0.0 miLo bLo) as HLo.
    rewrite EHi in HHi. rewrite ELo in HLo.
    cbn [snd] in HHi, HLo. rewrite HHi, HLo.
    destruct Hnext as (Hema & Hdev & Hpos).
    rewrite Hema, Hdev. apply threshold_lower_at_full_sensitivity.
    now rewrite <- Hdev.
  - specialize (IH miHi miLo bHi1 bLo1 ltac:(discriminate) Hnext).
    fold (at_sensitivity 1.0 miHi (next :: rest')).
    fold (at_sensitivity 0.0 miLo (next :: rest')).
    destruct (BeatDetector.feed (at_sensitivity 1.0 miHi (next :: rest')) bHi1).
    destruct (BeatDetector.feed (at_sensitivity 0.0 miLo (next :: rest')) bLo1).
    exact IH.
Qed.

Lemma reset_same_level : same_level BeatDetector.reset BeatDetector.reset.
Proof. repeat split. discriminate. Qed.

(** C4. Two fresh detectors are fed the same (energy, timestamp) history,
    one at sensitivity 1.0 and one at 0.0 (each with a cooldown of its
    own).  After any number of updates, one at least, [lastThr] of the
    first is strictly below [lastThr] of the second. *)
Theorem threshold_monotone_in_sensitivity :
  forall hist miHi miLo,
    hist <> [] ->
    BeatDetector.lastThr
      (snd (BeatDetector.feed (at_sensitivity 1.0 miHi hist)
                              BeatDetector.reset))
    < BeatDetector.lastThr
        (snd (BeatDetector.feed (at_sensitivity 0.0 miLo hist)
                                BeatDetector.reset)).
Proof.
  intros hist miHi miLo Hne.
  apply feed_threshold_order; [exact Hne | exact reset_same_level].
Qed.

(** The application's own check: 60 samples of 0.12, 16 ms apart. *)
Lemma threshold_monotone_in_sensitivity_witness :
  BeatDetector.lastThr
    (snd (BeatDetector.feed
            (at_sensitivity 1.0 0 (map (fun tMs => (0.12, tMs)) (ticks 60)))
            BeatDetector.reset))
  < BeatDetector.lastThr
      (snd (BeatDetector.feed
              (at_sensitivity 0.0 0 (map (fun tMs => (0.12, tMs)) (ticks 60)))
              BeatDetector.reset)).
Proof.
  apply (threshold_monotone_in_sensitivity
           (map (fun tMs => (0.12, tMs)) (ticks 60)) 0 0).
  discriminate.
Defined.

Lemma update_silent :
  forall tMs sens01 minIntervalMs bd,
    0 <= BeatDetector.prev bd ->
    fst (BeatDetector.update 0 tMs sens01 minIntervalMs bd) = false
    /\ BeatDetector.prev
         (snd (BeatDetector.update 0 tMs sens01 minIntervalMs bd)) = 0.
Proof.
  intros tMs sens01 minIntervalMs bd Hprev.
  unfold BeatDetector.update. cbn [fst snd BeatDetector.prev].
  split; [|reflexivity].
  assert (Hrise : Qgtb 0 (BeatDetector.prev bd) = false).
  { unfold Qgtb. apply negb_false_iff. now apply Qle_bool_iff. }
  rewrite Hrise, andb_false_r. reflexivity.
Qed.

Lemma feed_silent :
  forall sens01 minIntervalMs ts bd,
    0 <= BeatDetector.prev bd ->
    fst (BeatDetector.feed (silence sens01 minIntervalMs ts) bd)
    = repeat false (List.length ts).
Proof.
  intros sens01 minIntervalMs ts.
  induction ts as [|tMs rest IH]; intros bd Hprev; [reflexivity|].
  cbn [silence map BeatDetector.feed List.length repeat].
  fold (silence sens01 minIntervalMs rest).
  destruct (update_silent tMs sens01 minIntervalMs bd Hprev) as [Hhit Hnext].
  destruct (BeatDetector.update 0 tMs sens01 minIntervalMs bd) as [hit bd1].
  cbn [fst snd] in Hhit, Hnext. subst hit.
  specialize (IH bd1). rewrite Hnext in IH. specialize (IH (Qle_refl 0)).
  destruct (BeatDetector.feed (silence sens01 minIntervalMs rest) bd1)
    as [hits bd2].
  cbn [fst] in IH |- *. now rewrite IH.
Qed.

(** C5. A freshly reset detector fed zero energy for 200 consecutive
    calls, at any timestamps, any sensitivity in [0,1] and any cooldown,
    answers false on each of the 200 calls; [update] is total and treats
    the zero sample like any other. *)
Theorem silence_never_fires :
  forall sens01 minIntervalMs ts,
    0 <= sens01 <= 1 ->
    List.length ts = 200%nat ->
    fst (BeatDetector.feed (silence sens01 minIntervalMs ts)
                           BeatDetector.reset)
    = repeat false 200.
Proof.
  intros sens01 minIntervalMs ts _ Hlen.
  rewrite <- Hlen. apply feed_silent. apply Qle_refl.
Qed.

Lemma silence_never_fires_witness :
  fst (BeatDetector.feed (silence 0.7 160 (ticks 200)) BeatDetector.reset)
  = repeat false 200.
Proof.
  apply (silence_never_fires 0.7 160 (ticks 200)).
  - split; discriminate.
  - reflexivity.
Defined.

(* ------------------------------------------------------------------ *)
(** ** Scroll accumulator *)

Lemma wrap_m_value (limit start : Q) (s : State) :
  m (wrap_m limit start s) = if Qgeb (m s) limit then start else m s.
Proof. unfold wrap_m. now destruct (Qgeb (m s) limit). Qed.

(** One frame of preset 16 or 17 on [m]. *)
Lemma scroll_frame_m :
  forall idx f s,
    idx = 16%Z \/ idx = 17%Z ->
    m (draw_frame idx s f)
    = if onoff (fG f)
      then (if Qgeb (m s + presetSpeed (fG f) / 3)
                    (scroll_extent idx (fG f) - 50)
            then -50 else m s + presetSpeed (fG f) / 3)
      else m s.
Proof.
  intros idx f s [-> | ->]; unfold draw_frame, drawPreset;
    destruct (onoff (fG f)); cbn [negb]; try reflexivity;
    rewrite wrap_m_value; reflexivity.
Qed.

Lemma scroll_frame_in_range :
  forall idx extent f s,
    idx = 16%Z \/ idx = 17%Z ->
    0 < extent ->
    scroll_extent idx (fG f) == extent ->
    0 <= presetSpeed (fG f) <= 100 ->
    (in_scroll_range extent (m s) ->
     in_scroll_range extent (m (draw_frame idx s f)))
    /\ (-50 <= m s -> onoff (fG f) = true ->
        in_scroll_range extent (m (draw_frame idx s f))).
Proof.
  intros idx extent f s Hidx Hext Hsame [Hlo Hhi].
  rewrite (scroll_frame_m idx f s Hidx).
  set (ext := scroll_extent idx (fG f)) in *.
  set (sp := presetSpeed (fG f)) in *.
  unfold in_scroll_range.
  change (sp / 3) with (sp * (1 # 3)).
  destruct (onoff (fG f)).
  - destruct (Qgeb (m s + sp * (1 # 3)) (ext - 50)) eqn:Hwrap.
    + split; [intros [Hm1 Hm2] | intros Hm1 _]; split; lra.
    + assert (Hlt : m s + sp * (1 # 3) < ext - 50).
      { apply Qnot_le_lt. intros Hle. apply Qgeb_le in Hle. congruence. }
      split; [intros [Hm1 Hm2] | intros Hm1 _]; split; lra.
  - split; [tauto | discriminate].
Qed.

(** C7. Frames of preset 16 (extent = width) or 17 (extent = height) are
    drawn on a canvas of positive extent with speeds taken anywhere in
    [0,100], enabled or not.  If [m] starts in [-50, extent-50), as it does
    at its initial and post-switch value 0 on a canvas larger than 50, it is
    in [-50, extent-50) after every frame.  And from any [m >= -50] at all,
    an enabled frame leaves [m] in [-50, extent-50): [m] never ends a frame
    at or above [extent-50].  What a frame does to [m]: an enabled frame
    adds [speed/3] and, when the sum has reached [extent-50], restarts [m]
    at -50 (width for preset 16, height for preset 17); a frame drawn with
    the master flag off leaves [m] as it is. *)
Theorem scroll_accumulator_stays_in_range :
  forall idx extent frames s,
    idx = 16%Z \/ idx = 17%Z ->
    0 < extent ->
    Forall (fun f => scroll_extent idx (fG f) == extent
                     /\ 0 <= presetSpeed (fG f) <= 100) frames ->
    in_scroll_range extent (m s) ->
    (forall n,
        in_scroll_range extent (m (run_preset idx (firstn n frames) s)))
    /\ (forall f s0, In f frames -> -50 <= m s0 -> onoff (fG f) = true ->
          in_scroll_range extent (m (draw_frame idx s0 f)))
    /\ (forall f s0,
          (onoff (fG f) = true ->
           m (draw_frame 16 s0 f)
           = (if Qgeb (m s0 + presetSpeed (fG f) / 3)
                      (visualW (fG f) / DPR (fG f) - 50)
              then -50 else m s0 + presetSpeed (fG f) / 3)
           /\ m (draw_frame 17 s0 f)
              = (if Qgeb (m s0 + presetSpeed (fG f) / 3)
                         (H (fG f) / DPR (fG f) - 50)
                 then -50 else m s0 + presetSpeed (fG f) / 3))
          /\ (onoff (fG f) = false -> m (draw_frame idx s0 f) = m s0)).
Proof.
  intros idx extent frames s Hidx Hext Hall Hstart. split; [|split].
  - revert s Hstart.
    induction Hall as [|f frames [Hsame Hspeed] _ IH]; intros s Hstart n.
    + now destruct n.
    + destruct n as [|n]; [exact Hstart|].
      cbn [firstn]. change (run_preset idx (f :: firstn n frames) s)
        with (run_preset idx (firstn n frames) (draw_frame idx s f)).
      apply IH.
      exact (proj1 (scroll_frame_in_range idx extent f s Hidx Hext Hsame
                      Hspeed) Hstart).
  - intros f s0 Hin Hm Hon.
    rewrite Forall_forall in Hall. destruct (Hall f Hin) as [Hsame Hspeed].
    exact (proj2 (scroll_frame_in_range idx extent f s0 Hidx Hext Hsame
                    Hspeed) Hm Hon).
  - intros f s0. split.
    + intros Hon.
      rewrite (scroll_frame_m 16 f s0), (scroll_frame_m 17 f s0), Hon
        by (auto using eq_refl).
      split; reflexivity.
    + intros Hoff. now rewrite (scroll_frame_m idx f s0 Hidx), Hoff.
Qed.

Lemma scroll_accumulator_stays_in_range_witness :
  in_scroll_range 1920
    (m (run_preset 16
          (firstn 3 [ sample_frame 30 true 0 0.5; sample_frame 100 true 16 0.5;
                      sample_frame 0 false 32 0.5 ])
          (sample_state 16))).
Proof.
  refine (proj1 (scroll_accumulator_stays_in_range 16 1920
                   [ sample_frame 30 true 0 0.5; sample_frame 100 true 16 0.5;
                     sample_frame 0 false 32 0.5 ]
                   (sample_state 16) _ _ _ _) 3%nat).
  - left. reflexivity.
  - reflexivity.
  - repeat constructor; vm_compute; congruence.
  - split; vm_compute; congruence.
Defined.

(** The wrap really happens: from 1869 on a 1920 wide canvas, one frame at
    speed 30 reaches 1879 and the accumulator restarts at -50. *)
Example scroll_wraps :
  m (draw_frame 16 (set_m 1869 (sample_state 16)) (sample_frame 30 true 0 0.5))
  = -50.
Proof. reflexivity. Qed.

(* ------------------------------------------------------------------ *)
(** ** Randomized endpoints *)

Lemma rand_interval_at_zero :
  forall k G, presetSpeed G == 0 -> rand_interval k G = 1e9.
Proof.
  intros k G Hzero. unfold rand_interval.
  apply Qeq_bool_iff in Hzero. now rewrite Hzero.
Qed.

Lemma rand_interval_moving :
  forall k G, ~ presetSpeed G == 0 ->
    rand_interval k G = 1000 - k * presetSpeed G.
Proof.
  intros k G Hmove. unfold rand_interval.
  destruct (Qeq_bool (presetSpeed G) 0) eqn:Hb; [|reflexivity].
  apply Qeq_bool_iff in Hb. contradiction.
Qed.

Lemma refresh_not_due :
  forall k G io s0 s,
    timeRand s = timeRand s0 ->
    presetSpeed G == 0 ->
    nowMs io 0 - timeRand s0 < 1e9 ->
    refresh_due k G io s = false.
Proof.
  intros k G io s0 s Htime Hzero Hearly.
  unfold refresh_due. rewrite (rand_interval_at_zero k G Hzero), Htime.
  destruct (Qgeb (nowMs io 0 - timeRand s0) 1e9) eqn:Hb; [|reflexivity].
  apply Qgeb_le in Hb. apply Qlt_not_le in Hearly. contradiction.
Qed.

Lemma endpoints_eq (s1 s2 : State) :
  a s1 = a s2 -> b_ s1 = b_ s2 -> c s1 = c s2 -> d s1 = d s2 ->
  ranX s1 = ranX s2 -> ranY s1 = ranY s2 ->
  endpoints s1 = endpoints s2.
Proof. unfold endpoints. congruence. Qed.

Ltac keeps_field :=
  match goal with |- ?proj _ = ?proj _ => keeps proj end.

(** One frame of a randomized preset at speed 0, drawn before the clock is
    1e9 ms past [timeRand]. *)
Lemma frozen_frame :
  forall idx f s,
    random_preset idx ->
    presetSpeed (fG f) == 0 ->
    nowMs (fio f) 0 - timeRand s < 1e9 ->
    endpoints (draw_frame idx s f) = endpoints s
    /\ timeRand (draw_frame idx s f) = timeRand s.
Proof.
  intros idx f s Hidx Hzero Hearly.
  unfold draw_frame, drawPreset.
  destruct (onoff (fG f)); cbn [negb]; [|split; reflexivity].
  destruct Hidx as [-> | [-> | [-> | ->]]];
    match goal with
    | |- context [refresh_due ?k ?G ?io ?s1] =>
        rewrite (refresh_not_due k G io s s1)
          by first [ exact Hzero | exact Hearly | keeps timeRand ]
    end;
    (split; [apply endpoints_eq|]); keeps_field.
Qed.

(** The refresh rule of these presets: an enabled frame stamps [timeRand]
    with the clock exactly when [now - timeRand >= interval], and otherwise
    leaves the endpoints and [timeRand] alone. *)
Lemma refresh_rule :
  forall idx f s,
    random_preset idx ->
    onoff (fG f) = true ->
    (refresh_due (random_k idx) (fG f) (fio f) s = true ->
     timeRand (draw_frame idx s f) = nowMs (fio f) 1)
    /\ (refresh_due (random_k idx) (fG f) (fio f) s = false ->
        endpoints (draw_frame idx s f) = endpoints s
        /\ timeRand (draw_frame idx s f) = timeRand s).
Proof.
  intros idx f s Hidx Hon.
  unfold draw_frame, drawPreset. rewrite Hon. cbn [negb].
  destruct Hidx as [-> | [-> | [-> | ->]]]; cbn [random_k];
    (split; intros Hdue;
     match goal with
     | |- context [refresh_due ?k ?G ?io ?s1] =>
         replace (refresh_due k G io s1) with (refresh_due k G io s)
           by (unfold refresh_due; f_equal; f_equal; keeps timeRand)
     end;
     rewrite Hdue;
     [keeps timeRand | split; [apply endpoints_eq|]; keeps_field]).
Qed.

Lemma Forall_prefix {A : Type} (P : A -> Prop) (l : list A) :
  Forall P l -> forall n, Forall P (firstn n l).
Proof.
  induction 1 as [|x l Hx _ IH]; intros [|n]; cbn [firstn]; auto.
Qed.

Lemma frozen_run :
  forall idx frames s,
    random_preset idx ->
    Forall (fun f => presetSpeed (fG f) == 0
                     /\ nowMs (fio f) 0 - timeRand s < 1e9) frames ->
    endpoints (run_preset idx frames s) = endpoints s
    /\ timeRand (run_preset idx frames s) = timeRand s.
Proof.
  intros idx frames s Hidx Hall. revert s Hall.
  induction frames as [|f frames IH]; intros s Hall; [split; reflexivity|].
  inversion Hall as [|f' frames' [Hzero Hearly] Hrest]; subst.
  destruct (frozen_frame idx f s Hidx Hzero Hearly) as [Hends Htime].
  change (run_preset idx (f :: frames) s)
    with (run_preset idx frames (draw_frame idx s f)).
  rewrite <- Hends, <- Htime. apply IH. now rewrite Htime.
Qed.

(** C6, as the code has it.  For presets 3, 4, 9 and 10 an enabled frame
    compares [now - timeRand] with an interval that is 1e9 ms at speed 0
    and [1000 - k*speed] otherwise ([k] = 10 for presets 3 and 4, 9.5 for
    presets 9 and 10): when the interval has been reached the frame takes
    its refresh branch, which stamps [timeRand] with the clock, and before
    that it leaves the endpoints, centers and [timeRand] alone.  At speed 0 they
    therefore stay as they are for as long as the clock reads less than
    1e9 ms past [timeRand]: over any run of such frames (1000 of them,
    say) they are the same after every frame. *)
Theorem endpoints_frozen_until_1e9 :
  forall idx frames s,
    random_preset idx ->
    Forall (fun f => presetSpeed (fG f) == 0
                     /\ nowMs (fio f) 0 - timeRand s < 1e9) frames ->
    (forall f s0,
        onoff (fG f) = true ->
        let elapsed := nowMs (fio f) 0 - timeRand s0 in
        let speed := presetSpeed (fG f) in
        (speed == 0 ->
         (1e9 <= elapsed ->
          timeRand (draw_frame idx s0 f) = nowMs (fio f) 1)
         /\ (elapsed < 1e9 ->
             endpoints (draw_frame idx s0 f) = endpoints s0
             /\ timeRand (draw_frame idx s0 f) = timeRand s0))
        /\ (~ speed == 0 ->
            (1000 - random_k idx * speed <= elapsed ->
             timeRand (draw_frame idx s0 f) = nowMs (fio f) 1)
            /\ (elapsed < 1000 - random_k idx * speed ->
                endpoints (draw_frame idx s0 f) = endpoints s0
                /\ timeRand (draw_frame idx s0 f) = timeRand s0)))
    /\ (forall n,
          endpoints (run_preset idx (firstn n frames) s) = endpoints s
          /\ timeRand (run_preset idx (firstn n frames) s) = timeRand s).
Proof.
  intros idx frames s Hidx Hall. split.
  - intros f s0 Hon elapsed speed.
    destruct (refresh_rule idx f s0 Hidx Hon) as [Hdue Hnot].
    unfold refresh_due in Hdue, Hnot.
    fold elapsed in Hdue, Hnot.
    assert (Hlate : forall limit,
               rand_interval (random_k idx) (fG f) = limit ->
               limit <= elapsed ->
               timeRand (draw_frame idx s0 f) = nowMs (fio f) 1).
    { intros limit Hlim Hle. apply Hdue. rewrite Hlim.
      now apply Qgeb_le. }
    assert (Hearly : forall limit,
               rand_interval (random_k idx) (fG f) = limit ->
               elapsed < limit ->
               endpoints (draw_frame idx s0 f) = endpoints s0
               /\ timeRand (draw_frame idx s0 f) = timeRand s0).
    { intros limit Hlim Hlt. apply Hnot. rewrite Hlim.
      apply not_true_is_false. intros Hb. apply Qgeb_le in Hb.
      apply Qlt_not_le in Hlt. contradiction. }
    split.
    + intros Hzero.
      pose proof (rand_interval_at_zero (random_k idx) (fG f) Hzero) as Hlim.
      split; [apply (Hlate _ Hlim) | apply (Hearly _ Hlim)].
    + intros Hmove.
      pose proof (rand_interval_moving (random_k idx) (fG f) Hmove) as Hlim.
      split; [apply (Hlate _ Hlim) | apply (Hearly _ Hlim)].
  - intros n. apply frozen_run; [exact Hidx|].
    now apply Forall_prefix.
Qed.

Lemma endpoints_frozen_until_1e9_witness :
  endpoints (run_preset 3 (firstn 1000 still_frames) (sample_state 3))
  = endpoints (sample_state 3).
Proof.
  refine (proj1 (proj2 (endpoints_frozen_until_1e9 3 still_frames
                          (sample_state 3) _ _) 1000%nat)).
  - left. reflexivity.
  - apply Forall_forall. intros f Hin.
    unfold still_frames in Hin. apply in_map_iff in Hin.
    destruct Hin as [t [<- Hin]].
    unfold ticks in Hin. apply in_map_iff in Hin.
    destruct Hin as [i [<- Hin]]. apply in_seq in Hin.
    split; [reflexivity|].
    cbn [fio sample_frame nowMs performance_now sample_host timeRand
         sample_state].
    assert (Hi : inject_Z (Z.of_nat i) < 1000).
    { change 1000 with (inject_Z 1000). rewrite <- Zlt_Qlt. lia. }
    change 1e9 with (1000000000 # 1). lra.
Defined.

(** C6 as worded fails: the interval at speed 0 is the finite 1e9, and a
    thousand frames of preset 3 at speed 0 drawn when the clock reads 1e9
    (timeRand being 0) move the endpoints from (0,0)-(0,0) to
    (960,540)-(960,540). *)
Lemma endpoints_move_at_speed_zero :
  rand_interval 10 (sample_globals 0 true) = 1e9
  /\ endpoints (sample_state 3) = (0, 0, 0, 0, repeat 0%Z 1000, repeat 0%Z 1000)
  /\ endpoints (run_preset 3 (repeat (sample_frame 0 true 1e9 0.5) 1000)
                           (sample_state 3))
     = (960, 540, 960, 540, repeat 0%Z 1000, repeat 0%Z 1000)
  /\ ~ frozen_at_speed_zero 3 (repeat (sample_frame 0 true 1e9 0.5) 1000)
         (sample_state 3).
Proof.
  split; [reflexivity|]. split; [reflexivity|].
  assert (Hrun : endpoints (run_preset 3 (repeat (sample_frame 0 true 1e9 0.5)
                                                 1000) (sample_state 3))
                 = (960, 540, 960, 540, repeat 0%Z 1000, repeat 0%Z 1000))
    by (vm_compute; reflexivity).
  split; [exact Hrun|].
  intros Hfrozen.
  assert (Hall : Forall (fun f => presetSpeed (fG f) == 0)
                        (repeat (sample_frame 0 true 1e9 0.5) 1000)).
  { apply Forall_forall. intros f Hin. apply repeat_spec in Hin.
    subst f. reflexivity. }
  specialize (Hfrozen Hall 1000%nat).
  rewrite firstn_all2 in Hfrozen by (rewrite repeat_length; lia).
  rewrite Hrun in Hfrozen. vm_compute in Hfrozen. discriminate.
Qed.

(* ------------------------------------------------------------------ *)
(** ** Preset switches and the shared accumulators *)

Lemma drawPreset_keeps_presetNumber :
  forall G io idx feats motion s,
    presetNumber (drawPreset G io idx feats motion s) = presetNumber s.
Proof.
  intros G io idx feats motion s. unfold drawPreset.
  destruct (onoff G); [|reflexivity]. cbn [negb].
  keeps presetNumber.
Qed.

(** An effective switch reseeds [v], zeroes [m] and touches nothing else
    but the layout cache of preset 8. *)
Lemma selectPreset_switch :
  forall G io q s,
    clampZ q 0 (presetCount - 1) <> presetNumber s ->
    let s' := selectPreset G io q s in
    v s' = 0.2 + Math_random io 0 * 0.8
    /\ m s' = 0
    /\ a s' = a s /\ b_ s' = b_ s /\ c s' = c s /\ d s' = d s
    /\ timeRand s' = timeRand s /\ spotlight s' = spotlight s
    /\ canvas s' = canvas s
    /\ (clampZ q 0 (presetCount - 1) <> 8%Z ->
        ranX s' = ranX s /\ ranY s' = ranY s).
Proof.
  intros G io q s Hne s'. subst s'. unfold selectPreset.
  apply Z.eqb_neq in Hne. rewrite Hne.
  cbn [presetNumber set_presetNumber set_v set_m].
  destruct (Z.eqb_spec (clampZ q 0 (presetCount - 1)) 8) as [H8|H8].
  - repeat split; try keeps_field. contradiction. contradiction.
  - repeat split; reflexivity.
Qed.

Lemma ring_rot_frame_v :
  forall G io feats motion s,
    onoff G = true ->
    v (drawPreset G io 1 feats motion s) = v s + presetSpeed G / 2000.
Proof.
  intros G io feats motion s Hon. unfold drawPreset. rewrite Hon.
  reflexivity.
Qed.

(** C1, as the code has it.  [v] and [m] persist from frame to frame but
    not across a switch.  While preset 1 stays active, dot [i] of its ring
    advances by exactly [presetSpeed/2000] per frame.  A [selectPreset]
    that changes the active preset sets [v] to [0.2 + 0.8*Math.random()]
    and [m] to 0, leaves every other field alone and, for preset 8 only,
    regenerates the point cloud.  So after a switch to another preset [q]
    and back, the dot is drawn at
    [i*Math.PI/9 + (0.2 + 0.8*r) + presetSpeed/2000], [r] being the random
    value drawn by the switch back, whatever its angle was before. *)
Theorem accumulators_reseeded_on_switch :
  forall G ios q i feats motion s,
    onoff G = true ->
    presetNumber s = 1%Z ->
    clampZ q 0 (presetCount - 1) <> 1%Z ->
    let s1 := drawPreset G (ios 0%nat) 1 feats motion s in
    let sq := selectPreset G (ios 1%nat) q s1 in
    ring_angle i (drawPreset G (ios 4%nat) 1 feats motion s1) - ring_angle i s1
      == presetSpeed G / 2000
    /\ v sq = 0.2 + Math_random (ios 1%nat) 0 * 0.8
    /\ m sq = 0
    /\ a sq = a s1 /\ b_ sq = b_ s1 /\ c sq = c s1 /\ d sq = d s1
    /\ timeRand sq = timeRand s1 /\ spotlight sq = spotlight s1
    /\ (clampZ q 0 (presetCount - 1) <> 8%Z ->
        ranX sq = ranX s1 /\ ranY sq = ranY s1)
    /\ ring_angle i (snd (switch_away_and_back G ios q feats motion s))
       == inject_Z i * Math_PI / 9
          + (0.2 + Math_random (ios 3%nat) 0 * 0.8) + presetSpeed G / 2000.
Proof.
  intros G ios q i feats motion s Hon Hactive Hq s1 sq.
  assert (Hp1 : presetNumber s1 = 1%Z).
  { subst s1. now rewrite drawPreset_keeps_presetNumber. }
  assert (Hsw : clampZ q 0 (presetCount - 1) <> presetNumber s1)
    by now rewrite Hp1.
  destruct (selectPreset_switch G (ios 1%nat) q s1 Hsw)
    as (Hv & Hm & Ha & Hb & Hc & Hd & Ht & Hsp & _ & Hran).
  fold sq in Hv, Hm, Ha, Hb, Hc, Hd, Ht, Hsp, Hran.
  split.
  { unfold ring_angle. rewrite (ring_rot_frame_v _ _ _ _ _ Hon).
    set (inc := presetSpeed G / 2000). ring. }
  repeat (split; [assumption|]).
  unfold switch_away_and_back. cbn [snd]. fold s1. fold sq.
  set (s2 := drawPreset G (ios 2%nat) q feats motion sq).
  assert (Hback : clampZ 1 0 (presetCount - 1) <> presetNumber s2).
  { subst s2. rewrite drawPreset_keeps_presetNumber.
    subst sq. rewrite selectPreset_presetNumber. exact (not_eq_sym Hq). }
  destruct (selectPreset_switch G (ios 3%nat) 1 s2 Hback) as (Hv2 & _).
  unfold ring_angle. rewrite (ring_rot_frame_v _ _ _ _ _ Hon), Hv2.
  set (inc := presetSpeed G / 2000). ring.
Qed.

Lemma accumulators_reseeded_on_switch_witness :
  ring_angle 3 (drawPreset (sample_globals 30 true) (sample_host 0 0.5) 1
                  no_feats (0, 0)
                  (drawPreset (sample_globals 30 true) (sample_host 0 0.5) 1
                              no_feats (0, 0) (sample_state 1)))
  - ring_angle 3 (drawPreset (sample_globals 30 true) (sample_host 0 0.5) 1
                             no_feats (0, 0) (sample_state 1))
  == presetSpeed (sample_globals 30 true) / 2000.
Proof.
  apply (accumulators_reseeded_on_switch (sample_globals 30 true)
           (fun _ => sample_host 0 0.5) 15 3 no_feats (0, 0) (sample_state 1)).
  - reflexivity.
  - reflexivity.
  - discriminate.
Defined.

(** C1 as worded fails.  At speed 30 with every random draw 1/2: the frame
    of preset 1 leaves [v] at 0.215; switching to preset 15 sets [v] to 0.6
    and [m] (here 7) to 0; after the switch back the next frame of preset 1
    draws the ring at [v = 0.615], so every dot has moved by 0.4 and not by
    the increment 0.015. *)
Lemma switch_breaks_ring_continuity :
  v (selectPreset (sample_globals 30 true) (sample_host 0 0.5) 15
       (set_m 7 (set_v 0.215 (sample_state 1)))) == 0.6
  /\ m (selectPreset (sample_globals 30 true) (sample_host 0 0.5) 15
          (set_m 7 (set_v 0.215 (sample_state 1)))) == 0
  /\ ring_angle 3 (snd (switch_away_and_back (sample_globals 30 true)
                          (fun _ => sample_host 0 0.5) 15 no_feats (0, 0)
                          (sample_state 1)))
     - ring_angle 3 (fst (switch_away_and_back (sample_globals 30 true)
                            (fun _ => sample_host 0 0.5) 15 no_feats (0, 0)
                            (sample_state 1)))
     == 0.4
  /\ presetSpeed (sample_globals 30 true) / 2000 == 0.015
  /\ ~ ring_continuity (sample_globals 30 true) (fun _ => sample_host 0 0.5)
         15 3 no_feats (0, 0) (sample_state 1).
Proof.
  split; [reflexivity|]. split; [reflexivity|].
  split; [vm_compute; reflexivity|]. split; [reflexivity|].
  unfold ring_continuity. intros Hcont. vm_compute in Hcont. discriminate.
Qed.

(* ------------------------------------------------------------------ *)
(** ** Motion path blender *)

Lemma lerp_at_1 (x y : Q) : lerp x y 1 == y.
Proof. unfold lerp. ring. Qed.

Lemma lerp_at_0 (x y t : Q) : t == 0 -> lerp x y t == x.
Proof. intros Ht. unfold lerp. rewrite Ht. ring. Qed.

Lemma lerp_comp (x y t t' : Q) : t == t' -> lerp x y t == lerp x y t'.
Proof. intros Ht. unfold lerp. now rewrite Ht. Qed.

Lemma clamp_unit_bounds (x : Q) : 0 <= clamp x 0 1 <= 1.
Proof.
  unfold clamp. split.
  - apply Q.le_max_l.
  - apply Q.max_lub; [discriminate | apply Q.le_min_l].
Qed.

Lemma clamp_unit_at_0 (x : Q) : x == 0 -> clamp x 0 1 == 0.
Proof.
  intros Hx. unfold clamp. apply Q.max_l.
  apply Qle_trans with x; [apply Q.le_min_r | rewrite Hx; apply Qle_refl].
Qed.

Lemma ease_at_0 (t : Q) : t == 0 -> easeInOutCubic t == 0.
Proof.
  intros Ht. unfold easeInOutCubic, Qltb.
  assert (Hb : Qle_bool 0.5 t = false).
  { destruct (Qle_bool 0.5 t) eqn:Hle; [|reflexivity].
    apply Qle_bool_iff in Hle. rewrite Ht in Hle.
    exfalso. apply Hle. reflexivity. }
  rewrite Hb. cbn [negb]. rewrite Ht. reflexivity.
Qed.

Lemma ease_le_1 (t : Q) : 0 <= t <= 1 -> easeInOutCubic t <= 1.
Proof.
  intros [Hlo Hhi]. unfold easeInOutCubic.
  destruct (Qltb t 0.5) eqn:Hhalf.
  - assert (Hlt : t < 0.5).
    { apply Qnot_le_lt. intros Hle. apply Qle_bool_iff in Hle.
      unfold Qltb in Hhalf. rewrite Hle in Hhalf. discriminate. }
    assert (Hsq : t * t <= 0.25) by nra.
    assert (Hcu : t * t * t <= 0.125) by nra.
    lra.
  - set (w := -2 * t + 2).
    assert (Hw : 0 <= w) by (subst w; lra).
    change (w ^ 3) with (w * (w * w)).
    change (w * (w * w) / 2) with (w * (w * w) * (1 # 2)).
    assert (Hww : 0 <= w * w) by nra.
    assert (Hwww : 0 <= w * (w * w)) by nra.
    lra.
Qed.

(** The remainder by 1 depends on the number only, and taking it twice
    changes nothing. *)
Lemma Qtrunc_comp (x y : Q) : x == y -> Qtrunc x = Qtrunc y.
Proof.
  intros Hxy. unfold Qtrunc.
  rewrite (Qfloor_comp _ _ Hxy), (Qceiling_comp _ _ Hxy).
  assert (Hb : Qle_bool 0 x = Qle_bool 0 y).
  { destruct (Qle_bool 0 x) eqn:Hx, (Qle_bool 0 y) eqn:Hy; try reflexivity.
    - apply Qle_bool_iff in Hx. rewrite Hxy in Hx.
      apply Qle_bool_iff in Hx. congruence.
    - apply Qle_bool_iff in Hy. rewrite <- Hxy in Hy.
      apply Qle_bool_iff in Hy. congruence. }
  now rewrite Hb.
Qed.

Lemma js_rem_comp (x y : Q) : x == y -> js_rem x 1 == js_rem y 1.
Proof.
  intros Hxy. unfold js_rem.
  assert (Hdiv : x / 1 == y / 1) by now rewrite Hxy.
  rewrite (Qtrunc_comp _ _ Hdiv), Hxy. reflexivity.
Qed.

Lemma Qfloor_unit (y : Q) : 0 <= y -> y < 1 -> Qfloor y = 0%Z.
Proof.
  intros Hlo Hhi.
  pose proof (Qfloor_le y) as Hfl.
  pose proof (Qlt_floor y) as Hlt.
  assert (H1 : (Qfloor y < 1)%Z).
  { rewrite Zlt_Qlt. apply Qle_lt_trans with y; assumption. }
  assert (H2 : (0 < Qfloor y + 1)%Z).
  { rewrite Zlt_Qlt. apply Qle_lt_trans with y; assumption. }
  lia.
Qed.

Lemma Qtrunc_unit (y : Q) : -1 < y -> y < 1 -> Qtrunc y = 0%Z.
Proof.
  intros Hlo Hhi. unfold Qtrunc.
  destruct (Qle_bool 0 y) eqn:Hsign.
  - apply Qle_bool_iff in Hsign. now apply Qfloor_unit.
  - assert (Hneg : y < 0).
    { apply Qnot_le_lt. intros Hle. apply Qle_bool_iff in Hle. congruence. }
    unfold Qceiling. rewrite (Qfloor_unit (- y)); [reflexivity | lra | lra].
Qed.

Lemma js_rem_1_range (x : Q) : -1 < js_rem x 1 /\ js_rem x 1 < 1.
Proof.
  unfold js_rem.
  assert (Hdiv : x / 1 == x) by (unfold Qdiv; change (/ 1) with 1; ring).
  rewrite (Qtrunc_comp _ _ Hdiv). unfold Qtrunc.
  destruct (Qle_bool 0 x) eqn:Hsign.
  - pose proof (Qfloor_le x) as Hfl. pose proof (Qlt_floor x) as Hlt.
    rewrite inject_Z_plus in Hlt. change (inject_Z 1) with 1 in Hlt.
    split; lra.
  - pose proof (Qle_ceiling x) as Hce. pose proof (Qceiling_lt x) as Hlt.
    assert (He : inject_Z (Qceiling x - 1) == inject_Z (Qceiling x) - 1).
    { unfold Z.sub. rewrite inject_Z_plus. reflexivity. }
    rewrite He in Hlt.
    split; lra.
Qed.

Lemma js_rem_1_idem (x : Q) : js_rem (js_rem x 1) 1 == js_rem x 1.
Proof.
  destruct (js_rem_1_range x) as [Hlo Hhi].
  set (y := js_rem x 1) in *. unfold js_rem at 1.
  assert (Hdiv : y / 1 == y) by (unfold Qdiv; change (/ 1) with 1; ring).
  rewrite (Qtrunc_comp _ _ Hdiv), (Qtrunc_unit y Hlo Hhi).
  change (inject_Z 0) with 0. ring.
Qed.

(** A path position depends on the phase as a number. *)
Lemma motionPos_comp (io : Host) (mode : string) (p p' rad : Q) :
  p == p' -> Qeq2 (motionPos io mode p rad) (motionPos io mode p' rad).
Proof.
  intros Hp. unfold motionPos.
  assert (Ht : js_rem (js_rem p 1 + 1) 1 == js_rem (js_rem p' 1 + 1) 1).
  { apply js_rem_comp. now rewrite (js_rem_comp _ _ Hp). }
  set (t := js_rem (js_rem p 1 + 1) 1) in *.
  set (t' := js_rem (js_rem p' 1 + 1) 1) in *.
  destruct (String.eqb mode "off"); [split; reflexivity|].
  destruct (String.eqb mode "circle").
  { unfold cosJ, sinJ.
    assert (Hang : Qred (t * Math_PI * 2) = Qred (t' * Math_PI * 2))
      by (apply Qred_complete; now rewrite Ht).
    rewrite Hang. split; reflexivity. }
  destruct (String.eqb mode "square").
  { assert (Hs : t * 4 == t' * 4) by now rewrite Ht.
    rewrite (Qfloor_comp _ _ Hs).
    split; cbn [fst snd]; apply lerp_comp; now rewrite Hs. }
  assert (Hs : t * 3 == t' * 3) by now rewrite Ht.
  rewrite (Qfloor_comp _ _ Hs).
  split; cbn [fst snd]; apply lerp_comp; now rewrite Hs.
Qed.

Lemma state_before_target (G : Globals) (io : Host) (tNow dt : Q)
      (ms : MotionState) :
  motionToMode (state_before G io tNow dt ms) = motionToMode ms.
Proof.
  unfold state_before, computeMotionOffset.
  destruct (motionBlending ms); [|reflexivity].
  destruct (Qgeb _ 1); reflexivity.
Qed.

(** Once no blend is in progress the offset is the target path's. *)
Lemma offset_when_settled (G : Globals) (io : Host) (tNow dt : Q)
      (ms : MotionState) :
  motionBlending (state_before G io tNow dt ms) = false ->
  Qeq2 (offset_before G io tNow dt ms)
       (motionPos io (motionToMode ms)
                  (motionPhase (state_before G io tNow dt ms))
                  (motion_radius G)).
Proof.
  unfold offset_before, state_before, computeMotionOffset, motion_radius.
  destruct (motionBlending ms).
  - set (blend := easeInOutCubic _).
    assert (Hle : blend <= 1) by (apply ease_le_1, clamp_unit_bounds).
    destruct (Qgeb blend 1) eqn:Hdone; cbn [fst snd motionBlending motionPhase];
      [intros _ | discriminate].
    apply Qgeb_le in Hdone.
    assert (Hone : blend == 1) by (apply Qle_antisym; assumption).
    split; cbn [fst snd]; rewrite (lerp_comp _ _ _ _ Hone); apply lerp_at_1.
  - intros _. split; cbn [fst snd]; apply lerp_at_1.
Qed.

(** The first offset after a request for a new target, with no time
    elapsed, is the previous target's path position. *)
Lemma offset_right_after_switch (G : Globals) (io : Host) (tNow : Q)
      (next : string) (ms1 : MotionState) :
  next <> motionToMode ms1 ->
  Qeq2 (fst (computeMotionOffset G io (tNow + 0) (0 / 1000)
               (setMotionMode tNow next ms1)))
       (motionPos io (motionToMode ms1) (js_rem (motionPhase ms1) 1)
                  (motion_radius G)).
Proof.
  intros Hnew. unfold setMotionMode.
  apply String.eqb_neq in Hnew. rewrite Hnew.
  unfold computeMotionOffset, motion_radius.
  cbn [motionBlending motionBlendStart motionPhase motionFromMode motionToMode].
  set (blend := easeInOutCubic _).
  assert (Hzero : blend == 0).
  { subst blend. apply ease_at_0, clamp_unit_at_0.
    unfold Qdiv. setoid_replace (tNow + 0 - tNow) with 0 by ring.
    apply Qmult_0_l. }
  assert (Hnot : Qgeb blend 1 = false).
  { destruct (Qgeb blend 1) eqn:Hb; [|reflexivity].
    apply Qgeb_le in Hb. rewrite Hzero in Hb. exfalso. apply Hb. reflexivity. }
  rewrite Hnot. cbn [fst snd].
  set (cps := lerp 0 0.22 _).
  assert (Hphase : motionPhase ms1 + 0 / 1000 * cps == motionPhase ms1).
  { setoid_replace (0 / 1000) with 0 by reflexivity. ring. }
  destruct (motionPos_comp io (motionToMode ms1) _ _ (motion_radius G)
              (js_rem_comp _ _ Hphase)) as [Hx Hy].
  unfold motion_radius in Hx, Hy.
  split; cbn [fst snd]; rewrite (lerp_at_0 _ _ _ Hzero); assumption.
Qed.

(** C9, as the code has it.  [setMotionMode] with a new target makes the
    previous target the new "from" path and restarts the blend at factor
    0, whether or not a blend was in progress.  So the first offset after
    the switch is the previous target's path position: when no blend is in
    progress at the switch the offset is continuous across it (with no time
    elapsed it is the offset of the frame before); when one is, the offset
    leaves the interpolated point for that path position.  Inside
    [computeMotionOffset] a running blend keeps its "from" path until the
    frame that completes it, which sets "from" to the target. *)
Theorem retarget_restarts_from_previous_target :
  forall G io tNow dt next ms,
    (next <> motionToMode ms ->
       motionFromMode
         (setMotionMode tNow next (state_before G io tNow dt ms))
       = motionToMode ms
       /\ Qeq2 (offset_after G io tNow dt 0 next ms)
               (motionPos io (motionToMode ms)
                          (motionPhase (state_before G io tNow dt ms))
                          (motion_radius G)))
    /\ (motionBlending (state_before G io tNow dt ms) = false ->
        no_jump G io tNow dt next ms)
    /\ (motionBlending ms = true ->
        motionFromMode (state_before G io tNow dt ms)
        = if motionBlending (state_before G io tNow dt ms)
          then motionFromMode ms else motionToMode ms).
Proof.
  intros G io tNow dt next ms.
  assert (Hswitch :
    next <> motionToMode ms ->
    Qeq2 (offset_after G io tNow dt 0 next ms)
         (motionPos io (motionToMode ms)
                    (motionPhase (state_before G io tNow dt ms))
                    (motion_radius G))).
  { intros Hnew. unfold offset_after.
    rewrite <- (state_before_target G io tNow dt ms) in Hnew.
    destruct (offset_right_after_switch G io tNow next _ Hnew) as [Hx Hy].
    rewrite (state_before_target G io tNow dt ms) in Hx, Hy.
    assert (Hidem : Qeq2
              (motionPos io (motionToMode ms)
                 (js_rem (motionPhase (state_before G io tNow dt ms)) 1)
                 (motion_radius G))
              (motionPos io (motionToMode ms)
                 (motionPhase (state_before G io tNow dt ms))
                 (motion_radius G))).
    { apply motionPos_comp.
      unfold state_before, computeMotionOffset.
      destruct (motionBlending ms);
        [destruct (Qgeb _ 1)|]; cbn [snd motionPhase]; apply js_rem_1_idem. }
    destruct Hidem as [Hix Hiy].
    split; [now rewrite Hx | now rewrite Hy]. }
  split; [|split].
  - intros Hnew. split; [|now apply Hswitch].
    unfold setMotionMode. rewrite (state_before_target G io tNow dt ms).
    apply String.eqb_neq in Hnew. now rewrite Hnew.
  - intros Hsettled. unfold no_jump.
    destruct (offset_when_settled G io tNow dt ms Hsettled) as [Hbx Hby].
    destruct (String.eqb_spec next (motionToMode ms)) as [Hsame | Hnew].
    + (* the request names the current target: nothing is switched *)
      assert (Hnoop : setMotionMode tNow next (state_before G io tNow dt ms)
                      = state_before G io tNow dt ms).
      { unfold setMotionMode.
        rewrite (state_before_target G io tNow dt ms), Hsame.
        now rewrite String.eqb_refl. }
      unfold offset_after. rewrite Hnoop.
      set (ms1 := state_before G io tNow dt ms) in *.
      assert (Hagain : motionBlending
                         (state_before G io (tNow + 0) (0 / 1000) ms1) = false).
      { unfold state_before, computeMotionOffset. now rewrite Hsettled. }
      destruct (offset_when_settled G io (tNow + 0) (0 / 1000) ms1 Hagain)
        as [Hax Hay].
      unfold offset_before in Hax, Hay.
      assert (Hmode : motionToMode ms1 = motionToMode ms)
        by apply state_before_target.
      rewrite Hmode in Hax, Hay.
      assert (Hphase : motionPhase (state_before G io (tNow + 0) (0 / 1000) ms1)
                       == motionPhase ms1).
      { unfold state_before at 1, computeMotionOffset.
        rewrite Hsettled. cbn [snd motionPhase].
        set (cps := lerp 0 0.22 _).
        assert (Hsame0 : motionPhase ms1 + 0 / 1000 * cps == motionPhase ms1).
        { setoid_replace (0 / 1000) with 0 by reflexivity. ring. }
        rewrite (js_rem_comp _ _ Hsame0).
        subst ms1. unfold state_before, computeMotionOffset.
        destruct (motionBlending ms);
          [destruct (Qgeb _ 1)|]; cbn [snd motionPhase]; apply js_rem_1_idem. }
      destruct (motionPos_comp io (motionToMode ms) _ _ (motion_radius G) Hphase)
        as [Hpx Hpy].
      split; [rewrite Hax, Hpx, Hbx | rewrite Hay, Hpy, Hby]; reflexivity.
    + destruct (Hswitch Hnew) as [Hax Hay].
      split; [rewrite Hax, Hbx | rewrite Hay, Hby]; reflexivity.
  - intros Hblend. unfold state_before, computeMotionOffset.
    rewrite Hblend. destruct (Qgeb _ 1); reflexivity.
Qed.

Lemma retarget_restarts_from_previous_target_witness :
  no_jump (sample_globals 0 true) (sample_host 0 0.5) 432.5 0.016 "square"
          motion_initial
  /\ Qeq2 (offset_after (sample_globals 0 true) (sample_host 0 0.5) 432.5
                        0.016 0 "off" motion_to_square)
          (motionPos (sample_host 0 0.5) (motionToMode motion_to_square)
             (motionPhase (state_before (sample_globals 0 true)
                             (sample_host 0 0.5) 432.5 0.016 motion_to_square))
             (motion_radius (sample_globals 0 true))).
Proof.
  split.
  - apply (retarget_restarts_from_previous_target (sample_globals 0 true)
             (sample_host 0 0.5) 432.5 0.016 "square" motion_initial).
    reflexivity.
  - apply (retarget_restarts_from_previous_target (sample_globals 0 true)
             (sample_host 0 0.5) 432.5 0.016 "off" motion_to_square).
    discriminate.
Defined.

(** C9 as worded fails.  On a 1920 x 1080 canvas at speed 0 (radius 194.4,
    blend window 865 ms) a blend from "off" to "square" is requested at
    time 0.  At 432.5 ms the offset is the midpoint (97.2, -97.2).
    [setMotionMode("off")] at that instant gives, with no time elapsed, the
    offset (194.4, -194.4); and one 16 ms frame later the offset is more
    than 97 away in x from the midpoint, where the undisturbed blend would
    have moved it by less than 11. *)
Lemma retarget_mid_blend_jumps :
  Qeq2 (offset_before (sample_globals 0 true) (sample_host 0 0.5) 432.5 0.016
                      motion_to_square)
       (97.2, -97.2)
  /\ Qeq2 (offset_after (sample_globals 0 true) (sample_host 0 0.5) 432.5
                        0.016 0 "off" motion_to_square)
          (194.4, -194.4)
  /\ fst (offset_undisturbed (sample_globals 0 true) (sample_host 0 0.5) 432.5
                             0.016 16 motion_to_square)
     - fst (offset_before (sample_globals 0 true) (sample_host 0 0.5) 432.5
                          0.016 motion_to_square) < 11
  /\ 97 < fst (offset_after (sample_globals 0 true) (sample_host 0 0.5) 432.5
                            0.016 16 "off" motion_to_square)
          - fst (offset_before (sample_globals 0 true) (sample_host 0 0.5)
                               432.5 0.016 motion_to_square)
  /\ ~ no_jump (sample_globals 0 true) (sample_host 0 0.5) 432.5 0.016 "off"
         motion_to_square.
Proof.
  split; [split; vm_compute; reflexivity|].
  split; [split; vm_compute; reflexivity|].
  split; [vm_compute; reflexivity|].
  split; [vm_compute; reflexivity|].
  intros [Hx _]. vm_compute in Hx. discriminate.
Qed.

(** Every path is independent of the host's trigonometry except the
    circle, so the figures above hold on any host. *)
Lemma motionPos_polygon_any_host (io io' : Host) (mode : string)
      (phase rad : Q) :
  mode <> "circle"%string ->
  motionPos io mode phase rad = motionPos io' mode phase rad.
Proof.
  intros Hmode. unfold motionPos.
  apply String.eqb_neq in Hmode. rewrite Hmode. reflexivity.
Qed.

(* ------------------------------------------------------------------ *)
(** ** The application's self-tests and a few frames, replayed *)

(** [selectPreset(8); selectPreset(999); selectPreset(-5)] of
    [runSelfTests]: 8, then the last preset, then preset 0. *)
Example selftest_selectPreset :
  let G := sample_globals 30 true in
  let io := sample_host 0 0.5 in
  let s8 := selectPreset G io 8 (sample_state 0) in
  let s999 := selectPreset G io 999 s8 in
  let s5 := selectPreset G io (-5) s999 in
  presetNumber s8 = 8%Z /\ presetNumber s999 = (presetCount - 1)%Z
  /\ presetNumber s5 = 0%Z.
Proof. vm_compute. repeat split. Qed.

(** [motionBlendDurationSec] falls from 1.8 s to 0.1 s as the slider goes
    from 0 to 100. *)
Example selftest_blend_duration :
  let G t := mkGlobals 1920 1080 1 30 50 100 true (rgb 0 0 255)
                       (rgb 255 255 255) true t in
  motionBlendDurationSec (G 0) == 1.8
  /\ motionBlendDurationSec (G 50) == 0.95
  /\ motionBlendDurationSec (G 100) == 0.1.
Proof. vm_compute. repeat split. Qed.

(** Activating preset 8 reseeds the cloud; its frame then advances [v] by
    [30/5000] and fills the two colour groups in one batch each. *)
Example drawPreset_discoball_runs :
  let G := sample_globals 30 true in
  let s := drawPreset G (sample_host 0 0.5) 8 no_feats (0, 0)
                      (selectPreset G (sample_host 0 0.75) 8 (sample_state 0)) in
  v s == 0.806 /\ canvas s = [Fill; Fill]
  /\ nth 0 (ranX s) 0%Z = 681%Z /\ nth 999 (ranY s) 0%Z = 681%Z.
Proof. vm_compute. repeat split. Qed.

(** At size 50 the ping-pong frame steps spotlights 0..7 and leaves the
    others where they were. *)
Example drawPreset_pingpong_runs :
  let s := drawPreset (sample_globals 30 true) (sample_host 0 0.5) 14
                      no_feats (0, 0) (sample_state 14) in
  posX (nth 7 (spotlight s) (mkKreis 0 0 0 0)) == 304.65
  /\ posX (nth 8 (spotlight s) (mkKreis 0 0 0 0)) == 300
  /\ canvas s = [Fill; Fill].
Proof. vm_compute. repeat split. Qed.

(** A fresh detector at sensitivity 0.6 and cooldown 120 ms: the first
    sample of the 0.08 baseline already clears threshold and gate, and the
    spike 48 ms later falls inside the cooldown. *)
Example beat_detector_first_samples :
  fst (BeatDetector.feed
         (map (fun i => (if Nat.eqb i 3 then 0.8 else 0.08,
                         16 * inject_Z (Z.of_nat i), 0.6, 120))
              (seq 0 6))
         BeatDetector.reset)
  = [true; false; false; false; false; false].
Proof. vm_compute. reflexivity. Qed.

(* ------------------------------------------------------------------ *)
(** ** Clamping and colours *)

Lemma clamp_bounds (x lo hi : Q) :
  lo <= hi -> lo <= clamp x lo hi /\ clamp x lo hi <= hi.
Proof.
  intros Hord. unfold clamp. split.
  - apply Q.le_max_l.
  - apply Q.max_lub; [exact Hord | apply Q.le_min_l].
Qed.

Lemma clamp_inside (x lo hi : Q) :
  lo <= x -> x <= hi -> clamp x lo hi == x.
Proof.
  intros Hlo Hhi. unfold clamp.
  assert (Hmin : Qmin hi x == x) by now apply Q.min_r.
  rewrite Q.max_r; [exact Hmin | now rewrite Hmin].
Qed.

(** X1. [clamp(v, lo, hi)] with [lo <= hi] always lands in [lo, hi], returns
    [v] itself when [v] is already inside, [lo] when [v] is below and [hi]
    when it is above. *)
Theorem clamp_range :
  forall x lo hi,
    lo <= hi ->
    (lo <= clamp x lo hi <= hi)
    /\ (lo <= x <= hi -> clamp x lo hi == x)
    /\ (x <= lo -> clamp x lo hi == lo)
    /\ (hi <= x -> clamp x lo hi == hi).
Proof.
  intros x lo hi Hord. split; [now apply clamp_bounds|].
  split; [intros [Hlo Hhi]; now apply clamp_inside|].
  split; intros Hout; unfold clamp.
  - apply Q.max_l. apply Qle_trans with x; [apply Q.le_min_r | exact Hout].
  - assert (Hmin : Qmin hi x == hi) by now apply Q.min_l.
    rewrite Q.max_r; [exact Hmin | now rewrite Hmin].
Qed.

Lemma clamp_range_witness :
  clamp 300 0 255 == 255 /\ clamp (-4) 0 255 == 0 /\ clamp 17 0 255 == 17.
Proof.
  pose proof (clamp_range 300 0 255 ltac:(discriminate)) as (_ & _ & _ & Hhi).
  pose proof (clamp_range (-4) 0 255 ltac:(discriminate)) as (_ & _ & Hlo & _).
  pose proof (clamp_range 17 0 255 ltac:(discriminate)) as (_ & Hin & _).
  split; [apply Hhi; discriminate|].
  split; [apply Hlo; discriminate|].
  apply Hin. split; discriminate.
Defined.

(** X2. [rgb(r,g,b)] always yields integer channels between 0 and 255,
    whatever numbers it is given. *)
Theorem rgb_channels_in_range :
  forall r0 g0 b0,
    let col := rgb r0 g0 b0 in
    (0 <= r col <= 255 /\ 0 <= g col <= 255 /\ 0 <= b col <= 255)
    /\ (exists zr zg zb : Z,
           r col == inject_Z zr /\ g col == inject_Z zg
           /\ b col == inject_Z zb).
Proof.
  intros r0 g0 b0 col. subst col. unfold rgb. cbn [r g b].
  split.
  - repeat split; apply clamp_bounds; discriminate.
  - exists (clampZ (Qfloor (r0 + 0.5)) 0 255),
           (clampZ (Qfloor (g0 + 0.5)) 0 255),
           (clampZ (Qfloor (b0 + 0.5)) 0 255).
    repeat split; unfold Math_round;
      rewrite clampZ_is_clamp; reflexivity.
Qed.

Lemma palette_values :
  COLORS_red = rgbRaw 255 0 0 /\ COLORS_yellow = rgbRaw 255 255 0
  /\ COLORS_green = rgbRaw 0 255 0 /\ COLORS_cyan = rgbRaw 0 255 255
  /\ COLORS_blue = rgbRaw 0 0 255 /\ COLORS_magenta = rgbRaw 255 0 255
  /\ COLORS_white = rgbRaw 255 255 255.
Proof. repeat split. Qed.

(** Copying a palette entry through [rgb] gives the entry back. *)
Lemma rgb_of_palette (col : Color) :
  In col PALETTE -> rgb (r col) (g col) (b col) = col.
Proof.
  unfold PALETTE. cbn [In].
  intros [<- | [<- | [<- | [<- | [<- | [<- | [<- | []]]]]]]]; reflexivity.
Qed.

Lemma Qsquare_nonneg (x : Q) : 0 <= x * x.
Proof.
  unfold Qle, Qmult. cbn [Qnum Qden]. rewrite Z.mul_1_r.
  apply Z.square_nonneg.
Qed.

Lemma distSq_nonneg (p q : Color) : 0 <= distSq p q.
Proof.
  unfold distSq. cbv zeta.
  pose proof (Qsquare_nonneg (r p - r q)).
  pose proof (Qsquare_nonneg (g p - g q)).
  pose proof (Qsquare_nonneg (b p - b q)).
  lra.
Qed.

(** The running maximum of [contrastingColor]'s loop. *)
Lemma farther_fold (col : Color) (l : list Color) :
  forall acc,
    snd acc = distSq (fst acc) col ->
    let res := fold_left (farther col) l acc in
    snd res = distSq (fst res) col
    /\ (fst res = fst acc \/ In (fst res) l)
    /\ snd acc <= snd res
    /\ (forall p, In p l -> distSq p col <= snd res).
Proof.
  induction l as [|x l IH]; intros acc Hacc; cbn [fold_left].
  - repeat split; auto using Qle_refl. intros p [].
  - assert (Hstep : snd (farther col acc x) = distSq (fst (farther col acc x)) col
                    /\ (fst (farther col acc x) = fst acc
                        \/ fst (farther col acc x) = x)
                    /\ snd acc <= snd (farther col acc x)
                    /\ distSq x col <= snd (farther col acc x)).
    { unfold farther. destruct (Qgtb (distSq x col) (snd acc)) eqn:Hgt.
      - apply Qgtb_lt in Hgt. cbn [fst snd].
        repeat split; auto using Qle_refl, Qlt_le_weak.
      - assert (Hle : distSq x col <= snd acc).
        { apply Qnot_lt_le. intros Hlt. apply Qgtb_lt in Hlt. congruence. }
        repeat split; auto using Qle_refl. }
    destruct Hstep as (Hs1 & Hs2 & Hs3 & Hs4).
    destruct (IH (farther col acc x) Hs1) as (Hr1 & Hr2 & Hr3 & Hr4).
    cbv zeta. split; [exact Hr1|]. split; [|split].
    + destruct Hr2 as [Hr2 | Hr2]; [|right; now right].
      rewrite Hr2. destruct Hs2 as [Hs2 | Hs2]; [now left | right; now left].
    + now apply Qle_trans with (snd (farther col acc x)).
    + intros p [<- | Hin]; [|now apply Hr4].
      now apply Qle_trans with (snd (farther col acc x)).
Qed.

Lemma farthest_of_list (col first init : Color) (rest : list Color) :
  let best := fst (fold_left (farther col) (first :: rest) (init, -1)) in
  In best (first :: rest)
  /\ (forall p, In p (first :: rest) -> distSq p col <= distSq best col).
Proof.
  cbn [fold_left].
  assert (Hfirst : farther col (init, -1) first = (first, distSq first col)).
  { unfold farther. cbn [snd].
    assert (Hgt : Qgtb (distSq first col) (-1) = true).
    { apply Qgtb_lt. apply Qlt_le_trans with 0;
        [reflexivity | apply distSq_nonneg]. }
    now rewrite Hgt. }
  rewrite Hfirst.
  destruct (farther_fold col rest (first, distSq first col) eq_refl)
    as (Hr1 & Hr2 & Hr3 & Hr4).
  set (res := fold_left (farther col) rest (first, distSq first col)) in *.
  cbn [fst snd] in Hr2, Hr3. split.
  - destruct Hr2 as [Hr2 | Hr2]; [rewrite Hr2; now left | now right].
  - intros p [<- | Hp]; rewrite <- Hr1; [exact Hr3 | now apply Hr4].
Qed.

Lemma contrasting_is_farthest (col : Color) :
  In (contrastingColor col) PALETTE
  /\ (forall p, In p PALETTE ->
        distSq p col <= distSq (contrastingColor col) col).
Proof.
  pose proof (farthest_of_list col COLORS_red COLORS_red (tl PALETTE))
    as [Hin Hmax].
  change (COLORS_red :: tl PALETTE) with PALETTE in Hin, Hmax.
  unfold contrastingColor.
  rewrite (rgb_of_palette _ Hin). split; [exact Hin | exact Hmax].
Qed.

Lemma square_ge_6400 (x : Q) : 80 <= x \/ x <= -80 -> 6400 <= x * x.
Proof.
  intros Hx.
  assert (Hprod : 0 <= (x - 80) * (x + 80)).
  { destruct Hx as [Hx | Hx].
    - apply Qmult_le_0_compat; lra.
    - setoid_replace ((x - 80) * (x + 80)) with ((80 - x) * (- x - 80))
        by ring.
      apply Qmult_le_0_compat; lra. }
  setoid_replace ((x - 80) * (x + 80)) with (x * x - 6400) in Hprod by ring.
  lra.
Qed.

Lemma distSq_ge_first (p col : Color) :
  (r p - r col) * (r p - r col) <= distSq p col.
Proof.
  unfold distSq. cbv zeta.
  pose proof (Qsquare_nonneg (g p - g col)).
  pose proof (Qsquare_nonneg (b p - b col)).
  lra.
Qed.

Lemma contrastingColor_is_far_aux (col : Color) :
  6400 <= distSq (contrastingColor col) col.
Proof.
  destruct (contrasting_is_farthest col) as [Hin Hmax].
  destruct palette_values as (_ & _ & Hgreen & _ & _ & _ & Hwhite).
  assert (Hfar : exists p, In p PALETTE
                           /\ (80 <= r p - r col \/ r p - r col <= -80)).
  { destruct (Qlt_le_dec (r col) 80) as [Hsmall | Hbig].
    - exists COLORS_white. split; [unfold PALETTE; cbn [In]; tauto|].
      rewrite Hwhite. cbn [r].
      destruct (Qlt_le_dec (-80) (r col)) as [Hmid | Hneg]; left; lra.
    - exists COLORS_green. split; [unfold PALETTE; cbn [In]; tauto|].
      rewrite Hgreen. cbn [r]. right. lra. }
  destruct Hfar as (p & Hp & Hdist).
  apply Qle_trans with (distSq p col); [|now apply Hmax].
  apply Qle_trans with ((r p - r col) * (r p - r col));
    [now apply square_ge_6400 | apply distSq_ge_first].
Qed.

(** X3. [contrastingColor(c)] returns a palette colour, none of the seven
    palette colours is farther from [c] than it, and for every colour [c]
    it is at least 80 away (squared distance 6400 or more). *)
Theorem contrastingColor_is_far :
  forall col,
    In (contrastingColor col) PALETTE
    /\ (forall p, In p PALETTE ->
          distSq p col <= distSq (contrastingColor col) col)
    /\ 6400 <= distSq (contrastingColor col) col.
Proof.
  intros col. destruct (contrasting_is_farthest col) as [Hin Hmax].
  split; [exact Hin|]. split; [exact Hmax|].
  apply contrastingColor_is_far_aux.
Qed.

Lemma keep_distinct_far (G : Globals) :
  multiColor G = true ->
  6400 <= distSq (multiColorClr (keep_distinct G))
                 (presetColor (keep_distinct G)).
Proof.
  intros Hmulti. unfold keep_distinct. rewrite Hmulti. cbn [andb].
  destruct (Qltb (distSq (multiColorClr G) (presetColor G)) (80 * 80))
    eqn:Hclose.
  - cbn [multiColorClr presetColor set_multiColorClr].
    apply contrastingColor_is_far_aux.
  - unfold Qltb in Hclose. apply negb_false_iff in Hclose.
    apply Qle_bool_iff in Hclose.
    apply Qle_trans with (80 * 80); [discriminate | exact Hclose].
Qed.

(** X4. The colour-button handler: in multicolour mode the two colours end
    at least 80 apart (squared distance 6400 or more) whichever colour was
    picked for whichever target; colour A is always the picked colour when
    A is the target, and in single-colour mode a pick for B is stored as
    is. *)
Theorem pick_color_keeps_apart :
  forall colorTarget chosen G,
    (multiColor G = true ->
     6400 <= distSq (multiColorClr (pick_color colorTarget chosen G))
                    (presetColor (pick_color colorTarget chosen G)))
    /\ (colorTarget = "A"%string ->
        presetColor (pick_color colorTarget chosen G) = chosen)
    /\ (multiColor G = false -> colorTarget <> "A"%string ->
        multiColorClr (pick_color colorTarget chosen G) = chosen
        /\ presetColor (pick_color colorTarget chosen G) = presetColor G).
Proof.
  intros colorTarget chosen G. unfold pick_color. split; [|split].
  - intros Hmulti. apply keep_distinct_far.
    destruct (String.eqb colorTarget "A"); exact Hmulti.
  - intros ->. cbn [String.eqb Ascii.eqb Bool.eqb]. unfold keep_distinct.
    destruct (_ && _); reflexivity.
  - intros Hsingle Hnot. apply String.eqb_neq in Hnot. rewrite Hnot.
    unfold keep_distinct. cbn [multiColor set_multiColorClr].
    rewrite Hsingle. split; reflexivity.
Qed.

Lemma pick_color_keeps_apart_witness :
  6400 <= distSq (multiColorClr (pick_color "B" COLORS_blue
                                            (sample_globals 30 true)))
                 (presetColor (pick_color "B" COLORS_blue
                                          (sample_globals 30 true))).
Proof.
  apply (pick_color_keeps_apart "B" COLORS_blue (sample_globals 30 true)).
  reflexivity.
Defined.

Lemma random_index_lt (io : Host) (k n : nat) :
  0 <= Math_random io k -> Math_random io k < 1 -> (0 < n)%nat ->
  (random_index io k n < n)%nat.
Proof.
  intros Hlo Hhi Hn. unfold random_index.
  set (x := Math_random io k * inject_Z (Z.of_nat n)).
  assert (Hnq : 0 < inject_Z (Z.of_nat n)).
  { change 0 with (inject_Z 0). rewrite <- Zlt_Qlt. lia. }
  assert (Hx0 : 0 <= x) by (subst x; apply Qmult_le_0_compat; lra).
  assert (Hx1 : x < inject_Z (Z.of_nat n)).
  { subst x.
    setoid_replace (inject_Z (Z.of_nat n)) with (1 * inject_Z (Z.of_nat n))
      at 2 by ring.
    apply Qmult_lt_compat_r; assumption. }
  assert (Hfl : (Qfloor x < Z.of_nat n)%Z).
  { rewrite Zlt_Qlt. apply Qle_lt_trans with x; [apply Qfloor_le | exact Hx1]. }
  assert (Hf0 : (0 <= Qfloor x)%Z).
  { change 0%Z with (Qfloor 0). now apply Qfloor_resp_le. }
  lia.
Qed.

(** X5. Whenever [Math.random()] is in [0,1), as the host promises, the
    index [Math.floor(Math.random() * PALETTE.length)] is inside the
    palette, so the read [PALETTE[idx]] finds an entry, and
    [randomBrightColor()] is that entry: one of the seven palette
    colours. *)
Theorem randomBrightColor_in_palette :
  forall io k,
    0 <= Math_random io k -> Math_random io k < 1 ->
    (random_index io k (List.length PALETTE) < List.length PALETTE)%nat
    /\ nth_error PALETTE (random_index io k (List.length PALETTE))
       = Some (randomBrightColor io k)
    /\ In (randomBrightColor io k) PALETTE.
Proof.
  intros io k Hlo Hhi.
  assert (Hidx : (random_index io k (List.length PALETTE)
                  < List.length PALETTE)%nat).
  { apply random_index_lt; [assumption | assumption | cbn; lia]. }
  assert (Hin : In (nth (random_index io k (List.length PALETTE)) PALETTE
                        COLORS_red) PALETTE) by now apply nth_In.
  unfold randomBrightColor. cbv zeta. rewrite (rgb_of_palette _ Hin).
  split; [exact Hidx|]. split; [|exact Hin].
  now apply nth_error_nth'.
Qed.

Lemma randomBrightColor_in_palette_witness :
  In (randomBrightColor (sample_host 0 0.5) 0) PALETTE.
Proof.
  refine (proj2 (proj2 (randomBrightColor_in_palette (sample_host 0 0.5)
                          0%nat _ _)));
    [discriminate | reflexivity].
Defined.

(* ------------------------------------------------------------------ *)
(** ** Easing and blend duration *)

Lemma cube_mono (x y : Q) : 0 <= x -> x <= y -> x * x * x <= y * y * y.
Proof.
  intros Hx Hxy.
  assert (Hy : 0 <= y) by lra.
  pose proof (Qmult_le_compat_r x y x Hxy Hx) as H1.
  pose proof (Qmult_le_compat_r x y y Hxy Hy) as H2.
  assert (Hsq : x * x <= y * y) by lra.
  pose proof (Qmult_le_compat_r (x * x) (y * y) x Hsq Hx) as H3.
  pose proof (Qmult_le_compat_r x y (y * y) Hxy (Qsquare_nonneg y)) as H4.
  lra.
Qed.

Lemma ease_low (t : Q) :
  Qltb t 0.5 = true -> easeInOutCubic t = 4 * t * t * t /\ t < 0.5.
Proof.
  intros Hb. unfold easeInOutCubic. rewrite Hb. split; [reflexivity|].
  apply Qnot_le_lt. intros Hle. apply Qle_bool_iff in Hle.
  unfold Qltb in Hb. rewrite Hle in Hb. discriminate.
Qed.

Lemma ease_high (t : Q) :
  Qltb t 0.5 = false ->
  easeInOutCubic t
  == 1 - (2 - 2 * t) * (2 - 2 * t) * (2 - 2 * t) * (1 # 2)
  /\ 0.5 <= t.
Proof.
  intros Hb. unfold easeInOutCubic. rewrite Hb. split.
  - change ((-2 * t + 2) ^ 3) with ((-2 * t + 2) * ((-2 * t + 2) * (-2 * t + 2))).
    unfold Qdiv. change (/ 2) with (1 # 2). ring.
  - unfold Qltb in Hb. apply negb_false_iff in Hb. now apply Qle_bool_iff.
Qed.

Lemma ease_ge_0 (t : Q) : 0 <= t <= 1 -> 0 <= easeInOutCubic t.
Proof.
  intros [Hlo Hhi]. destruct (Qltb t 0.5) eqn:Hb.
  - destruct (ease_low t Hb) as [-> _].
    pose proof (cube_mono 0 t (Qle_refl 0) Hlo) as Hc. lra.
  - destruct (ease_high t Hb) as [-> Hhalf].
    assert (Hw : 2 - 2 * t <= 1) by lra.
    assert (Hw0 : 0 <= 2 - 2 * t) by lra.
    pose proof (cube_mono (2 - 2 * t) 1 Hw0 Hw) as Hc. lra.
Qed.

Lemma ease_mono (s t : Q) :
  0 <= s -> s <= t -> t <= 1 -> easeInOutCubic s <= easeInOutCubic t.
Proof.
  intros Hs Hst Ht.
  destruct (Qltb s 0.5) eqn:Hbs; destruct (Qltb t 0.5) eqn:Hbt.
  - destruct (ease_low s Hbs) as [-> _]. destruct (ease_low t Hbt) as [-> _].
    pose proof (cube_mono s t Hs Hst). lra.
  - destruct (ease_low s Hbs) as [-> Hslt].
    destruct (ease_high t Hbt) as [-> Hthalf].
    assert (Hw0 : 0 <= 2 - 2 * t) by lra.
    assert (Hw1 : 2 - 2 * t <= 1) by lra.
    pose proof (cube_mono (2 - 2 * t) 1 Hw0 Hw1) as Hc1.
    assert (Hs12 : s <= 1 # 2) by lra.
    pose proof (cube_mono s (1 # 2) Hs Hs12) as Hc2.
    assert (Heighth : (1 # 2) * (1 # 2) * (1 # 2) == 1 # 8) by reflexivity.
    lra.
  - destruct (ease_high s Hbs) as [_ Hshalf].
    destruct (ease_low t Hbt) as [_ Htlt]. lra.
  - destruct (ease_high s Hbs) as [-> _]. destruct (ease_high t Hbt) as [-> _].
    assert (Hw0 : 0 <= 2 - 2 * t) by lra.
    assert (Hwu : 2 - 2 * t <= 2 - 2 * s) by lra.
    pose proof (cube_mono (2 - 2 * t) (2 - 2 * s) Hw0 Hwu). lra.
Qed.

(** X6. [easeInOutCubic] maps [0,1] into [0,1], fixes 0, 1/2 and 1, and
    never decreases on [0,1]. *)
Theorem easeInOutCubic_monotone :
  forall s t,
    0 <= s -> s <= t -> t <= 1 ->
    easeInOutCubic s <= easeInOutCubic t
    /\ 0 <= easeInOutCubic s /\ easeInOutCubic t <= 1
    /\ easeInOutCubic 0 == 0 /\ easeInOutCubic 0.5 == 0.5
    /\ easeInOutCubic 1 == 1.
Proof.
  intros s t Hs Hst Ht.
  split; [now apply ease_mono|].
  split; [apply ease_ge_0; split; lra|].
  split; [apply ease_le_1; split; lra|].
  repeat split.
Qed.

Lemma easeInOutCubic_monotone_witness :
  easeInOutCubic 0.25 <= easeInOutCubic 0.75.
Proof.
  apply (easeInOutCubic_monotone 0.25 0.75); discriminate.
Defined.

Lemma clamp_mono (x y lo hi : Q) : x <= y -> clamp x lo hi <= clamp y lo hi.
Proof.
  intros Hxy. unfold clamp.
  apply Q.max_le_compat_l. now apply Q.min_le_compat_l.
Qed.

(** X7. The blend window is between 0.1 s and 1.8 s for every value of the
    Motion Blend control, and a higher control value never gives a longer
    window. *)
Theorem motionBlendDurationSec_range :
  forall G1 G2,
    transitionSpeed G1 <= transitionSpeed G2 ->
    motionBlendDurationSec G2 <= motionBlendDurationSec G1
    /\ 0.1 <= motionBlendDurationSec G1 <= 1.8.
Proof.
  intros G1 G2 Hle. unfold motionBlendDurationSec, lerp.
  assert (Hc : clamp (transitionSpeed G1 / 100) 0 1
               <= clamp (transitionSpeed G2 / 100) 0 1).
  { apply clamp_mono. unfold Qdiv. apply Qmult_le_compat_r;
      [exact Hle | discriminate]. }
  destruct (clamp_unit_bounds (transitionSpeed G1 / 100)) as [H1lo H1hi].
  set (c1 := clamp (transitionSpeed G1 / 100) 0 1) in *.
  set (c2 := clamp (transitionSpeed G2 / 100) 0 1) in *.
  repeat split; lra.
Qed.

Lemma motionBlendDurationSec_range_witness :
  motionBlendDurationSec (sample_globals 30 true)
  <= motionBlendDurationSec
       (mkGlobals 1920 1080 1 30 50 100 true (rgb 0 0 255) (rgb 255 255 255)
                  true 10).
Proof.
  apply (motionBlendDurationSec_range
           (mkGlobals 1920 1080 1 30 50 100 true (rgb 0 0 255)
                      (rgb 255 255 255) true 10)
           (sample_globals 30 true)).
  discriminate.
Defined.

(* ------------------------------------------------------------------ *)
(** ** Motion paths *)

Lemma Qfloor_unique (x : Q) (k : Z) :
  inject_Z k <= x -> x < inject_Z k + 1 -> Qfloor x = k.
Proof.
  intros Hlo Hhi.
  pose proof (Qfloor_le x) as Hfl. pose proof (Qlt_floor x) as Hlt.
  rewrite inject_Z_plus in Hlt. change (inject_Z 1) with 1 in Hlt.
  assert (H1 : (Qfloor x < k + 1)%Z).
  { rewrite Zlt_Qlt, inject_Z_plus. change (inject_Z 1) with 1. lra. }
  assert (H2 : (k < Qfloor x + 1)%Z).
  { rewrite Zlt_Qlt, inject_Z_plus. change (inject_Z 1) with 1. lra. }
  lia.
Qed.

Lemma js_rem_1_nonneg (x : Q) :
  0 <= x -> js_rem x 1 == x - inject_Z (Qfloor x).
Proof.
  intros Hx. unfold js_rem.
  assert (Hdiv : x / 1 == x) by (unfold Qdiv; change (/ 1) with 1; ring).
  rewrite (Qtrunc_comp _ _ Hdiv). unfold Qtrunc.
  apply Qle_bool_iff in Hx. rewrite Hx. ring.
Qed.

Lemma js_rem_1_integer_shift (x : Q) :
  exists k : Z, js_rem x 1 == x - inject_Z k.
Proof.
  exists (Qtrunc (x / 1)). unfold js_rem. ring.
Qed.

(** The phase as [motionPos] reduces it: the fractional part, for negative
    phases too. *)
Lemma reduced_phase (p : Q) :
  js_rem (js_rem p 1 + 1) 1 == p - inject_Z (Qfloor p).
Proof.
  destruct (js_rem_1_range p) as [Hlo Hhi].
  destruct (js_rem_1_integer_shift p) as [k1 Hk1].
  set (y := js_rem p 1) in *.
  assert (Hz : 0 <= y + 1) by lra.
  rewrite (js_rem_1_nonneg _ Hz).
  pose proof (Qfloor_le (y + 1)) as Hfl. pose proof (Qlt_floor (y + 1)) as Hlt.
  rewrite inject_Z_plus in Hlt. change (inject_Z 1) with 1 in Hlt.
  set (k2 := Qfloor (y + 1)) in *.
  assert (Hfloor : Qfloor p = (k1 + k2 - 1)%Z).
  { apply Qfloor_unique;
      unfold Z.sub; rewrite !inject_Z_plus;
      change (inject_Z (- (1))) with (-1); lra. }
  rewrite Hfloor. unfold Z.sub. rewrite !inject_Z_plus.
  change (inject_Z (- (1))) with (-1). lra.
Qed.

Lemma reduced_phase_range (p : Q) :
  0 <= js_rem (js_rem p 1 + 1) 1 /\ js_rem (js_rem p 1 + 1) 1 < 1.
Proof.
  rewrite reduced_phase.
  pose proof (Qfloor_le p) as Hfl. pose proof (Qlt_floor p) as Hlt.
  rewrite inject_Z_plus in Hlt. change (inject_Z 1) with 1 in Hlt.
  split; lra.
Qed.

(** A path position is a function of the reduced phase. *)
Lemma motionPos_by_reduced (io : Host) (mode : string) (p p' rad : Q) :
  js_rem (js_rem p 1 + 1) 1 == js_rem (js_rem p' 1 + 1) 1 ->
  Qeq2 (motionPos io mode p rad) (motionPos io mode p' rad).
Proof.
  intros Ht. unfold motionPos.
  set (t := js_rem (js_rem p 1 + 1) 1) in *.
  set (t' := js_rem (js_rem p' 1 + 1) 1) in *.
  destruct (String.eqb mode "off"); [split; reflexivity|].
  destruct (String.eqb mode "circle").
  { unfold cosJ, sinJ.
    assert (Hang : Qred (t * Math_PI * 2) = Qred (t' * Math_PI * 2))
      by (apply Qred_complete; now rewrite Ht).
    rewrite Hang. split; reflexivity. }
  destruct (String.eqb mode "square").
  { assert (Hs : t * 4 == t' * 4) by now rewrite Ht.
    rewrite (Qfloor_comp _ _ Hs).
    split; cbn [fst snd]; apply lerp_comp; now rewrite Hs. }
  assert (Hs : t * 3 == t' * 3) by now rewrite Ht.
  rewrite (Qfloor_comp _ _ Hs).
  split; cbn [fst snd]; apply lerp_comp; now rewrite Hs.
Qed.

(** X8. [motionPos] reduces any phase, negative ones included, to its
    fractional part in [0,1), so every path is periodic: shifting the
    phase by a whole number of cycles gives the same position. *)
Theorem motionPos_periodic :
  forall io mode p rad (n : Z),
    Qeq2 (motionPos io mode (p + inject_Z n) rad) (motionPos io mode p rad)
    /\ js_rem (js_rem p 1 + 1) 1 == p - inject_Z (Qfloor p)
    /\ 0 <= js_rem (js_rem p 1 + 1) 1 < 1.
Proof.
  intros io mode p rad n.
  split; [|split; [apply reduced_phase | apply reduced_phase_range]].
  apply motionPos_by_reduced. rewrite !reduced_phase.
  assert (Hfloor : Qfloor (p + inject_Z n) = (Qfloor p + n)%Z).
  { pose proof (Qfloor_le p) as Hfl. pose proof (Qlt_floor p) as Hlt.
    rewrite inject_Z_plus in Hlt. change (inject_Z 1) with 1 in Hlt.
    apply Qfloor_unique; rewrite inject_Z_plus; lra. }
  rewrite Hfloor, inject_Z_plus. ring.
Qed.

Lemma lerp_between (x y t : Q) :
  0 <= t -> t <= 1 ->
  Qmin x y <= lerp x y t /\ lerp x y t <= Qmax x y.
Proof.
  intros Ht0 Ht1. unfold lerp.
  destruct (Qlt_le_dec x y) as [Hxy | Hyx].
  - assert (Hd : 0 <= y - x) by lra.
    pose proof (Qmult_le_0_compat _ _ Hd Ht0) as Hp0.
    assert (Hu : 0 <= 1 - t) by lra.
    pose proof (Qmult_le_0_compat _ _ Hd Hu) as Hp1.
    rewrite (Q.min_l x y) by lra. rewrite (Q.max_r x y) by lra.
    split; lra.
  - assert (Hd : 0 <= x - y) by lra.
    pose proof (Qmult_le_0_compat _ _ Hd Ht0) as Hp0.
    assert (Hu : 0 <= 1 - t) by lra.
    pose proof (Qmult_le_0_compat _ _ Hd Hu) as Hp1.
    rewrite (Q.min_r x y) by lra. rewrite (Q.max_l x y) by lra.
    split; lra.
Qed.

Ltac vertex_lookup :=
  repeat match goal with
         | |- context [vertex ?P ?k] =>
             let i := eval compute in (Z.to_nat k) in
             change (vertex P k) with (nth i P (0, 0))
         end;
  cbn [nth fst snd].

Lemma segment_index (t : Q) (n : Z) :
  0 <= t -> t < 1 -> (0 < n)%Z ->
  (0 <= Qfloor (t * inject_Z n) < n)%Z
  /\ 0 <= t * inject_Z n - inject_Z (Qfloor (t * inject_Z n))
  /\ t * inject_Z n - inject_Z (Qfloor (t * inject_Z n)) < 1.
Proof.
  intros Ht0 Ht1 Hn.
  assert (Hnq : 0 < inject_Z n).
  { change 0 with (inject_Z 0). now rewrite <- Zlt_Qlt. }
  set (s := t * inject_Z n).
  assert (Hs0 : 0 <= s) by (subst s; apply Qmult_le_0_compat; lra).
  assert (Hs1 : s < inject_Z n).
  { subst s.
    setoid_replace (inject_Z n) with (1 * inject_Z n) at 2 by ring.
    now apply Qmult_lt_compat_r. }
  pose proof (Qfloor_le s) as Hfl. pose proof (Qlt_floor s) as Hlt.
  rewrite inject_Z_plus in Hlt. change (inject_Z 1) with 1 in Hlt.
  split; [split|split; lra].
  - change 0%Z with (Qfloor 0). now apply Qfloor_resp_le.
  - rewrite Zlt_Qlt. lra.
Qed.

(** The two table reads of the square and triangle paths are always
    inside their table: the checked [motionPos] never fails and returns
    what [motionPos] returns. *)
Lemma motionPos_reads_in_range (io : Host) (mode : string) (p rad : Q) :
  motionPos_checked io mode p rad = Some (motionPos io mode p rad).
Proof.
  destruct (reduced_phase_range p) as [Ht0 Ht1].
  unfold motionPos_checked, motionPos.
  destruct (String.eqb mode "off"); [reflexivity|].
  destruct (String.eqb mode "circle"); [reflexivity|].
  set (t := js_rem (js_rem p 1 + 1) 1) in *.
  destruct (String.eqb mode "square"); cbv zeta.
  - destruct (segment_index t 4 Ht0 Ht1 ltac:(lia)) as (Hseg & _).
    change (inject_Z 4) with 4 in *.
    set (seg := Qfloor (t * 4)) in *.
    assert (Hcase : seg = 0%Z \/ seg = 1%Z \/ seg = 2%Z \/ seg = 3%Z) by lia.
    destruct Hcase as [-> | [-> | [-> | ->]]]; reflexivity.
  - destruct (segment_index t 3 Ht0 Ht1 ltac:(lia)) as (Hseg & _).
    change (inject_Z 3) with 3 in *.
    set (seg := Qfloor (t * 3)) in *.
    assert (Hcase : seg = 0%Z \/ seg = 1%Z \/ seg = 2%Z) by lia.
    destruct Hcase as [-> | [-> | ->]]; reflexivity.
Qed.

(** X9. For a radius [r >= 0] the square path stays on the boundary of the
    square of half-side [r] (one coordinate is [r] or [-r], the other is
    between them), the triangle path stays inside that square, and the
    "off" path is the origin; and for every mode and phase the vertex
    tables are read inside their range: [motionPos] with its two table
    reads checked never fails and gives the same position. *)
Theorem polygon_paths_in_square :
  forall io p rad,
    0 <= rad ->
    (let pos := motionPos io "square" p rad in
     (- rad <= fst pos <= rad /\ - rad <= snd pos <= rad)
     /\ (fst pos == rad \/ fst pos == - rad
         \/ snd pos == rad \/ snd pos == - rad))
    /\ (let pos := motionPos io "triangle" p rad in
        - rad <= fst pos <= rad /\ - rad <= snd pos <= rad)
    /\ motionPos io "off" p rad = (0, 0)
    /\ (forall mode,
          motionPos_checked io mode p rad = Some (motionPos io mode p rad)).
Proof.
  intros io p rad Hrad.
  destruct (reduced_phase_range p) as [Ht0 Ht1].
  split; [|split; [|split;
                    [reflexivity
                    |intros mode; apply motionPos_reads_in_range]]].
  - unfold motionPos. cbn [String.eqb Ascii.eqb Bool.eqb].
    set (t := js_rem (js_rem p 1 + 1) 1) in *.
    destruct (segment_index t 4 Ht0 Ht1 ltac:(lia)) as (Hseg & Hu0 & Hu1).
    change (inject_Z 4) with 4 in *.
    set (seg := Qfloor (t * 4)) in *.
    set (u := t * 4 - inject_Z seg) in *.
    pose proof (Qmult_le_0_compat _ _ Hrad Hu0) as Hp0.
    assert (Hu' : 0 <= 1 - u) by lra.
    pose proof (Qmult_le_0_compat _ _ Hrad Hu') as Hp1.
    assert (Hcase : seg = 0%Z \/ seg = 1%Z \/ seg = 2%Z \/ seg = 3%Z) by lia.
    destruct Hcase as [-> | [-> | [-> | ->]]];
      vertex_lookup; unfold lerp.
    + split; [split; split; lra | left; ring].
    + split; [split; split; lra | right; right; left; ring].
    + split; [split; split; lra | right; left; ring].
    + split; [split; split; lra | right; right; right; ring].
  - unfold motionPos. cbn [String.eqb Ascii.eqb Bool.eqb].
    set (t := js_rem (js_rem p 1 + 1) 1) in *.
    destruct (segment_index t 3 Ht0 Ht1 ltac:(lia)) as (Hseg & Hu0 & Hu1).
    change (inject_Z 3) with 3 in *.
    set (seg := Qfloor (t * 3)) in *.
    set (u := t * 3 - inject_Z seg) in *.
    pose proof (Qmult_le_0_compat _ _ Hrad Hu0) as Hp0.
    assert (Hu' : 0 <= 1 - u) by lra.
    pose proof (Qmult_le_0_compat _ _ Hrad Hu') as Hp1.
    assert (Hcase : seg = 0%Z \/ seg = 1%Z \/ seg = 2%Z) by lia.
    destruct Hcase as [-> | [-> | ->]];
      vertex_lookup; unfold lerp; split; split; lra.
Qed.

Lemma polygon_paths_in_square_witness :
  - (100) <= fst (motionPos (sample_host 0 0.5) "square" 0.3 100) <= 100.
Proof.
  pose proof (polygon_paths_in_square (sample_host 0 0.5) 0.3 100
                ltac:(discriminate)) as [[[Hx _] _] _].
  exact Hx.
Defined.

Lemma blend_duration_positive (G : Globals) :
  0 < motionBlendDurationSec G * 1000.
Proof.
  unfold motionBlendDurationSec, lerp.
  destruct (clamp_unit_bounds (transitionSpeed G / 100)) as [Hlo Hhi].
  set (cl := clamp (transitionSpeed G / 100) 0 1) in *. lra.
Qed.

Lemma ease_at_1 (t : Q) : t == 1 -> easeInOutCubic t == 1.
Proof.
  intros Ht.
  assert (Hb : Qltb t 0.5 = false).
  { unfold Qltb. apply negb_false_iff. apply Qle_bool_iff. rewrite Ht.
    discriminate. }
  destruct (ease_high t Hb) as [-> _].
  setoid_replace (2 - 2 * t) with 0 by (rewrite Ht; reflexivity). ring.
Qed.

Lemma ease_lt_1 (t : Q) : 0 <= t -> t < 1 -> easeInOutCubic t < 1.
Proof.
  intros Ht0 Ht1. destruct (Qltb t 0.5) eqn:Hb.
  - destruct (ease_low t Hb) as [-> Hlt].
    assert (Hhalf : t <= 1 # 2) by lra.
    pose proof (cube_mono t (1 # 2) Ht0 Hhalf) as Hc.
    assert (Heighth : (1 # 2) * (1 # 2) * (1 # 2) == 1 # 8) by reflexivity.
    lra.
  - destruct (ease_high t Hb) as [-> _].
    assert (Hw : 0 < 2 - 2 * t) by lra.
    pose proof (Qmult_lt_0_compat _ _ Hw Hw) as Hww.
    pose proof (Qmult_lt_0_compat _ _ Hww Hw) as Hwww.
    lra.
Qed.

(** The eased factor reaches 1 exactly when the window has elapsed. *)
Lemma blend_factor_done (G : Globals) (elapsed : Q) :
  Qgeb (easeInOutCubic
          (clamp (elapsed / (motionBlendDurationSec G * 1000)) 0 1)) 1 = true
  <-> motionBlendDurationSec G * 1000 <= elapsed.
Proof.
  pose proof (blend_duration_positive G) as Hdur.
  set (dur := motionBlendDurationSec G * 1000) in *.
  rewrite Qgeb_le. split.
  - intros Hdone.
    destruct (Qlt_le_dec elapsed dur) as [Hearly | Hlate]; [|exact Hlate].
    exfalso.
    assert (Hfrac : elapsed / dur < 1).
    { apply Qlt_shift_div_r; [exact Hdur | lra]. }
    destruct (clamp_unit_bounds (elapsed / dur)) as [Hc0 _].
    assert (Hc1 : clamp (elapsed / dur) 0 1 < 1).
    { destruct (Qlt_le_dec (elapsed / dur) 0) as [Hneg | Hpos].
      - assert (Hz : clamp (elapsed / dur) 0 1 == 0).
        { unfold clamp. apply Q.max_l.
          apply Qle_trans with (elapsed / dur); [apply Q.le_min_r | lra]. }
        rewrite Hz. reflexivity.
      - rewrite clamp_inside; [exact Hfrac | exact Hpos | lra]. }
    pose proof (ease_lt_1 _ Hc0 Hc1) as Hlt. lra.
  - intros Hlate.
    assert (Hfrac : 1 <= elapsed / dur).
    { apply Qle_shift_div_l; [exact Hdur | lra]. }
    assert (Hone : clamp (elapsed / dur) 0 1 == 1).
    { unfold clamp.
      assert (Hmin : Qmin 1 (elapsed / dur) == 1) by now apply Q.min_l.
      rewrite Q.max_r; [exact Hmin | rewrite Hmin; discriminate]. }
    rewrite (ease_at_1 _ Hone). apply Qle_refl.
Qed.

(** X10. Once the blend window has elapsed, a running blend ends in that
    frame: "from" is set to the target, [motionBlending] is off and the
    offset is the target path's position.  As long as the eased blend
    factor is below 1 the blend goes on with its "from" path untouched.
    The target is never changed. *)
Theorem blend_completes_when_window_elapsed :
  forall G io tNow dt ms,
    motionBlending ms = true ->
    (motionBlendDurationSec G * 1000 <= tNow - motionBlendStart ms ->
     motionBlending (state_before G io tNow dt ms) = false
     /\ motionFromMode (state_before G io tNow dt ms) = motionToMode ms
     /\ Qeq2 (offset_before G io tNow dt ms)
             (motionPos io (motionToMode ms)
                        (motionPhase (state_before G io tNow dt ms))
                        (motion_radius G)))
    /\ (easeInOutCubic
          (clamp ((tNow - motionBlendStart ms)
                  / (motionBlendDurationSec G * 1000)) 0 1) < 1 ->
        motionBlending (state_before G io tNow dt ms) = true
        /\ motionFromMode (state_before G io tNow dt ms) = motionFromMode ms)
    /\ motionToMode (state_before G io tNow dt ms) = motionToMode ms.
Proof.
  intros G io tNow dt ms Hblend.
  pose proof (blend_factor_done G (tNow - motionBlendStart ms)) as Hdone.
  split; [|split; [|apply state_before_target]].
  - intros Hlate. apply Hdone in Hlate.
    assert (Hoff : motionBlending (state_before G io tNow dt ms) = false).
    { unfold state_before, computeMotionOffset. rewrite Hblend, Hlate.
      reflexivity. }
    split; [exact Hoff|]. split.
    + unfold state_before, computeMotionOffset. rewrite Hblend, Hlate.
      reflexivity.
    + now apply offset_when_settled.
  - intros Hearly.
    assert (Hnot : Qgeb (easeInOutCubic
                           (clamp ((tNow - motionBlendStart ms)
                                   / (motionBlendDurationSec G * 1000)) 0 1))
                        1 = false).
    { apply not_true_is_false. intros Hb. apply Qgeb_le in Hb. lra. }
    unfold state_before, computeMotionOffset. rewrite Hblend, Hnot.
    split; reflexivity.
Qed.

Lemma blend_completes_when_window_elapsed_witness :
  motionBlending (state_before (sample_globals 0 true) (sample_host 0 0.5)
                               900 0.016 motion_to_square) = false.
Proof.
  pose proof (blend_completes_when_window_elapsed (sample_globals 0 true)
                (sample_host 0 0.5) 900 0.016 motion_to_square eq_refl)
    as [Hlate _].
  apply Hlate. vm_compute. discriminate.
Defined.

Lemma cps_range (G : Globals) :
  0 <= lerp 0 0.22 (clamp (presetSpeed G / 100) 0 1) <= 0.22.
Proof.
  unfold lerp.
  destruct (clamp_unit_bounds (presetSpeed G / 100)) as [Hlo Hhi].
  set (cl := clamp (presetSpeed G / 100) 0 1) in *. split; lra.
Qed.

(** X11. The motion phase stays in [0,1): from any phase [>= 0] and any
    frame time [dt >= 0] the phase after [computeMotionOffset] is in
    [0,1); and at speed 0 (or below) a phase in [0,1) does not move. *)
Theorem motionPhase_stays_reduced :
  forall G io tNow dt ms,
    0 <= motionPhase ms -> 0 <= dt ->
    (0 <= motionPhase (state_before G io tNow dt ms) < 1)
    /\ (presetSpeed G <= 0 -> motionPhase ms < 1 ->
        motionPhase (state_before G io tNow dt ms) == motionPhase ms).
Proof.
  intros G io tNow dt ms Hphase Hdt.
  assert (Hval : motionPhase (state_before G io tNow dt ms)
                 = js_rem (motionPhase ms
                           + dt * lerp 0 0.22 (clamp (presetSpeed G / 100) 0 1))
                          1).
  { unfold state_before, computeMotionOffset.
    destruct (motionBlending ms); [destruct (Qgeb _ 1)|]; reflexivity. }
  rewrite Hval.
  destruct (cps_range G) as [Hc0 Hc1].
  set (cps := lerp 0 0.22 (clamp (presetSpeed G / 100) 0 1)) in *.
  pose proof (Qmult_le_0_compat _ _ Hdt Hc0) as Hadv.
  assert (Hx : 0 <= motionPhase ms + dt * cps) by lra.
  rewrite (js_rem_1_nonneg _ Hx).
  pose proof (Qfloor_le (motionPhase ms + dt * cps)) as Hfl.
  pose proof (Qlt_floor (motionPhase ms + dt * cps)) as Hlt.
  rewrite inject_Z_plus in Hlt. change (inject_Z 1) with 1 in Hlt.
  split; [split; lra|].
  intros Hstill Hlt1.
  assert (Hzero : cps == 0).
  { subst cps. unfold lerp.
    assert (Hcl : clamp (presetSpeed G / 100) 0 1 == 0).
    { unfold clamp. apply Q.max_l.
      apply Qle_trans with (presetSpeed G / 100); [apply Q.le_min_r|].
      unfold Qdiv. change (/ 100) with (1 # 100). lra. }
    rewrite Hcl. ring. }
  assert (Hsame : motionPhase ms + dt * cps == motionPhase ms)
    by (rewrite Hzero; ring).
  rewrite (Qfloor_comp _ _ Hsame), (Qfloor_unit _ Hphase Hlt1), Hsame.
  change (inject_Z 0) with 0. ring.
Qed.

Lemma motionPhase_stays_reduced_witness :
  0 <= motionPhase (state_before (sample_globals 100 true) (sample_host 0 0.5)
                                 16 0.05 motion_initial) < 1.
Proof.
  apply (motionPhase_stays_reduced (sample_globals 100 true)
           (sample_host 0 0.5) 16 0.05 motion_initial); discriminate.
Defined.

(** The eased factor of a frame, whatever the blender's state. *)
Lemma offset_is_lerp (G : Globals) (io : Host) (tNow dt : Q)
      (ms : MotionState) :
  exists blend,
    0 <= blend /\ blend <= 1
    /\ offset_before G io tNow dt ms
       = (lerp (fst (motionPos io (motionFromMode ms)
                       (motionPhase (state_before G io tNow dt ms))
                       (motion_radius G)))
               (fst (motionPos io (motionToMode ms)
                       (motionPhase (state_before G io tNow dt ms))
                       (motion_radius G))) blend,
          lerp (snd (motionPos io (motionFromMode ms)
                       (motionPhase (state_before G io tNow dt ms))
                       (motion_radius G)))
               (snd (motionPos io (motionToMode ms)
                       (motionPhase (state_before G io tNow dt ms))
                       (motion_radius G))) blend).
Proof.
  unfold offset_before, state_before, computeMotionOffset, motion_radius.
  destruct (motionBlending ms).
  - set (blend := easeInOutCubic _).
    assert (Hb : 0 <= blend /\ blend <= 1).
    { subst blend. split; [apply ease_ge_0 | apply ease_le_1];
        apply clamp_unit_bounds. }
    exists blend. destruct Hb as [Hb0 Hb1].
    destruct (Qgeb blend 1); repeat split; assumption.
  - exists 1. repeat split; discriminate.
Qed.

(** X12. The offset of a frame always lies between the "from" path's and
    the target path's positions at the current phase, coordinate by
    coordinate: a blend never overshoots either path. *)
Theorem offset_between_paths :
  forall G io tNow dt ms,
    let phase := motionPhase (state_before G io tNow dt ms) in
    let from := motionPos io (motionFromMode ms) phase (motion_radius G) in
    let to := motionPos io (motionToMode ms) phase (motion_radius G) in
    let off := offset_before G io tNow dt ms in
    (Qmin (fst from) (fst to) <= fst off <= Qmax (fst from) (fst to))
    /\ (Qmin (snd from) (snd to) <= snd off <= Qmax (snd from) (snd to)).
Proof.
  intros G io tNow dt ms phase from to off.
  destruct (offset_is_lerp G io tNow dt ms) as (blend & Hb0 & Hb1 & Hoff).
  subst off. rewrite Hoff. cbn [fst snd]. fold phase. fold from. fold to.
  split; apply lerp_between; assumption.
Qed.

(** X13. A request for the mode that is already the target changes
    nothing, so repeating a request does not restart its blend window; and
    after any request the target is the requested mode. *)
Theorem setMotionMode_repeat :
  forall t1 t2 next ms,
    setMotionMode t2 next (setMotionMode t1 next ms) = setMotionMode t1 next ms
    /\ motionToMode (setMotionMode t1 next ms) = next
    /\ (next = motionToMode ms -> setMotionMode t1 next ms = ms).
Proof.
  intros t1 t2 next ms. unfold setMotionMode.
  destruct (String.eqb_spec next (motionToMode ms)) as [Heq | Hne].
  - rewrite <- Heq, String.eqb_refl. repeat split.
  - cbn [motionToMode]. rewrite String.eqb_refl.
    repeat split. intros Heq. contradiction.
Qed.

(* ------------------------------------------------------------------ *)
(** ** Resize *)

(** X14. Whatever the window reports (zero or negative sizes, a missing
    device pixel ratio), [resize] leaves a device pixel ratio between 1 and
    2 and a drawable width of at least 320 world units, clears the canvas
    with one [fillRect], and switches a running blend off without touching
    its paths, so the next offset is the target path's position. *)
Theorem resize_establishes_geometry :
  forall win G ms s io tNow dt,
    let G' := snd (fst (fst (resize win G ms s))) in
    let ms' := snd (fst (resize win G ms s)) in
    let s' := snd (resize win G ms s) in
    (1 <= DPR G' <= 2)
    /\ 320 <= visualW G' / DPR G'
    /\ canvas s' = canvas s ++ [FillRect]
    /\ motionBlending ms' = false
    /\ motionFromMode ms' = motionFromMode ms
    /\ motionToMode ms' = motionToMode ms
    /\ Qeq2 (offset_before G' io tNow dt ms')
            (motionPos io (motionToMode ms)
                       (motionPhase (state_before G' io tNow dt ms'))
                       (motion_radius G')).
Proof.
  intros win G ms s io tNow dt G' ms' s'.
  assert (Hdpr : 1 <= DPR G' <= 2).
  { subst G'. unfold resize. cbn [fst snd DPR].
    apply (clamp_bounds (or_else (devicePixelRatio win) 1) 1 2). discriminate. }
  split; [exact Hdpr|]. split.
  { subst G'. unfold resize in *. cbn [fst snd DPR visualW] in *.
    set (dpr := Qmax 1 (Qmin 2 (or_else (devicePixelRatio win) 1))) in *.
    apply Qle_shift_div_l; [lra | apply Q.le_max_l]. }
  split; [reflexivity|]. split; [reflexivity|].
  split; [reflexivity|]. split; [reflexivity|].
  change (motionToMode ms) with (motionToMode ms').
  apply offset_when_settled.
  unfold state_before, computeMotionOffset. reflexivity.
Qed.

(* ------------------------------------------------------------------ *)
(** ** Spotlights *)

Lemma ballR_range (G : Globals) : 20 <= ballR G <= 150.
Proof.
  unfold ballR, Math_floor, lerp.
  destruct (clamp_unit_bounds ((presetSize G + 1) / 100)) as [Hlo Hhi].
  set (cl := clamp ((presetSize G + 1) / 100) 0 1) in *.
  set (x := 300 + (40 - 300) * cl).
  assert (Hx : 40 <= x <= 300) by (subst x; split; lra).
  assert (Hf1 : (40 <= Qfloor x)%Z).
  { change 40%Z with (Qfloor 40). apply Qfloor_resp_le. apply Hx. }
  assert (Hf2 : (Qfloor x <= 300)%Z).
  { change 300%Z with (Qfloor 300). apply Qfloor_resp_le. apply Hx. }
  rewrite Zle_Qle in Hf1, Hf2.
  change (inject_Z 40) with 40 in Hf1. change (inject_Z 300) with 300 in Hf2.
  unfold Qdiv. change (/ 2) with (1 # 2). split; lra.
Qed.

Lemma moveScale_range (G : Globals) :
  0 <= lerp 0 1 (clamp ((presetSpeed G + 1) / 100) 0 1) <= 1.
Proof.
  unfold lerp.
  destruct (clamp_unit_bounds ((presetSpeed G + 1) / 100)) as [Hlo Hhi].
  set (cl := clamp ((presetSpeed G + 1) / 100) 0 1) in *. split; lra.
Qed.

Lemma step_speed (G : Globals) (k : Kreis) :
  Qabs (spdX (step G k)) == Qabs (spdX k)
  /\ Qabs (spdY (step G k)) == Qabs (spdY k).
Proof.
  unfold step.
  destruct (Qle_bool (posX k) (ballR G));
    [|destruct (Qgeb (posX k) (visualW G / DPR G - ballR G))];
    (destruct (Qle_bool (posY k) (ballR G));
     [|destruct (Qgeb (posY k) (H G / DPR G - ballR G))]);
    cbn [spdX spdY]; split;
    first [reflexivity | apply Qabs_opp].
Qed.

(** X15. Every spotlight is created with both speed components in
    [10,30), given random values in [0,1), and [step] only ever flips their
    signs: after any number of steps, under any settings, each component
    still has its original magnitude. *)
Theorem spotlight_speed_is_kept :
  forall G G' io k n,
    (forall j, 0 <= Math_random io j /\ Math_random io j < 1) ->
    let ball := Nat.iter n (step G') (Kreis_new G io k) in
    (10 <= Qabs (spdX ball) /\ Qabs (spdX ball) < 30)
    /\ (10 <= Qabs (spdY ball) /\ Qabs (spdY ball) < 30)
    /\ Qabs (spdX ball) == Qabs (spdX (Kreis_new G io k))
    /\ Qabs (spdY ball) == Qabs (spdY (Kreis_new G io k)).
Proof.
  intros G G' io k n Hrnd ball.
  assert (Hkeep : Qabs (spdX ball) == Qabs (spdX (Kreis_new G io k))
                  /\ Qabs (spdY ball) == Qabs (spdY (Kreis_new G io k))).
  { subst ball. induction n as [|n IH]; [split; reflexivity|].
    cbn [Nat.iter]. destruct IH as [IHx IHy].
    destruct (step_speed G' (Nat.iter n (step G') (Kreis_new G io k)))
      as [Hx Hy].
    split; [now rewrite Hx | now rewrite Hy]. }
  destruct Hkeep as [Hx Hy].
  destruct (Hrnd (k + 2)%nat) as [Hr2 Hr2']. destruct (Hrnd (k + 3)%nat)
    as [Hr3 Hr3'].
  assert (Hsx : Qabs (spdX (Kreis_new G io k))
                == 10 + Math_random io (k + 2) * 20).
  { cbn [Kreis_new spdX]. apply Qabs_pos. lra. }
  assert (Hsy : Qabs (spdY (Kreis_new G io k))
                == 10 + Math_random io (k + 3) * 20).
  { cbn [Kreis_new spdY]. apply Qabs_pos. lra. }
  repeat split; try assumption; rewrite ?Hx, ?Hy, ?Hsx, ?Hsy; lra.
Qed.

Lemma spotlight_speed_is_kept_witness :
  10 <= Qabs (spdX (Nat.iter 3 (step (sample_globals 30 true))
                             (Kreis_new (sample_globals 30 true)
                                        (sample_host 0 0.5) 0))).
Proof.
  pose proof (spotlight_speed_is_kept (sample_globals 30 true)
                (sample_globals 30 true) (sample_host 0 0.5) 0%nat 3%nat)
    as Hkeep.
  cbv zeta in Hkeep.
  refine (proj1 (proj1 (Hkeep _))).
  intros j. split; [discriminate | reflexivity].
Defined.

(** X16. On a canvas at least two ball radii wide, a stepped spotlight is
    never farther outside the bounds [ballR, w - ballR] than one stride
    (its speed magnitude), and the radius it is drawn with is between 20
    and 150.  A ball found at or beyond the left bound has its horizontal
    speed negated whatever its direction: if it was moving left it ends on
    or right of the bound, moving right; if it was moving right it ends on
    or left of the bound, moving left. *)
Theorem spotlight_stays_near_bounds :
  forall G k,
    2 * ballR G <= visualW G / DPR G ->
    (ballR G - Qabs (spdX k) <= posX (step G k)
     /\ posX (step G k) <= visualW G / DPR G - ballR G + Qabs (spdX k))
    /\ (20 <= ballR G <= 150)
    /\ (posX k <= ballR G ->
        spdX (step G k) = - spdX k
        /\ (spdX k <= 0 ->
            ballR G <= posX (step G k) /\ 0 <= spdX (step G k))
        /\ (0 <= spdX k ->
            posX (step G k) <= ballR G /\ spdX (step G k) <= 0)).
Proof.
  intros G k Hwide.
  destruct (moveScale_range G) as [Hm0 Hm1].
  pose proof (ballR_range G) as HR.
  pose proof (Qabs_nonneg (spdX k)) as Habs0.
  pose proof (Qle_Qabs (spdX k)) as Hle1.
  pose proof (Qle_Qabs (- spdX k)) as Hle2. rewrite Qabs_opp in Hle2.
  unfold step.
  set (ms := lerp 0 1 (clamp ((presetSpeed G + 1) / 100) 0 1)) in *.
  set (w := visualW G / DPR G) in *.
  set (R := ballR G) in *.
  set (ab := Qabs (spdX k)) in *.
  assert (Hstride : forall sx, - ab <= sx -> sx <= ab ->
                               - ab <= ms * sx /\ ms * sx <= ab).
  { intros sx Hs1 Hs2.
    assert (H1 : 0 <= ms * (ab - sx)) by (apply Qmult_le_0_compat; lra).
    assert (H2 : 0 <= ms * (ab + sx)) by (apply Qmult_le_0_compat; lra).
    assert (H3 : 0 <= (1 - ms) * ab) by (apply Qmult_le_0_compat; lra).
    split; lra. }
  destruct (Qle_bool (posX k) R) eqn:Hleft.
  - apply Qle_bool_iff in Hleft.
    destruct (Qle_bool (posY k) R);
      [|destruct (Qgeb (posY k) (H G / DPR G - R))];
      cbn [posX spdX];
      (destruct (Hstride (- spdX k)) as [Hs1 Hs2]; [lra | lra |]);
      (split; [split; lra|]; split; [exact HR|]; intros _;
       split; [reflexivity|]; split; intros Hdir;
       [ assert (Hpos : 0 <= ms * - spdX k)
           by (apply Qmult_le_0_compat; lra)
       | assert (Hpos : 0 <= ms * spdX k)
           by (apply Qmult_le_0_compat; lra) ];
       split; lra).
  - assert (Hin : R < posX k).
    { apply Qnot_le_lt. intros Hle. apply Qle_bool_iff in Hle. congruence. }
    destruct (Qgeb (posX k) (w - R)) eqn:Hright.
    + destruct (Qle_bool (posY k) R);
        [|destruct (Qgeb (posY k) (H G / DPR G - R))];
        cbn [posX spdX];
        (destruct (Hstride (- spdX k)) as [Hs1 Hs2]; [lra | lra |]);
        (split; [split; lra|]; split; [exact HR|]; intros Hout; lra).
    + assert (Hlt : posX k < w - R).
      { apply Qnot_le_lt. intros Hle. apply Qgeb_le in Hle. congruence. }
      destruct (Qle_bool (posY k) R);
        [|destruct (Qgeb (posY k) (H G / DPR G - R))];
        cbn [posX spdX];
        (destruct (Hstride (spdX k)) as [Hs1 Hs2]; [lra | lra |]);
        (split; [split; lra|]; split; [exact HR|]; intros Hout; lra).
Qed.

Lemma spotlight_stays_near_bounds_witness :
  posX (step (sample_globals 30 true) (mkKreis 50 300 (-15) 15))
  <= visualW (sample_globals 30 true) / DPR (sample_globals 30 true)
     - ballR (sample_globals 30 true) + Qabs (-15).
Proof.
  pose proof (spotlight_stays_near_bounds (sample_globals 30 true)
                (mkKreis 50 300 (-15) 15)) as Hnear.
  refine (proj2 (proj1 (Hnear _))). vm_compute. discriminate.
Defined.

(* ------------------------------------------------------------------ *)
(** ** Layout cache *)

Lemma array_set_length (l : list Z) (i : nat) (x : Z) :
  List.length (array_set l i x) = List.length l.
Proof.
  revert i. induction l as [|h t IH]; intros [|i]; cbn; auto.
Qed.

Lemma array_set_same (l : list Z) (i : nat) (x dflt : Z) :
  (i < List.length l)%nat -> nth i (array_set l i x) dflt = x.
Proof.
  revert i. induction l as [|h t IH]; intros [|i] Hi; cbn in *;
    try lia; auto. apply IH. lia.
Qed.

Lemma array_set_other (l : list Z) (i j : nat) (x dflt : Z) :
  i <> j -> nth j (array_set l i x) dflt = nth j l dflt.
Proof.
  revert i j. induction l as [|h t IH]; intros [|i] [|j] Hij; cbn;
    try reflexivity; try congruence. apply IH. congruence.
Qed.

(** A loop that stores [fx i] and [fy i] at index [i] of the two arrays. *)
Lemma fill_loop (fx fy : nat -> Z) (body : nat -> State -> State) :
  (forall i s,
      ranX (body i s) = array_set (ranX s) i (fx i)
      /\ ranY (body i s) = array_set (ranY s) i (fy i)) ->
  forall count from s,
    (from + count <= List.length (ranX s))%nat ->
    (from + count <= List.length (ranY s))%nat ->
    let s' := for_loop from count body s in
    List.length (ranX s') = List.length (ranX s)
    /\ List.length (ranY s') = List.length (ranY s)
    /\ (forall i, (i < from)%nat ->
          nth i (ranX s') 0%Z = nth i (ranX s) 0%Z
          /\ nth i (ranY s') 0%Z = nth i (ranY s) 0%Z)
    /\ (forall i, (from <= i < from + count)%nat ->
          nth i (ranX s') 0%Z = fx i /\ nth i (ranY s') 0%Z = fy i).
Proof.
  intros Hbody count.
  induction count as [|count IH]; intros from s Hx Hy; cbn [for_loop].
  - repeat split; intros; lia.
  - destruct (Hbody from s) as [HbX HbY].
    assert (HlX : List.length (ranX (body from s)) = List.length (ranX s))
      by (rewrite HbX; apply array_set_length).
    assert (HlY : List.length (ranY (body from s)) = List.length (ranY s))
      by (rewrite HbY; apply array_set_length).
    destruct (IH (S from) (body from s) ltac:(lia) ltac:(lia))
      as (H1 & H2 & H3 & H4).
    cbv zeta. split; [congruence|]. split; [congruence|]. split.
    + intros i Hi. destruct (H3 i ltac:(lia)) as [H3x H3y].
      rewrite H3x, H3y, HbX, HbY.
      split; apply array_set_other; lia.
    + intros i Hi.
      destruct (Nat.eq_dec i from) as [-> | Hne].
      * destruct (H3 from ltac:(lia)) as [H3x H3y].
        rewrite H3x, H3y, HbX, HbY.
        split; apply array_set_same; lia.
      * apply H4. lia.
Qed.

Lemma toInt32_small (z : Z) :
  (- 2 ^ 31 <= z < 2 ^ 31)%Z -> toInt32 z = z.
Proof.
  intros Hz. unfold toInt32.
  rewrite Z.mod_small by lia. lia.
Qed.

(** One coordinate of [initDiscoball]. *)
Lemma cloud_coordinate (rnd span : Q) :
  0 <= rnd -> rnd < 1 -> 0 <= span -> span <= 2147483647 ->
  let x := toInt32 (Qfloor ((rnd * 2 - 1) * span)) in
  - span - 1 < inject_Z x /\ inject_Z x <= span.
Proof.
  intros Hr0 Hr1 Hs0 Hs1.
  set (y := (rnd * 2 - 1) * span).
  assert (Hy1 : y <= span).
  { subst y.
    assert (Hp : 0 <= (2 - rnd * 2) * span) by (apply Qmult_le_0_compat; lra).
    lra. }
  assert (Hy0 : - span <= y).
  { subst y.
    assert (Hp : 0 <= (rnd * 2) * span) by (apply Qmult_le_0_compat; lra).
    lra. }
  pose proof (Qfloor_le y) as Hfl. pose proof (Qlt_floor y) as Hlt.
  rewrite inject_Z_plus in Hlt. change (inject_Z 1) with 1 in Hlt.
  assert (Hrange : (- 2 ^ 31 <= Qfloor y < 2 ^ 31)%Z).
  { split.
    - rewrite Zle_Qle. change (inject_Z (- 2 ^ 31)) with (-2147483648).
      apply Qlt_le_weak. lra.
    - rewrite Zlt_Qlt. change (inject_Z (2 ^ 31)) with 2147483648. lra. }
  cbv zeta. rewrite (toInt32_small _ Hrange). split; lra.
Qed.

(** X17. After [initDiscoball] on the 1000-entry arrays, with random values
    in [0,1) and a drawable width whose 0.71-fold fits 32 bits, every one of
    the 1000 points has both coordinates within 0.71 widths of the origin
    (above [-span-1], at most [span]); the arrays keep their length. *)
Theorem initDiscoball_cloud_in_range :
  forall G io s i,
    List.length (ranX s) = 1000%nat ->
    List.length (ranY s) = 1000%nat ->
    (forall j, 0 <= Math_random io j /\ Math_random io j < 1) ->
    0 <= 0.71 * visualW G / DPR G ->
    0.71 * visualW G / DPR G <= 2147483647 ->
    (i < 1000)%nat ->
    let s' := initDiscoball G io s in
    let span := 0.71 * visualW G / DPR G in
    (- span - 1 < inject_Z (nth i (ranX s') 0%Z)
     /\ inject_Z (nth i (ranX s') 0%Z) <= span)
    /\ (- span - 1 < inject_Z (nth i (ranY s') 0%Z)
        /\ inject_Z (nth i (ranY s') 0%Z) <= span)
    /\ List.length (ranX s') = 1000%nat
    /\ List.length (ranY s') = 1000%nat.
Proof.
  intros G io s i HlX HlY Hrnd Hs0 Hs1 Hi s' span.
  subst s'. unfold initDiscoball, for_n. fold span.
  match goal with
  | |- context [for_loop 0 ?n ?body s] =>
      pose proof (fill_loop
        (fun j : nat =>
           toInt32 (Qfloor ((Math_random io (2 * j) * 2 - 1) * span)))
        (fun j : nat =>
           toInt32 (Qfloor ((Math_random io (2 * j + 1) * 2 - 1) * span)))
        body (fun j s0 => conj eq_refl eq_refl) n 0%nat s) as Hfill;
      set (s' := for_loop 0 n body s) in *
  end.
  destruct Hfill as (H1 & H2 & _ & H4).
  { rewrite HlX. apply Nat.le_refl. }
  { rewrite HlY. apply Nat.le_refl. }
  destruct (H4 i (conj (Nat.le_0_l i) Hi)) as [Hx Hy].
  rewrite Hx, Hy.
  destruct (Hrnd (2 * i)%nat) as [Ha0 Ha1].
  destruct (Hrnd (2 * i + 1)%nat) as [Hb0 Hb1].
  split; [apply (cloud_coordinate _ span Ha0 Ha1 Hs0 Hs1)|].
  split; [apply (cloud_coordinate _ span Hb0 Hb1 Hs0 Hs1)|].
  split; congruence.
Qed.

Lemma initDiscoball_cloud_in_range_witness :
  inject_Z (nth 7 (ranX (initDiscoball (sample_globals 30 true)
                                       (sample_host 0 0.75)
                                       (sample_state 8))) 0%Z)
  <= 0.71 * visualW (sample_globals 30 true) / DPR (sample_globals 30 true).
Proof.
  pose proof (initDiscoball_cloud_in_range (sample_globals 30 true)
                (sample_host 0 0.75) (sample_state 8) 7%nat) as Hcloud.
  cbv zeta in Hcloud.
  refine (proj2 (proj1 (Hcloud _ _ _ _ _ _))).
  - reflexivity.
  - reflexivity.
  - intros j. split; [discriminate | reflexivity].
  - discriminate.
  - discriminate.
  - lia.
Defined.

Lemma step_at_length (G : Globals) (l : list Kreis) (i : nat) :
  List.length (step_at G l i) = List.length l.
Proof.
  revert i. induction l as [|k t IH]; intros [|i]; cbn; auto.
Qed.

Lemma fill_body_lengths (fx fy : nat -> Z) (i : nat) (s : State) :
  List.length
    (ranX (set_ranY (array_set (ranY (set_ranX (array_set (ranX s) i (fx i)) s))
                               i (fy i))
                    (set_ranX (array_set (ranX s) i (fx i)) s)))
  = List.length (ranX s)
  /\ List.length
       (ranY (set_ranY
                (array_set (ranY (set_ranX (array_set (ranX s) i (fx i)) s))
                           i (fy i))
                (set_ranX (array_set (ranX s) i (fx i)) s)))
     = List.length (ranY s).
Proof. cbn. split; apply array_set_length. Qed.

Lemma reseed_circles_lengths (G : Globals) (io : Host) (count : nat)
      (s : State) :
  List.length (ranX (reseed_circles G io count s)) = List.length (ranX s)
  /\ List.length (ranY (reseed_circles G io count s)) = List.length (ranY s).
Proof.
  unfold reseed_circles. split.
  - apply (for_n_keeps (fun s0 => List.length (ranX s0))).
    intros i s0. cbn. apply array_set_length.
  - apply (for_n_keeps (fun s0 => List.length (ranY s0))).
    intros i s0. cbn. apply array_set_length.
Qed.

Lemma initDiscoball_lengths (G : Globals) (io : Host) (s : State) :
  List.length (ranX (initDiscoball G io s)) = List.length (ranX s)
  /\ List.length (ranY (initDiscoball G io s)) = List.length (ranY s).
Proof.
  unfold initDiscoball. split.
  - apply (for_n_keeps (fun s0 => List.length (ranX s0))).
    intros i s0. cbn. apply array_set_length.
  - apply (for_n_keeps (fun s0 => List.length (ranY s0))).
    intros i s0. cbn. apply array_set_length.
Qed.

Lemma drawPreset_keeps_layout :
  forall G io idx feats motion s,
    idx <> 9%Z -> idx <> 10%Z ->
    ranX (drawPreset G io idx feats motion s) = ranX s
    /\ ranY (drawPreset G io idx feats motion s) = ranY s.
Proof.
  intros G io idx feats motion s H9 H10. unfold drawPreset.
  destruct (onoff G); [|split; reflexivity]. cbn [negb].
  split; [keeps ranX | keeps ranY]; congruence.
Qed.

Lemma drawPreset_keeps_spotlight :
  forall G io idx feats motion s,
    idx <> 14%Z ->
    spotlight (drawPreset G io idx feats motion s) = spotlight s.
Proof.
  intros G io idx feats motion s H14. unfold drawPreset.
  destruct (onoff G); [|reflexivity]. cbn [negb].
  keeps spotlight; congruence.
Qed.

(** X18. The fixed-size stores keep their size: no frame of any preset and
    no preset switch changes the length of the two layout arrays or of the
    spotlight pool. *)
Theorem stores_keep_their_size :
  forall G io idx feats motion s,
    (List.length (ranX (drawPreset G io idx feats motion s))
     = List.length (ranX s)
     /\ List.length (ranY (drawPreset G io idx feats motion s))
        = List.length (ranY s)
     /\ List.length (spotlight (drawPreset G io idx feats motion s))
        = List.length (spotlight s))
    /\ (List.length (ranX (selectPreset G io idx s)) = List.length (ranX s)
        /\ List.length (ranY (selectPreset G io idx s))
           = List.length (ranY s)
        /\ List.length (spotlight (selectPreset G io idx s))
           = List.length (spotlight s)).
Proof.
  intros G io idx feats motion s. split.
  - split; [|split].
    + destruct (Z.eq_dec idx 9) as [-> | H9];
        [|destruct (Z.eq_dec idx 10) as [-> | H10]].
      * unfold drawPreset. destruct (onoff G); [|reflexivity]. cbn [negb].
        destruct (refresh_due _ _ _ _);
          [rewrite (proj1 (reseed_circles_lengths _ _ _ _))|];
          keeps (fun s0 => List.length (ranX s0)).
      * unfold drawPreset. destruct (onoff G); [|reflexivity]. cbn [negb].
        destruct (refresh_due _ _ _ _);
          [rewrite (proj1 (reseed_circles_lengths _ _ _ _))|];
          keeps (fun s0 => List.length (ranX s0)).
      * now rewrite (proj1 (drawPreset_keeps_layout G io idx feats motion s
                              H9 H10)).
    + destruct (Z.eq_dec idx 9) as [-> | H9];
        [|destruct (Z.eq_dec idx 10) as [-> | H10]].
      * unfold drawPreset. destruct (onoff G); [|reflexivity]. cbn [negb].
        destruct (refresh_due _ _ _ _);
          [rewrite (proj2 (reseed_circles_lengths _ _ _ _))|];
          keeps (fun s0 => List.length (ranY s0)).
      * unfold drawPreset. destruct (onoff G); [|reflexivity]. cbn [negb].
        destruct (refresh_due _ _ _ _);
          [rewrite (proj2 (reseed_circles_lengths _ _ _ _))|];
          keeps (fun s0 => List.length (ranY s0)).
      * now rewrite (proj2 (drawPreset_keeps_layout G io idx feats motion s
                              H9 H10)).
    + destruct (Z.eq_dec idx 14) as [-> | H14].
      * unfold drawPreset. destruct (onoff G); [|reflexivity]. cbn [negb].
        destruct (pingpong_split G _) as [nA nB].
        assert (Hloop : forall n s0,
                   List.length (spotlight (for_n n (fun i s1 =>
                                   step_spotlight G i s1) s0))
                   = List.length (spotlight s0)).
        { intros n s0.
          apply (for_n_keeps (fun s1 => List.length (spotlight s1))).
          intros i s1. unfold step_spotlight. cbn [spotlight set_spotlight].
          apply step_at_length. }
        rewrite <- (Hloop (Z.to_nat (Qfloor (clamp (Math_floor (lerp 4 12
                     (clamp (presetSize G / 100) 0 1))) 4 12))) s).
        destruct (multiColor G); destruct nA, nB; reflexivity.
      * now rewrite (drawPreset_keeps_spotlight G io idx feats motion s H14).
  - unfold selectPreset.
    destruct (_ =? presetNumber s)%Z; [repeat split|].
    destruct (_ =? 8)%Z.
    + destruct (initDiscoball_lengths G (skip_random 1 io)
                  (set_m 0 (set_v (0.2 + Math_random io 0 * 0.8)
                     (set_presetNumber (clampZ idx 0 (presetCount - 1)) s))))
        as [HX HY].
      split; [exact HX|]. split; [exact HY|].
      unfold initDiscoball. keeps spotlight.
    + repeat split.
Qed.

(** X19. An id outside 0..34 draws nothing and changes nothing, whatever
    the master flag says. *)
Theorem drawPreset_unknown_id :
  forall G io idx feats motion s,
    (idx < 0 \/ 34 < idx)%Z ->
    drawPreset G io idx feats motion s = s.
Proof.
  intros G io idx feats motion s Hout. unfold drawPreset.
  destruct (onoff G); [|reflexivity]. cbn [negb].
  destruct idx as [|p|p]; [lia | | reflexivity].
  do 6 (try (destruct p as [p|p|]; try reflexivity; try lia)).
Qed.

Lemma drawPreset_unknown_id_witness :
  drawPreset (sample_globals 30 true) (sample_host 0 0.5) 35 no_feats (0, 0)
             (sample_state 0) = sample_state 0.
Proof.
  apply (drawPreset_unknown_id (sample_globals 30 true) (sample_host 0 0.5)
           35 no_feats (0, 0) (sample_state 0)).
  right. reflexivity.
Defined.

(* ------------------------------------------------------------------ *)
(** ** Footprints of the presets *)

Lemma drawPreset_keeps_timeRand :
  forall G io idx feats motion s,
    ~ random_preset idx ->
    timeRand (drawPreset G io idx feats motion s) = timeRand s.
Proof.
  intros G io idx feats motion s Hidx. unfold random_preset in Hidx.
  unfold drawPreset.
  destruct (onoff G); [|reflexivity]. cbn [negb].
  keeps timeRand; exfalso; apply Hidx; tauto.
Qed.

Lemma drawPreset_keeps_abc :
  forall G io idx feats motion s,
    idx <> 3%Z -> idx <> 4%Z -> idx <> 20%Z ->
    a (drawPreset G io idx feats motion s) = a s
    /\ b_ (drawPreset G io idx feats motion s) = b_ s
    /\ c (drawPreset G io idx feats motion s) = c s.
Proof.
  intros G io idx feats motion s H3 H4 H20. unfold drawPreset.
  destruct (onoff G); [|repeat split]. cbn [negb].
  split; [|split]; [keeps a | keeps b_ | keeps c]; congruence.
Qed.

Lemma drawPreset_keeps_d :
  forall G io idx feats motion s,
    idx <> 3%Z -> d (drawPreset G io idx feats motion s) = d s.
Proof.
  intros G io idx feats motion s H3. unfold drawPreset.
  destruct (onoff G); [|reflexivity]. cbn [negb].
  keeps d; congruence.
Qed.

(** X20. Which preset may write what: only preset 14 moves spotlights,
    only presets 9 and 10 write the layout arrays, only the randomized
    presets 3, 4, 9, 10 stamp [timeRand], only presets 3, 4 and 20 write
    [a], [b_], [c], only preset 3 writes [d]; and no frame changes the
    active preset. *)
Theorem drawPreset_footprint :
  forall G io idx feats motion s,
    let s' := drawPreset G io idx feats motion s in
    (idx <> 14%Z -> spotlight s' = spotlight s)
    /\ (idx <> 9%Z -> idx <> 10%Z -> ranX s' = ranX s /\ ranY s' = ranY s)
    /\ (~ random_preset idx -> timeRand s' = timeRand s)
    /\ (idx <> 3%Z -> idx <> 4%Z -> idx <> 20%Z ->
        a s' = a s /\ b_ s' = b_ s /\ c s' = c s)
    /\ (idx <> 3%Z -> d s' = d s)
    /\ presetNumber s' = presetNumber s.
Proof.
  intros G io idx feats motion s s'. subst s'.
  split; [apply drawPreset_keeps_spotlight|].
  split; [apply drawPreset_keeps_layout|].
  split; [apply drawPreset_keeps_timeRand|].
  split; [apply drawPreset_keeps_abc|].
  split; [apply drawPreset_keeps_d | apply drawPreset_keeps_presetNumber].
Qed.

Lemma drawPreset_footprint_witness :
  spotlight (drawPreset (sample_globals 30 true) (sample_host 0 0.5) 9
                        no_feats (0, 0) (sample_state 9))
  = spotlight (sample_state 9).
Proof.
  pose proof (drawPreset_footprint (sample_globals 30 true)
                (sample_host 0 0.5) 9 no_feats (0, 0) (sample_state 9))
    as Hfoot.
  cbv zeta in Hfoot. apply (proj1 Hfoot). discriminate.
Defined.

(* ------------------------------------------------------------------ *)
(** ** The other accumulator presets *)

Lemma wrap_step_in_range (lo hi x inc : Q) :
  lo < hi -> 0 <= inc -> lo <= x ->
  let x' := if Qgeb (x + inc) hi then lo else x + inc in
  lo <= x' /\ x' < hi.
Proof.
  intros Hext Hinc Hx. cbv zeta.
  destruct (Qgeb (x + inc) hi) eqn:Hwrap.
  - split; lra.
  - assert (Hlt : x + inc < hi).
    { apply Qnot_le_lt. intros Hle. apply Qgeb_le in Hle. congruence. }
    split; lra.
Qed.

Lemma tunnel_frame_m :
  forall f s,
    m (draw_frame 29 s f)
    = if onoff (fG f)
      then (if Qgeb (m s + presetSpeed (fG f) / 40) 220
            then 0 else m s + presetSpeed (fG f) / 40)
      else m s.
Proof.
  intros f s. unfold draw_frame, drawPreset.
  destruct (onoff (fG f)); cbn [negb]; [|reflexivity].
  rewrite wrap_m_value. reflexivity.
Qed.

(** X21. Tunnel Rect (preset 29) keeps its size counter [m] in [0,220):
    for speeds anywhere in [0,100], enabled frames or not, a counter that
    starts in [0,220) is in [0,220) after every frame. *)
Theorem tunnel_counter_in_range :
  forall frames s,
    Forall (fun f => 0 <= presetSpeed (fG f) <= 100) frames ->
    0 <= m s -> m s < 220 ->
    forall n,
      0 <= m (run_preset 29 (firstn n frames) s)
      /\ m (run_preset 29 (firstn n frames) s) < 220.
Proof.
  intros frames s Hall. revert s.
  induction Hall as [|f frames [Hlo Hhi] _ IH]; intros s Hm0 Hm1 n.
  - destruct n; split; assumption.
  - destruct n as [|n]; [split; assumption|].
    cbn [firstn]. change (run_preset 29 (f :: firstn n frames) s)
      with (run_preset 29 (firstn n frames) (draw_frame 29 s f)).
    assert (Hstep : 0 <= m (draw_frame 29 s f) /\ m (draw_frame 29 s f) < 220).
    { rewrite tunnel_frame_m. destruct (onoff (fG f)); [|split; assumption].
      apply wrap_step_in_range; [reflexivity | | exact Hm0].
      unfold Qdiv. change (/ 40) with (1 # 40). lra. }
    apply IH; apply Hstep.
Qed.

Lemma tunnel_counter_in_range_witness :
  m (run_preset 29 (firstn 2 [ sample_frame 100 true 0 0.5;
                               sample_frame 30 true 16 0.5 ])
                (set_m 219 (sample_state 29))) < 220.
Proof.
  refine (proj2 (tunnel_counter_in_range
                   [ sample_frame 100 true 0 0.5; sample_frame 30 true 16 0.5 ]
                   (set_m 219 (sample_state 29)) _ _ _ 2%nat)).
  - repeat constructor; discriminate.
  - discriminate.
  - reflexivity.
Defined.

Lemma bar_frame_m :
  forall idx f s,
    bar_preset idx ->
    m (draw_frame idx s f)
    = if onoff (fG f)
      then (if Qgeb (m s + bar_step idx (fG f)) (bar_extent idx (fG f) - 50)
            then -50 else m s + bar_step idx (fG f))
      else m s.
Proof.
  intros idx f s [-> | [-> | ->]]; unfold draw_frame, drawPreset;
    destruct (onoff (fG f)); cbn [negb]; try reflexivity;
    rewrite wrap_m_value; reflexivity.
Qed.

(** X22. The sine-bar presets 18 and 19 and the line preset 22 keep the
    scroll accumulator in [-50, extent-50) as well (extent = width for 18
    and 22, height for 19): on a canvas of positive extent, with speeds in
    [0,100], an [m] that starts in the range is in the range after every
    frame.  What an enabled frame does to [m]: presets 18 and 19 add
    [speed/4], preset 22 adds 1 whatever the speed, and each restarts [m]
    at -50 when the sum has reached [extent-50]. *)
Theorem bar_accumulator_stays_in_range :
  forall idx extent frames s,
    bar_preset idx ->
    0 < extent ->
    Forall (fun f => bar_extent idx (fG f) == extent
                     /\ 0 <= presetSpeed (fG f) <= 100) frames ->
    in_scroll_range extent (m s) ->
    (forall n,
        in_scroll_range extent (m (run_preset idx (firstn n frames) s)))
    /\ (forall f s0,
          onoff (fG f) = true ->
          m (draw_frame 18 s0 f)
          = (if Qgeb (m s0 + presetSpeed (fG f) / 4)
                     (visualW (fG f) / DPR (fG f) - 50)
             then -50 else m s0 + presetSpeed (fG f) / 4)
          /\ m (draw_frame 19 s0 f)
             = (if Qgeb (m s0 + presetSpeed (fG f) / 4)
                        (H (fG f) / DPR (fG f) - 50)
                then -50 else m s0 + presetSpeed (fG f) / 4)
          /\ m (draw_frame 22 s0 f)
             = (if Qgeb (m s0 + 1) (visualW (fG f) / DPR (fG f) - 50)
                then -50 else m s0 + 1)).
Proof.
  intros idx extent frames s Hidx Hext Hall Hstart0. split.
  2:{ intros f s0 Hon.
      rewrite (bar_frame_m 18 f s0), (bar_frame_m 19 f s0),
        (bar_frame_m 22 f s0), Hon by (unfold bar_preset; tauto).
      repeat split; reflexivity. }
  revert s Hstart0.
  induction Hall as [|f frames [Hsame [Hlo Hhi]] _ IH]; intros s Hstart n.
  - now destruct n.
  - destruct n as [|n]; [exact Hstart|].
    cbn [firstn]. change (run_preset idx (f :: firstn n frames) s)
      with (run_preset idx (firstn n frames) (draw_frame idx s f)).
    apply IH. rewrite (bar_frame_m idx f s Hidx).
    destruct (onoff (fG f)); [|exact Hstart].
    destruct Hstart as [Hm0 Hm1]. unfold in_scroll_range.
    assert (Hinc : 0 <= bar_step idx (fG f)).
    { destruct Hidx as [-> | [-> | ->]]; cbn [bar_step];
        try discriminate; unfold Qdiv; change (/ 4) with (1 # 4); lra. }
    pose proof (wrap_step_in_range (-50) (bar_extent idx (fG f) - 50) (m s)
                  (bar_step idx (fG f)) ltac:(lra) Hinc Hm0) as Hwrap.
    cbv zeta in Hwrap. destruct Hwrap as [Hw0 Hw1]. split; [exact Hw0|].
    rewrite <- Hsame. exact Hw1.
Qed.

Lemma bar_accumulator_stays_in_range_witness :
  in_scroll_range 1920
    (m (run_preset 22 (firstn 2 [ sample_frame 30 true 0 0.5;
                                  sample_frame 0 true 16 0.5 ])
                   (set_m 1868 (sample_state 22)))).
Proof.
  refine (proj1 (bar_accumulator_stays_in_range 22 1920
                   [ sample_frame 30 true 0 0.5; sample_frame 0 true 16 0.5 ]
                   (set_m 1868 (sample_state 22)) _ _ _ _) 2%nat).
  - right. right. reflexivity.
  - reflexivity.
  - repeat constructor; vm_compute; congruence.
  - split; vm_compute; congruence.
Defined.

(** X23. Half Arc (preset 20) uses [v] as a step counter below 100: an
    enabled frame at a speed [>= 0] from a counter [>= 0] leaves it in
    [0,100); when the counter reaches 100 it restarts at 0 and, with random
    values in [0,1), picks origin selectors [a], [b_] among the integers
    0..20 and a radius [c >= 350]; otherwise it only advances by
    [speed/20].  Either way exactly one arc is stroked. *)
Theorem half_arc_counter :
  forall G io feats motion s,
    onoff G = true ->
    0 <= presetSpeed G ->
    0 <= v s ->
    (forall j, 0 <= Math_random io j /\ Math_random io j < 1) ->
    let s' := drawPreset G io 20 feats motion s in
    (0 <= v s' /\ v s' < 100)
    /\ (100 <= v s + presetSpeed G / 20 ->
        v s' = 0
        /\ (0 <= a s' <= 20) /\ (0 <= b_ s' <= 20) /\ 350 <= c s')
    /\ (v s + presetSpeed G / 20 < 100 ->
        v s' = v s + presetSpeed G / 20
        /\ a s' = a s /\ b_ s' = b_ s /\ c s' = c s)
    /\ canvas s' = canvas s ++ [Stroke].
Proof.
  intros G io feats motion s Hon Hspeed Hv Hrnd s'. subst s'.
  unfold drawPreset. rewrite Hon. cbn [negb].
  unfold add_v, arcWorld, paint.
  cbn [v set_v a b_ c canvas set_canvas set_a set_b_ set_c].
  assert (Hinc : 0 <= presetSpeed G / 20).
  { unfold Qdiv. change (/ 20) with (1 # 20). lra. }
  assert (Hsel : forall j, 0 <= Math_floor (Math_random io j * 21) <= 20).
  { intros j. destruct (Hrnd j) as [Hr0 Hr1]. unfold Math_floor.
    assert (H0 : (0 <= Qfloor (Math_random io j * 21))%Z).
    { change 0%Z with (Qfloor 0). apply Qfloor_resp_le. lra. }
    assert (H1 : (Qfloor (Math_random io j * 21) < 21)%Z).
    { rewrite Zlt_Qlt. change (inject_Z 21) with 21.
      apply Qle_lt_trans with (Math_random io j * 21);
        [apply Qfloor_le | lra]. }
    assert (H2 : (Qfloor (Math_random io j * 21) <= 20)%Z) by lia.
    rewrite Zle_Qle in H0, H2. split; assumption. }
  destruct (Qgeb (v s + presetSpeed G / 20) 100) eqn:Hwrap;
    cbn [v set_v a b_ c canvas set_canvas set_a set_b_ set_c].
  - apply Qgeb_le in Hwrap.
    split; [split; [discriminate | reflexivity]|].
    split; [|split; [intros Hlt; lra | reflexivity]].
    intros _. split; [reflexivity|].
    split; [apply Hsel|]. split; [apply Hsel|].
    destruct (Hrnd 2%nat) as [Hr0 Hr1]. unfold Math_floor.
    assert (Hm : 1 <= Qmax 1 (H G / DPR G - 400)) by apply Q.le_max_l.
    assert (Hp : 0 <= Math_random io 2 * Qmax 1 (H G / DPR G - 400))
      by (apply Qmult_le_0_compat; lra).
    assert (Hf : (350 <= Qfloor (350 + Math_random io 2
                                       * Qmax 1 (H G / DPR G - 400)))%Z).
    { apply Z.le_trans with (Qfloor 350); [discriminate|].
      apply Qfloor_resp_le. lra. }
    rewrite Zle_Qle in Hf. exact Hf.
  - assert (Hlt : v s + presetSpeed G / 20 < 100).
    { apply Qnot_le_lt. intros Hle. apply Qgeb_le in Hle. congruence. }
    split; [split; lra|].
    split; [intros Hge; lra|].
    split; [intros _; repeat split | reflexivity].
Qed.

Lemma half_arc_counter_witness :
  v (drawPreset (sample_globals 100 true) (sample_host 0 0.5) 20 no_feats
                (0, 0) (set_v 97 (sample_state 20))) < 100.
Proof.
  pose proof (half_arc_counter (sample_globals 100 true) (sample_host 0 0.5)
                no_feats (0, 0) (set_v 97 (sample_state 20))) as Harc.
  cbv zeta in Harc.
  refine (proj2 (proj1 (Harc _ _ _ _))).
  - reflexivity.
  - discriminate.
  - discriminate.
  - intros j. split; [discriminate | reflexivity].
Defined.

(* ------------------------------------------------------------------ *)
(** ** Beat detector: what a stream can and cannot do *)

Lemma update_hit_facts :
  forall energy tMs sens01 minIntervalMs bd,
    fst (BeatDetector.update energy tMs sens01 minIntervalMs bd) = true ->
    minIntervalMs <= tMs - BeatDetector.lastBeat bd
    /\ BeatDetector.prev bd < energy
    /\ beat_threshold sens01
         (BeatDetector.ema
            (snd (BeatDetector.update energy tMs sens01 minIntervalMs bd)))
         (BeatDetector.dev
            (snd (BeatDetector.update energy tMs sens01 minIntervalMs bd)))
       < energy
    /\ beat_gate sens01 < energy.
Proof.
  intros energy tMs sens01 minIntervalMs bd.
  unfold BeatDetector.update.
  cbn [fst snd BeatDetector.ema BeatDetector.dev].
  rewrite !andb_true_iff, Qgeb_le, !Qgtb_lt.
  unfold beat_threshold, beat_k, beat_base, beat_gate. tauto.
Qed.

Lemma update_lastBeat :
  forall energy tMs sens01 minIntervalMs bd,
    BeatDetector.lastBeat
      (snd (BeatDetector.update energy tMs sens01 minIntervalMs bd))
    = if fst (BeatDetector.update energy tMs sens01 minIntervalMs bd)
      then tMs else BeatDetector.lastBeat bd.
Proof. reflexivity. Qed.

(** X24. The cooldown holds over a whole stream: when every sample asks
    for a cooldown of at least [gap], each accepted beat is at least [gap]
    after the beat accepted before it (the first, after the detector's
    [lastBeat]), however the timestamps and energies run. *)
Theorem beats_are_spaced :
  forall gap xs bd,
    Forall (fun x => gap <= sample_cooldown x) xs ->
    spaced gap (BeatDetector.lastBeat bd)
           (hit_times xs (fst (BeatDetector.feed xs bd))).
Proof.
  intros gap xs. induction xs as [|[[[energy tMs] sens01] cool] rest IH];
    intros bd Hall; [exact I|].
  inversion Hall as [|x rest' Hcool Hrest]; subst.
  cbn [sample_cooldown snd] in Hcool.
  cbn [BeatDetector.feed].
  pose proof (update_hit_facts energy tMs sens01 cool bd) as Hfacts.
  pose proof (update_lastBeat energy tMs sens01 cool bd) as Hlast.
  destruct (BeatDetector.update energy tMs sens01 cool bd) as [hit bd1].
  cbn [fst snd] in Hfacts, Hlast.
  specialize (IH bd1 Hrest).
  destruct (BeatDetector.feed rest bd1) as [hits bd2].
  cbn [fst] in IH |- *. cbn [hit_times].
  destruct hit.
  - cbn [spaced sample_time fst snd].
    destruct (Hfacts eq_refl) as [Hok _].
    split; [lra | now rewrite <- Hlast].
  - now rewrite <- Hlast.
Qed.

Lemma beats_are_spaced_witness :
  spaced 120 (BeatDetector.lastBeat BeatDetector.reset)
    (hit_times
       [ (0.08, 0, 0.6, 120); (0.8, 48, 0.6, 120); (0.9, 160, 0.6, 160) ]
       (fst (BeatDetector.feed
               [ (0.08, 0, 0.6, 120); (0.8, 48, 0.6, 120);
                 (0.9, 160, 0.6, 160) ]
               BeatDetector.reset))).
Proof.
  apply (beats_are_spaced 120
           [ (0.08, 0, 0.6, 120); (0.8, 48, 0.6, 120); (0.9, 160, 0.6, 160) ]
           BeatDetector.reset).
  repeat constructor; discriminate.
Defined.

(** X25. Only a rising sample can be a beat: over a stream in which no
    energy is above the one before it (the first not above the detector's
    previous sample), however loud, [update] answers false every time. *)
Theorem falling_stream_never_fires :
  forall xs bd,
    falling (BeatDetector.prev bd) xs ->
    fst (BeatDetector.feed xs bd) = repeat false (List.length xs).
Proof.
  induction xs as [|[[[energy tMs] sens01] cool] rest IH];
    intros bd Hfall; [reflexivity|].
  destruct Hfall as [Hle Hrest]. cbn [sample_energy fst] in Hle, Hrest.
  cbn [BeatDetector.feed List.length repeat].
  assert (Hhit : fst (BeatDetector.update energy tMs sens01 cool bd) = false).
  { apply not_true_is_false. intros Hhit.
    destruct (update_hit_facts _ _ _ _ _ Hhit) as (_ & Hrise & _). lra. }
  assert (Hprev : BeatDetector.prev
                    (snd (BeatDetector.update energy tMs sens01 cool bd))
                  = energy) by reflexivity.
  destruct (BeatDetector.update energy tMs sens01 cool bd) as [hit bd1].
  cbn [fst snd] in Hhit, Hprev. subst hit.
  rewrite <- Hprev in Hrest. specialize (IH bd1 Hrest).
  destruct (BeatDetector.feed rest bd1) as [hits bd2].
  cbn [fst] in IH |- *. now rewrite IH.
Qed.

Lemma falling_stream_never_fires_witness :
  fst (BeatDetector.feed
         [ (0.9, 0, 1, 0); (0.9, 16, 1, 0); (0.7, 32, 1, 0) ]
         (BeatDetector.mk 0.5 0.1 0.9 (-1e9) 0))
  = repeat false 3.
Proof.
  apply (falling_stream_never_fires
           [ (0.9, 0, 1, 0); (0.9, 16, 1, 0); (0.7, 32, 1, 0) ]
           (BeatDetector.mk 0.5 0.1 0.9 (-1e9) 0)).
  cbn. repeat split; discriminate.
Defined.

Lemma sensitivity_ranges (sens01 : Q) :
  (0.6 <= beat_k sens01 <= 2.2)
  /\ (0.008 <= beat_base sens01 <= 0.030)
  /\ (0.03 <= beat_gate sens01 <= 0.12).
Proof.
  unfold beat_k, beat_base, beat_gate, lerp.
  destruct (clamp_unit_bounds sens01) as [Hlo Hhi].
  set (cl := clamp sens01 0 1) in *.
  repeat split; lra.
Qed.

(** X26. What a beat needs at the very least, at any sensitivity: a sample
    of 0.03 or less never fires, and when the deviation estimate is not
    negative a beat's energy exceeds the freshly updated mean by more
    than 0.0048. *)
Theorem beat_needs_floor_and_margin :
  forall energy tMs sens01 minIntervalMs bd,
    (energy <= 0.03 ->
     fst (BeatDetector.update energy tMs sens01 minIntervalMs bd) = false)
    /\ (0 <= BeatDetector.dev bd ->
        fst (BeatDetector.update energy tMs sens01 minIntervalMs bd) = true ->
        0.03 < energy
        /\ BeatDetector.ema
             (snd (BeatDetector.update energy tMs sens01 minIntervalMs bd))
           + 0.0048 < energy).
Proof.
  intros energy tMs sens01 minIntervalMs bd.
  destruct (sensitivity_ranges sens01) as ((Hk0 & Hk1) & (Hb0 & Hb1) & (Hg0 & Hg1)).
  split.
  - intros Hquiet. apply not_true_is_false. intros Hhit.
    destruct (update_hit_facts _ _ _ _ _ Hhit) as (_ & _ & _ & Hgate). lra.
  - intros Hdev Hhit.
    destruct (update_hit_facts _ _ _ _ _ Hhit) as (_ & _ & Hthr & Hgate).
    pose proof (update_dev_nonneg energy tMs sens01 minIntervalMs bd Hdev)
      as Hdev'.
    split; [lra|].
    unfold beat_threshold in Hthr.
    set (bd' := snd (BeatDetector.update energy tMs sens01 minIntervalMs bd))
      in *.
    set (ema' := BeatDetector.ema bd') in *.
    set (dev' := BeatDetector.dev bd') in *.
    assert (Hx : 0.008 <= dev' * 1.10 + beat_base sens01) by lra.
    assert (Hprod : 0.6 * 0.008 <= beat_k sens01 * (dev' * 1.10 + beat_base sens01)).
    { apply Qle_trans with (0.6 * (dev' * 1.10 + beat_base sens01)).
      - assert (Hp : 0 <= 0.6 * (dev' * 1.10 + beat_base sens01 - 0.008))
          by (apply Qmult_le_0_compat; lra).
        lra.
      - apply Qmult_le_compat_r; lra. }
    assert (Hc : 0.6 * 0.008 == 0.0048) by reflexivity.
    lra.
Qed.

Lemma beat_needs_floor_and_margin_witness :
  fst (BeatDetector.update 0.02 1000 1 0 BeatDetector.reset) = false.
Proof.
  apply (beat_needs_floor_and_margin 0.02 1000 1 0 BeatDetector.reset).
  discriminate.
Defined.

Lemma update_level_bounds (lo hi : Q) :
  forall energy tMs sens01 minIntervalMs bd,
    lo <= energy <= hi ->
    lo <= BeatDetector.ema bd <= hi ->
    0 <= BeatDetector.dev bd <= hi - lo ->
    let bd' := snd (BeatDetector.update energy tMs sens01 minIntervalMs bd) in
    (lo <= BeatDetector.ema bd' <= hi)
    /\ (0 <= BeatDetector.dev bd' <= hi - lo).
Proof.
  intros energy tMs sens01 minIntervalMs bd [He0 He1] [Hm0 Hm1] [Hd0 Hd1] bd'.
  subst bd'. unfold BeatDetector.update.
  cbn [snd BeatDetector.ema BeatDetector.dev].
  set (ema' := BeatDetector.ema bd + 0.06 * (energy - BeatDetector.ema bd)).
  assert (Hema : lo <= ema' <= hi) by (subst ema'; split; lra).
  destruct Hema as [Hn0 Hn1].
  assert (Habs0 : 0 <= Qabs (energy - ema')) by apply Qabs_nonneg.
  assert (Habs1 : Qabs (energy - ema') <= hi - lo).
  { apply Qabs_Qle_condition. split; lra. }
  repeat split; lra.
Qed.

(** X27. The running estimates stay where the input is: fed any stream
    whose energies lie in [lo, hi], a detector whose mean is in [lo, hi]
    and whose deviation is in [0, hi - lo] ends with both still there;
    from [reset] and energies in [0, 1] the mean and the deviation stay in
    [0, 1]. *)
Theorem estimates_stay_in_band :
  forall lo hi xs bd,
    Forall (fun x => lo <= sample_energy x <= hi) xs ->
    lo <= BeatDetector.ema bd <= hi ->
    0 <= BeatDetector.dev bd <= hi - lo ->
    let bd' := snd (BeatDetector.feed xs bd) in
    (lo <= BeatDetector.ema bd' <= hi)
    /\ (0 <= BeatDetector.dev bd' <= hi - lo).
Proof.
  intros lo hi xs.
  induction xs as [|[[[energy tMs] sens01] cool] rest IH];
    intros bd Hall Hema Hdev; [now split|].
  inversion Hall as [|x rest' Hx Hrest]; subst.
  cbn [sample_energy fst] in Hx.
  cbn [BeatDetector.feed].
  pose proof (update_level_bounds lo hi energy tMs sens01 cool bd Hx Hema Hdev)
    as Hstep.
  cbv zeta in Hstep.
  destruct (BeatDetector.update energy tMs sens01 cool bd) as [hit bd1].
  cbn [snd] in Hstep. destruct Hstep as [Hema1 Hdev1].
  specialize (IH bd1 Hrest Hema1 Hdev1). cbv zeta in IH.
  destruct (BeatDetector.feed rest bd1) as [hits bd2].
  exact IH.
Qed.

Lemma estimates_stay_in_band_witness :
  0 <= BeatDetector.ema
         (snd (BeatDetector.feed
                 [ (0.2, 0, 0.6, 120); (1, 16, 0.6, 120) ]
                 BeatDetector.reset)) <= 1.
Proof.
  refine (proj1 (estimates_stay_in_band 0 1
                   [ (0.2, 0, 0.6, 120); (1, 16, 0.6, 120) ]
                   BeatDetector.reset _ _ _)).
  - repeat constructor; discriminate.
  - split; discriminate.
  - split; discriminate.
Defined.

(* ------------------------------------------------------------------ *)
(** ** The frame loop's arithmetic *)

Lemma micGain_range (x : Q) : 0.5 <= micGainFromUI x <= 5.
Proof.
  unfold micGainFromUI, lerp.
  destruct (clamp_unit_bounds (x / 200)) as [Hlo Hhi].
  set (cl := clamp (x / 200) 0 1) in *. split; lra.
Qed.

Lemma micGain_mono (x y : Q) : x <= y -> micGainFromUI x <= micGainFromUI y.
Proof.
  intros Hxy. unfold micGainFromUI, lerp.
  assert (Hcl : clamp (x / 200) 0 1 <= clamp (y / 200) 0 1).
  { apply clamp_mono. unfold Qdiv. change (/ 200) with (1 # 200). lra. }
  lra.
Qed.

Lemma raw_energy_range (feats : Feats) :
  0 <= clamp (0.75 * bass feats + 0.25 * amp feats) 0 1 <= 1.
Proof. apply clamp_unit_bounds. Qed.

(** X28. The energy handed to the beat detector, with the gain taken from
    the Mic Sensitivity slider: the gain is between 0.5 and 5 whatever the
    slider reads, the energy is between 0 and 1 whatever the analyser
    reports, it is 0 when bass and amplitude are 0, and raising the slider
    never lowers it. *)
Theorem detector_energy_range :
  forall feats slider,
    (0.5 <= micGainFromUI slider <= 5)
    /\ (0 <= beat_energy feats (micGainFromUI slider) <= 1)
    /\ (bass feats == 0 -> amp feats == 0 ->
        beat_energy feats (micGainFromUI slider) == 0)
    /\ (forall slider', slider <= slider' ->
        beat_energy feats (micGainFromUI slider)
        <= beat_energy feats (micGainFromUI slider')).
Proof.
  intros feats slider.
  split; [apply micGain_range|].
  split; [apply clamp_unit_bounds|].
  split.
  - intros Hbass Hamp. unfold beat_energy. cbv zeta.
    assert (Hraw : clamp (0.75 * bass feats + 0.25 * amp feats) 0 1 == 0).
    { rewrite clamp_inside; lra. }
    apply Qle_antisym.
    + unfold clamp at 1. apply Q.max_lub; [lra|].
      apply Qle_trans with
        (clamp (0.75 * bass feats + 0.25 * amp feats) 0 1
         * micGainFromUI slider); [apply Q.le_min_r|].
      rewrite Hraw. lra.
    + apply clamp_unit_bounds.
  - intros slider' Hle. unfold beat_energy. cbv zeta.
    apply clamp_mono.
    destruct (raw_energy_range feats) as [Hr0 _].
    pose proof (micGain_mono slider slider' Hle) as Hg.
    set (raw := clamp (0.75 * bass feats + 0.25 * amp feats) 0 1) in *.
    assert (Hp : 0 <= raw * (micGainFromUI slider' - micGainFromUI slider))
      by (apply Qmult_le_0_compat; lra).
    lra.
Qed.

Lemma power_step (k : Q) (n : nat) :
  k ^ Z.of_nat (S n) == k * k ^ Z.of_nat n.
Proof.
  rewrite Nat2Z.inj_succ, <- Z.add_1_l, Qpower_plus' by lia.
  now rewrite Qpower_1_r.
Qed.

Lemma power_unit (k : Q) (n : nat) :
  0 <= k -> k <= 1 -> 0 <= k ^ Z.of_nat n /\ k ^ Z.of_nat n <= 1.
Proof.
  intros Hk0 Hk1. induction n as [|n [IH0 IH1]].
  - split; discriminate.
  - rewrite power_step.
    pose proof (Qmult_le_0_compat _ _ Hk0 IH0) as Hp.
    assert (Hq : 0 <= (1 - k) * k ^ Z.of_nat n)
      by (apply Qmult_le_0_compat; lra).
    split; lra.
Qed.

Lemma approach_between (p x cur dest : Q) :
  0 <= p -> p <= 1 ->
  x - dest == p * (cur - dest) ->
  Qmin cur dest <= x /\ x <= Qmax cur dest.
Proof.
  intros Hp0 Hp1 Hx.
  destruct (Qlt_le_dec cur dest) as [Hlt | Hle].
  - rewrite Q.min_l, Q.max_r by lra.
    assert (Ha : 0 <= p * (dest - cur)) by (apply Qmult_le_0_compat; lra).
    assert (Hb : 0 <= (1 - p) * (dest - cur))
      by (apply Qmult_le_0_compat; lra).
    split; lra.
  - rewrite Q.min_r, Q.max_l by lra.
    assert (Ha : 0 <= p * (cur - dest)) by (apply Qmult_le_0_compat; lra).
    assert (Hb : 0 <= (1 - p) * (cur - dest))
      by (apply Qmult_le_0_compat; lra).
    split; lra.
Qed.

Lemma approach_iter (k dest : Q) (f : Q -> Q) :
  (forall x, f x - dest == k * (x - dest)) ->
  forall cur n, Nat.iter n f cur - dest == k ^ Z.of_nat n * (cur - dest).
Proof.
  intros Hf cur n. induction n as [|n IH].
  - change (cur - dest == 1 * (cur - dest)). ring.
  - change (Nat.iter (S n) f cur) with (f (Nat.iter n f cur)).
    rewrite Hf, IH, power_step. ring.
Qed.

(** X29. The size and brightness smoothing of the frame loop closes a
    fixed share of the gap to the slider value on every frame: after [n]
    frames the size is [0.86^n] of its initial distance away from its
    destination and the brightness [0.8^n], neither ever leaves the
    interval between where it started and its destination (no overshoot),
    and during a blackout the brightness does not move. *)
Theorem smoothing_converges :
  forall dest cur n,
    let size_n := Nat.iter n (smooth_size dest) cur in
    let bright_n := Nat.iter n (smooth_brightness false dest) cur in
    size_n - dest == 0.86 ^ Z.of_nat n * (cur - dest)
    /\ bright_n - dest == 0.8 ^ Z.of_nat n * (cur - dest)
    /\ (Qmin cur dest <= size_n /\ size_n <= Qmax cur dest)
    /\ (Qmin cur dest <= bright_n /\ bright_n <= Qmax cur dest)
    /\ Nat.iter n (smooth_brightness true dest) cur = cur.
Proof.
  intros dest cur n size_n bright_n.
  assert (Hsize : size_n - dest == 0.86 ^ Z.of_nat n * (cur - dest)).
  { apply approach_iter. intros x. unfold smooth_size. ring. }
  assert (Hbright : bright_n - dest == 0.8 ^ Z.of_nat n * (cur - dest)).
  { apply approach_iter. intros x. unfold smooth_brightness. cbn [negb].
    ring. }
  split; [exact Hsize|]. split; [exact Hbright|].
  split; [|split].
  - destruct (power_unit 0.86 n) as [Hp0 Hp1]; [discriminate..|].
    exact (approach_between _ _ _ _ Hp0 Hp1 Hsize).
  - destruct (power_unit 0.8 n) as [Hp0 Hp1]; [discriminate..|].
    exact (approach_between _ _ _ _ Hp0 Hp1 Hbright).
  - clear. induction n as [|n IH]; [reflexivity|].
    change (Nat.iter (S n) (smooth_brightness true dest) cur)
      with (smooth_brightness true dest
              (Nat.iter n (smooth_brightness true dest) cur)).
    now rewrite IH.
Qed.

(* ------------------------------------------------------------------ *)
(** ** Beat-driven changes *)

Lemma pool_members :
  Forall (fun p => (0 <= p <= presetCount - 1)%Z /\ p <> 15%Z /\ p <> 23%Z)
         autoDJPresetPool.
Proof.
  apply Forall_forall. intros p Hin. unfold autoDJPresetPool in Hin.
  apply filter_In in Hin. destruct Hin as [Hin Hkeep].
  apply in_map_iff in Hin. destruct Hin as (i & <- & Hi).
  apply in_seq in Hi.
  apply negb_true_iff, orb_false_iff in Hkeep.
  destruct Hkeep as [H15 H23].
  apply Z.eqb_neq in H15. apply Z.eqb_neq in H23.
  repeat split; try assumption; lia.
Qed.

Lemma pick_in_pool (io : Host) (k : nat) :
  0 <= Math_random io k -> Math_random io k < 1 ->
  In (pickRandomPresetFromPool io k) autoDJPresetPool.
Proof.
  intros Hlo Hhi. unfold pickRandomPresetFromPool.
  apply nth_In. apply random_index_lt; [assumption | assumption |].
  vm_compute. lia.
Qed.

Lemma pick_other_in_pool (io : Host) (current : Z) :
  (forall j, 0 <= Math_random io j /\ Math_random io j < 1) ->
  forall more k, In (fst (pick_other io current k more)) autoDJPresetPool.
Proof.
  intros Hrnd more. induction more as [|more IH]; intros k; cbn [pick_other].
  - apply pick_in_pool; apply Hrnd.
  - destruct (pickRandomPresetFromPool io k =? current)%Z eqn:Hsame.
    + apply IH.
    + apply pick_in_pool; apply Hrnd.
Qed.

Lemma selected_from_pool (G : Globals) (io : Host) (p : Z) (s : State) :
  In p autoDJPresetPool ->
  In (presetNumber (selectPreset G io p s)) autoDJPresetPool
  /\ presetNumber (selectPreset G io p s) <> 15%Z
  /\ presetNumber (selectPreset G io p s) <> 23%Z.
Proof.
  intros Hin. pose proof pool_members as Hpool.
  rewrite Forall_forall in Hpool.
  destruct (Hpool p Hin) as (Hrange & H15 & H23).
  assert (Hnum : presetNumber (selectPreset G io p s) = p).
  { rewrite selectPreset_presetNumber. unfold clampZ. lia. }
  rewrite Hnum. repeat split; assumption.
Qed.

Lemma auto_colour_facts (io : Host) (G : Globals) :
  0 <= Math_random io 0 -> Math_random io 0 < 1 ->
  let G' := keep_distinct (set_presetColor (randomBrightColor io 0) G) in
  In (presetColor G') PALETTE
  /\ (multiColor G = true ->
      6400 <= distSq (multiColorClr G') (presetColor G')).
Proof.
  intros Hlo Hhi G'. subst G'. split.
  - assert (Hsame : presetColor
                      (keep_distinct
                         (set_presetColor (randomBrightColor io 0) G))
                    = randomBrightColor io 0).
    { unfold keep_distinct.
      destruct (multiColor _ && Qltb _ _); reflexivity. }
    rewrite Hsame. unfold randomBrightColor.
    assert (Hin : In (nth (random_index io 0 (List.length PALETTE)) PALETTE
                          COLORS_red) PALETTE).
    { apply nth_In.
      apply random_index_lt; [assumption | assumption | cbn; lia]. }
    now rewrite (rgb_of_palette _ Hin).
  - intros Hmulti. now apply keep_distinct_far.
Qed.

(** X30. What a detected beat does: it counts the beat and stamps its
    time; with auto colour off the colours are untouched, with it on the
    primary colour is a palette colour and, in multicolour mode, the two
    colours end at least 80 apart; the preset either stays as it is or
    becomes a member of the auto pool, so a beat never selects the
    mouse-driven preset 15 or the solid fill 23; and with auto preset off
    the drawing state is untouched.  Random values are taken in [0,1). *)
Theorem onBeat_effects :
  forall io tNow G dj s,
    (forall j, 0 <= Math_random io j /\ Math_random io j < 1) ->
    let G' := fst (fst (onBeat io tNow G dj s)) in
    let dj' := snd (fst (onBeat io tNow G dj s)) in
    let s' := snd (onBeat io tNow G dj s) in
    beatCount dj' = (beatCount dj + 1)%Z
    /\ lastBeatFlash dj' = tNow
    /\ (beatAutoColor dj = false -> G' = G)
    /\ (beatAutoColor dj = true ->
        In (presetColor G') PALETTE
        /\ (multiColor G = true ->
            6400 <= distSq (multiColorClr G') (presetColor G')))
    /\ (s' = s
        \/ (In (presetNumber s') autoDJPresetPool
            /\ presetNumber s' <> 15%Z /\ presetNumber s' <> 23%Z))
    /\ (beatAutoPreset dj = false -> s' = s).
Proof.
  intros io tNow G dj s Hrnd G' dj' s'. subst G' dj' s'.
  destruct (Hrnd 0%nat) as [Hlo Hhi].
  pose proof (auto_colour_facts io G Hlo Hhi) as Hcol. cbv zeta in Hcol.
  unfold onBeat. cbv zeta. cbn [beatAutoColor beatAutoPreset beatEveryN].
  destruct (beatAutoColor dj) eqn:Hcolor;
    destruct (beatAutoPreset dj) eqn:Hauto; cbn [andb];
    try destruct (Z.rem (beatCount dj + 1) (Z.max 1 (beatEveryN dj)) =? 0)%Z;
    try match goal with
        | |- context [pick_other io (presetNumber s) ?k 7] =>
            pose proof (pick_other_in_pool io (presetNumber s) Hrnd 7 k)
              as Hin;
            destruct (pick_other io (presetNumber s) k 7) as [p used'];
            cbn [fst] in Hin
        end;
    cbn [fst snd beatCount lastBeatFlash];
    repeat match goal with
           | |- _ /\ _ => split
           | |- _ -> _ => intros ?
           end;
    try reflexivity; try discriminate; try tauto;
    try (left; reflexivity);
    try (right; now apply selected_from_pool).
Qed.

Lemma onBeat_effects_witness :
  beatCount
    (snd (fst (onBeat (sample_host 0 0.5) 1000 (sample_globals 30 true)
                      (mkBeatDJ 3 0 true true 4) (sample_state 1))))
  = 4%Z.
Proof.
  refine (proj1 (onBeat_effects (sample_host 0 0.5) 1000
                   (sample_globals 30 true) (mkBeatDJ 3 0 true true 4)
                   (sample_state 1) _)).
  intros j. split; [discriminate | reflexivity].
Defined.
